(** * Reference-counted smart pointers: control blocks, strong and weak
      handles, self-observation, and the intrusive counter.

    A shallow embedding of [shared-from-this/shared.h], [weak/weak.h] and
    [intrusive/intrusive.h].  The C++ heap is an explicit state: control
    blocks and managed objects live in finite maps keyed by their address,
    [nullptr] is [None], and every member function becomes a function in a
    small state-and-error monad whose failure value [UB] stands for
    undefined behaviour (null dereference, use after free, double delete). *)

From Stdlib Require Import ZArith Lia.
From stdpp Require Import base option list gmap fin_maps.

(** ** [size_t] arithmetic

    The counters are [size_t], taken as 64 bits wide; they wrap around. *)

Definition SIZE_MODULUS : Z := (2 ^ 64)%Z.

Definition wrap (z : Z) : Z := (z mod SIZE_MODULUS)%Z.

(** [++c] and [--c] on a [size_t]. *)
Definition incr (c : Z) : Z := wrap (c + 1).
Definition decr (c : Z) : Z := wrap (c - 1).

Definition in_size_t (c : Z) : Prop := (0 <= c < SIZE_MODULUS)%Z.

(** ** Data model *)

(** A pointer is an optional address; [None] is [nullptr]. *)
Abbreviation ptr := (option nat).

(** The dynamic type of a control block. *)
Inductive BlockClass := PtrControlBlock | ObjectControlBlock.

(** Both subclasses of [BaseControlBlock] carry the same three members;
    [stored_ptr_] is [control_ptr_] in a [PtrControlBlock] and
    [buffer_ptr_] in an [ObjectControlBlock]. *)
Record BaseControlBlock := mkBlock {
  dynamic_type : BlockClass;
  strong_counter_ : Z;
  weak_counter_ : Z;
  stored_ptr_ : ptr
}.

Record WeakPtr := mkWeak {
  w_base_block_ : ptr;
  w_observed_ptr_ : ptr
}.

Record SharedPtr := mkShared {
  base_block_ : ptr;
  observed_ptr_ : ptr
}.

(** A managed object: its payload and, when its class derives from
    [EnableSharedFromThis], the member [weak_this_]. *)
Record Object := mkObject {
  value : Z;
  weak_this_ : option WeakPtr
}.

Inductive Event :=
| EvDelete (p : nat)          (* delete p : destructor, then storage released *)
| EvDestroyInPlace (p : nat)  (* p->~T() : destructor only *)
| EvFreeBlock (b : nat).      (* delete this, inside a control block *)

Record Heap := mkHeap {
  blocks : gmap nat BaseControlBlock;
  objects : gmap nat Object;
  trace : list Event;
  allocations : nat
}.

#[global] Instance BlockClass_eq_dec : EqDecision BlockClass.
Proof. solve_decision. Defined.
#[global] Instance BaseControlBlock_eq_dec : EqDecision BaseControlBlock.
Proof. solve_decision. Defined.
#[global] Instance WeakPtr_eq_dec : EqDecision WeakPtr.
Proof. solve_decision. Defined.
#[global] Instance SharedPtr_eq_dec : EqDecision SharedPtr.
Proof. solve_decision. Defined.
#[global] Instance Object_eq_dec : EqDecision Object.
Proof. solve_decision. Defined.
#[global] Instance Event_eq_dec : EqDecision Event.
Proof. solve_decision. Defined.

(** Modelled from the spec: [BadWeakPtr] is declared in [sw_fwd.h], which
    is not among the sources; the spec calls it the expired-reference
    condition raised by the promoting constructor. *)
Inductive Exception := BadWeakPtr.

(** ** The state-and-error monad *)

Inductive Res (A : Type) :=
| Ok (a : A) (σ : Heap)
| Throw (e : Exception) (σ : Heap)
| UB.
Arguments Ok {A} a σ.
Arguments Throw {A} e σ.
Arguments UB {A}.

Definition M (A : Type) : Type := Heap → Res A.

Definition ret {A} (a : A) : M A := λ σ, Ok a σ.

Definition bind {A B} (m : M A) (k : A → M B) : M B :=
  λ σ, match m σ with
       | Ok a σ' => k a σ'
       | Throw e σ' => Throw e σ'
       | UB => UB
       end.

Definition undefined {A} : M A := λ _, UB.
Definition throw {A} (e : Exception) : M A := λ σ, Throw e σ.

Global Instance M_ret : MRet M := @ret.
Global Instance M_bind : MBind M := λ A B k m, bind m k.

(** ** Heap primitives *)

Definition with_strong (c : Z) (blk : BaseControlBlock) : BaseControlBlock :=
  mkBlock (dynamic_type blk) c (weak_counter_ blk) (stored_ptr_ blk).
Definition with_weak (c : Z) (blk : BaseControlBlock) : BaseControlBlock :=
  mkBlock (dynamic_type blk) (strong_counter_ blk) c (stored_ptr_ blk).
Definition with_stored (p : ptr) (blk : BaseControlBlock) : BaseControlBlock :=
  mkBlock (dynamic_type blk) (strong_counter_ blk) (weak_counter_ blk) p.

Definition set_blocks (f : gmap nat BaseControlBlock → gmap nat BaseControlBlock)
    (σ : Heap) : Heap :=
  mkHeap (f (blocks σ)) (objects σ) (trace σ) (allocations σ).
Definition set_objects (f : gmap nat Object → gmap nat Object) (σ : Heap) : Heap :=
  mkHeap (blocks σ) (f (objects σ)) (trace σ) (allocations σ).
Definition emit (e : Event) (σ : Heap) : Heap :=
  mkHeap (blocks σ) (objects σ) (e :: trace σ) (allocations σ).
Definition count_allocation (σ : Heap) : Heap :=
  mkHeap (blocks σ) (objects σ) (trace σ) (S (allocations σ)).

(** Reading through a block pointer; a block that is not allocated makes
    the access undefined. *)
Definition load_block (b : nat) : M BaseControlBlock :=
  λ σ, match blocks σ !! b with
       | Some blk => Ok blk σ
       | None => UB
       end.

Definition store_block (b : nat) (blk : BaseControlBlock) : M unit :=
  λ σ, Ok tt (set_blocks (insert b blk) σ).

(** [new PtrControlBlock<Y>(..)] / [new ObjectControlBlock<T, Args...>(..)]. *)
Definition new_block (blk : BaseControlBlock) : M nat :=
  λ σ, let b := fresh (dom (blocks σ)) in
       Ok b (count_allocation (set_blocks (insert b blk) σ)).

(** [delete this] inside a control block: the destructor clears the
    members and the storage is released. *)
Definition delete_this (b : nat) : M unit :=
  λ σ, match blocks σ !! b with
       | Some _ => Ok tt (emit (EvFreeBlock b) (set_blocks (delete b) σ))
       | None => UB
       end.

Definition load_object (p : nat) : M Object :=
  λ σ, match objects σ !! p with
       | Some o => Ok o σ
       | None => UB
       end.

Definition store_object (p : nat) (o : Object) : M unit :=
  λ σ, Ok tt (set_objects (insert p o) σ).

(** [new T(args...)]: a separate allocation for the object. *)
Definition new_object (o : Object) : M nat :=
  λ σ, let p := fresh (dom (objects σ)) in
       Ok p (count_allocation (set_objects (insert p o) σ)).

(** Placement new into the buffer of a block: no allocation of its own. *)
Definition construct_in_place (o : Object) : M nat :=
  λ σ, let p := fresh (dom (objects σ)) in
       Ok p (set_objects (insert p o) σ).

Definition end_lifetime (p : nat) (e : Event) : M unit :=
  λ σ, Ok tt (emit e (set_objects (delete p) σ)).

(** ** Control-block member functions

    The bodies of [IncreaseStrongCounter], [IncreaseWeakCounter],
    [DecreaseWeakCounter], [BruteDecreaseWeakCounter] and
    [GetStrongCounter] are the same text in both subclasses; the argument
    [b] is the [this] pointer. *)

Definition IncreaseStrongCounter (b : nat) : M unit :=
  blk ← load_block b;
  store_block b (with_strong (incr (strong_counter_ blk)) blk).

Definition IncreaseWeakCounter (b : nat) : M unit :=
  blk ← load_block b;
  store_block b (with_weak (incr (weak_counter_ blk)) blk).

Definition DecreaseWeakCounter (b : nat) : M unit :=
  blk ← load_block b;
  let w := decr (weak_counter_ blk) in
  store_block b (with_weak w blk);;
  if ((w =? 0) && (strong_counter_ blk =? 0))%Z
  then delete_this b
  else ret tt.

Definition BruteDecreaseWeakCounter (b : nat) : M unit :=
  blk ← load_block b;
  store_block b (with_weak (decr (weak_counter_ blk)) blk).

Definition GetStrongCounter (b : nat) : M Z :=
  blk ← load_block b;
  ret (strong_counter_ blk).

(** ** [WeakPtr<T>] ([weak/weak.h])

    A member function that assigns to [*this] returns the new value of
    [*this]; one that also writes to [other] returns both. *)

Definition WeakPtr_default : WeakPtr := mkWeak None None.

Definition WeakPtr_copy (other : WeakPtr) : M WeakPtr :=
  let this := mkWeak (w_base_block_ other) (w_observed_ptr_ other) in
  match w_base_block_ this with
  | Some b => IncreaseWeakCounter b
  | None => mret tt
  end;;
  mret this.

Definition WeakPtr_move (other : WeakPtr) : WeakPtr * WeakPtr :=
  (mkWeak (w_base_block_ other) (w_observed_ptr_ other), mkWeak None None).

(** [WeakPtr(const SharedPtr<T>&)]. *)
Definition WeakPtr_from_shared (other : SharedPtr) : M WeakPtr :=
  let this := mkWeak (base_block_ other) (observed_ptr_ other) in
  match w_base_block_ this with
  | Some b => IncreaseWeakCounter b
  | None => mret tt
  end;;
  mret this.

(** [operator=(const SharedPtr<Y>&)]. *)
Definition WeakPtr_assign_shared (this : WeakPtr) (other : SharedPtr) : M WeakPtr :=
  match w_base_block_ this with
  | Some b => DecreaseWeakCounter b
  | None => mret tt
  end;;
  let this := mkWeak (base_block_ other) (observed_ptr_ other) in
  match w_base_block_ this with
  | Some b => IncreaseWeakCounter b
  | None => mret tt
  end;;
  mret this.

(** [operator=(const WeakPtr&)]; [same] is the test [this == &other]. *)
Definition WeakPtr_copy_assign (same : bool) (this other : WeakPtr) : M WeakPtr :=
  if same then mret this
  else
    match w_base_block_ this with
    | Some b => DecreaseWeakCounter b
    | None => mret tt
    end;;
    match w_base_block_ other with
    | Some b => IncreaseWeakCounter b
    | None => mret tt
    end;;
    mret (mkWeak (w_base_block_ other) (w_observed_ptr_ other)).

(** [operator=(WeakPtr&&)]: returns the new [*this] and the new [other]. *)
Definition WeakPtr_move_assign (same : bool) (this other : WeakPtr)
    : M (WeakPtr * WeakPtr) :=
  if same then mret (this, other)
  else
    match w_base_block_ this with
    | Some b => DecreaseWeakCounter b
    | None => mret tt
    end;;
    mret (mkWeak (w_base_block_ other) (w_observed_ptr_ other), mkWeak None None).

Definition WeakPtr_dtor (this : WeakPtr) : M unit :=
  match w_base_block_ this with
  | Some b => DecreaseWeakCounter b
  | None => mret tt
  end.

Definition WeakPtr_Reset (this : WeakPtr) : M WeakPtr :=
  match w_base_block_ this with
  | Some b => DecreaseWeakCounter b
  | None => mret tt
  end;;
  mret (mkWeak None None).

Definition WeakPtr_Swap (this other : WeakPtr) : WeakPtr * WeakPtr :=
  (mkWeak (w_base_block_ other) (w_observed_ptr_ other),
   mkWeak (w_base_block_ this) (w_observed_ptr_ this)).

Definition WeakPtr_UseCount (this : WeakPtr) : M Z :=
  match w_base_block_ this with
  | Some b => GetStrongCounter b
  | None => mret 0%Z
  end.

Definition WeakPtr_Expired (this : WeakPtr) : M bool :=
  n ← WeakPtr_UseCount this;
  mret (n =? 0)%Z.

(** ** Destruction of a managed object *)

(** [~EnableSharedFromThis()]: the body of the destructor, acting on the
    member [weak_this_]; there is no null test before the call through
    [weak_this_.base_block_]. *)
Definition EnableSharedFromThis_dtor (weak_this : WeakPtr) : M WeakPtr :=
  match w_base_block_ weak_this with
  | Some b => BruteDecreaseWeakCounter b
  | None => undefined
  end;;
  mret (mkWeak None None).

(** [~T()] for the object at [p].  The payload's own destructor does
    nothing; when the class derives from [EnableSharedFromThis] the base
    destructor runs and then the member [weak_this_] is destroyed. *)
Definition run_destructor (p : nat) : M unit :=
  o ← load_object p;
  match weak_this_ o with
  | Some w => w' ← EnableSharedFromThis_dtor w; WeakPtr_dtor w'
  | None => mret tt
  end.

(** [delete p]: nothing for [nullptr]. *)
Definition delete_object (p : ptr) : M unit :=
  match p with
  | Some a => run_destructor a;; end_lifetime a (EvDelete a)
  | None => mret tt
  end.

(** [p->~T()]: a call through the pointer. *)
Definition destroy_in_place (p : ptr) : M unit :=
  match p with
  | Some a => run_destructor a;; end_lifetime a (EvDestroyInPlace a)
  | None => undefined
  end.

(** [DecreaseStrongCounter]: virtual; the two overriders differ in how
    the managed object is destroyed. *)
Definition DecreaseStrongCounter (b : nat) : M unit :=
  blk ← load_block b;
  let c := decr (strong_counter_ blk) in
  store_block b (with_strong c blk);;
  if (c =? 0)%Z then
    match dynamic_type blk with
    | PtrControlBlock => delete_object (stored_ptr_ blk)
    | ObjectControlBlock => destroy_in_place (stored_ptr_ blk)
    end;;
    blk1 ← load_block b;
    store_block b (with_stored None blk1);;
    if (weak_counter_ blk1 =? 0)%Z then delete_this b else mret tt
  else mret tt.

(** ** [SharedPtr<T>] ([shared-from-this/shared.h])

    The flag [sot] is the compile-time test
    [std::is_convertible_v<T*, EnableSharedFromThisBase*>] of the
    constructor being instantiated. *)

Definition SharedPtr_default : SharedPtr := mkShared None None.

(** [SharedPtr(std::nullptr_t)]. *)
Definition SharedPtr_null : SharedPtr := mkShared None None.

Definition SetBlockPtr (p : ptr) (this : SharedPtr) : SharedPtr :=
  mkShared p (observed_ptr_ this).
Definition SetObservedPtr (p : ptr) (this : SharedPtr) : SharedPtr :=
  mkShared (base_block_ this) p.

(** [InitWeakThis(e)]: the assignment to [e->weak_this_] of a weak handle: a
    temporary built from [*this], move-assigned into the member of the
    object at [e], then destroyed. *)
Definition InitWeakThis (this : SharedPtr) (e : ptr) : M unit :=
  match e with
  | None => undefined
  | Some a =>
      o ← load_object a;
      match weak_this_ o with
      | None => undefined
      | Some w =>
          tmp ← WeakPtr_from_shared this;
          '(w', tmp') ← WeakPtr_move_assign false w tmp;
          store_object a (mkObject (value o) (Some w'));;
          WeakPtr_dtor tmp'
      end
  end.

(** [explicit SharedPtr(Y* ptr)]. *)
Definition SharedPtr_from_raw (sot : bool) (p : ptr) : M SharedPtr :=
  b ← new_block (mkBlock PtrControlBlock 1 0 p);
  let this := mkShared (Some b) p in
  (if sot then InitWeakThis this (observed_ptr_ this) else mret tt);;
  mret this.

(** [SharedPtr(const SharedPtr&)] and [SharedPtr(const SharedPtr<Y>&)]. *)
Definition SharedPtr_copy (sot : bool) (other : SharedPtr) : M SharedPtr :=
  let this := mkShared (base_block_ other) (observed_ptr_ other) in
  match base_block_ this with
  | Some b => IncreaseStrongCounter b
  | None => mret tt
  end;;
  (if sot then InitWeakThis this (observed_ptr_ this) else mret tt);;
  mret this.

(** [SharedPtr(SharedPtr&&)] and [SharedPtr(SharedPtr<Y>&&)]: returns the
    new handle and the moved-from [other]. *)
Definition SharedPtr_move (sot : bool) (other : SharedPtr)
    : M (SharedPtr * SharedPtr) :=
  let this := mkShared (base_block_ other) (observed_ptr_ other) in
  let other := mkShared None None in
  (if sot then InitWeakThis this (observed_ptr_ this) else mret tt);;
  mret (this, other).

(** Aliasing constructor [SharedPtr(const SharedPtr<Y>& other, T* ptr)]. *)
Definition SharedPtr_alias (sot : bool) (other : SharedPtr) (p : ptr)
    : M SharedPtr :=
  match base_block_ other with
  | Some b => IncreaseStrongCounter b
  | None => mret tt
  end;;
  let this := mkShared (base_block_ other) p in
  (if sot then InitWeakThis this (observed_ptr_ this) else mret tt);;
  mret this.

(** [explicit SharedPtr(const WeakPtr<T>& other)]. *)
Definition SharedPtr_from_weak (other : WeakPtr) : M SharedPtr :=
  expired ← WeakPtr_Expired other;
  if (expired : bool) then throw BadWeakPtr
  else
    let this := mkShared (w_base_block_ other) (w_observed_ptr_ other) in
    match base_block_ this with
    | Some b => IncreaseStrongCounter b
    | None => mret tt
    end;;
    mret this.

(** [operator=(const SharedPtr&)]; [same] is the test [this == &other]. *)
Definition SharedPtr_copy_assign (same : bool) (this other : SharedPtr)
    : M SharedPtr :=
  if same then mret this
  else
    match base_block_ this with
    | Some b => DecreaseStrongCounter b
    | None => mret tt
    end;;
    match base_block_ other with
    | Some b => IncreaseStrongCounter b
    | None => mret tt
    end;;
    mret (mkShared (base_block_ other) (observed_ptr_ other)).

(** [operator=(const SharedPtr<Y>&)]: no self-assignment test. *)
Definition SharedPtr_copy_assign_conv (this other : SharedPtr) : M SharedPtr :=
  match base_block_ this with
  | Some b => DecreaseStrongCounter b
  | None => mret tt
  end;;
  match base_block_ other with
  | Some b => IncreaseStrongCounter b
  | None => mret tt
  end;;
  mret (mkShared (base_block_ other) (observed_ptr_ other)).

(** [operator=(SharedPtr&&)]: returns the new [*this] and the new [other]. *)
Definition SharedPtr_move_assign (same : bool) (this other : SharedPtr)
    : M (SharedPtr * SharedPtr) :=
  if same then mret (this, other)
  else
    match base_block_ this with
    | Some b => DecreaseStrongCounter b
    | None => mret tt
    end;;
    mret (mkShared (base_block_ other) (observed_ptr_ other), mkShared None None).

(** [operator=(SharedPtr<Y>&&)]: no self-assignment test. *)
Definition SharedPtr_move_assign_conv (this other : SharedPtr)
    : M (SharedPtr * SharedPtr) :=
  match base_block_ this with
  | Some b => DecreaseStrongCounter b
  | None => mret tt
  end;;
  mret (mkShared (base_block_ other) (observed_ptr_ other), mkShared None None).

(** [~SharedPtr()]. *)
Definition SharedPtr_dtor (this : SharedPtr) : M unit :=
  match base_block_ this with
  | Some b => DecreaseStrongCounter b
  | None => mret tt
  end.

Definition Reset (this : SharedPtr) : M SharedPtr :=
  match base_block_ this with
  | Some b => DecreaseStrongCounter b
  | None => mret tt
  end;;
  mret (mkShared None None).

(** [Reset(Y* ptr)]: unlike the raw-pointer constructor it never calls
    [InitWeakThis]. *)
Definition Reset_ptr (this : SharedPtr) (p : ptr) : M SharedPtr :=
  match base_block_ this with
  | Some b => DecreaseStrongCounter b
  | None => mret tt
  end;;
  b ← new_block (mkBlock PtrControlBlock 1 0 p);
  mret (mkShared (Some b) p).

Definition Swap (this other : SharedPtr) : SharedPtr * SharedPtr :=
  (mkShared (base_block_ other) (observed_ptr_ other),
   mkShared (base_block_ this) (observed_ptr_ this)).

Definition Get (this : SharedPtr) : ptr := observed_ptr_ this.

(** [operator*]: reads the object behind [observed_ptr_]. *)
Definition deref (this : SharedPtr) : M Z :=
  match observed_ptr_ this with
  | Some a => o ← load_object a; mret (value o)
  | None => undefined
  end.

Definition UseCount (this : SharedPtr) : M Z :=
  match base_block_ this with
  | Some b => GetStrongCounter b
  | None => mret 0%Z
  end.

(** [explicit operator bool()]. *)
Definition to_bool (this : SharedPtr) : bool :=
  match observed_ptr_ this with
  | Some _ => true
  | None => false
  end.

(** [operator==] on two handles compares the observed pointers. *)
Definition SharedPtr_eqb (left right : SharedPtr) : bool :=
  bool_decide (Get left = Get right).

(** [WeakPtr<T>::Lock()].  An expired handle returns a value-initialised
    handle.  Otherwise the local [return_ptr] is filled in and returned
    by name: the result is move-constructed from it, which for a
    self-observing [T] (flag [sot]) calls [InitWeakThis], and the local,
    now empty, is destroyed. *)
Definition WeakPtr_Lock (sot : bool) (this : WeakPtr) : M SharedPtr :=
  expired ← WeakPtr_Expired this;
  if (expired : bool) then mret SharedPtr_default
  else
    let return_ptr := SharedPtr_default in
    match w_base_block_ this with
    | Some b => IncreaseStrongCounter b
    | None => undefined
    end;;
    let return_ptr := SetBlockPtr (w_base_block_ this) return_ptr in
    let return_ptr := SetObservedPtr (w_observed_ptr_ this) return_ptr in
    '(result, return_ptr) ← SharedPtr_move sot return_ptr;
    SharedPtr_dtor return_ptr;;
    mret result.

(** [MakeShared<T>(args...)]: one allocation holds the block and the
    object; the object is built in the block's buffer from the payload
    [v], with a default-constructed [weak_this_] when [T] is
    self-observing.  The local [return_ptr] is the returned object (no
    move construction on return). *)
Definition MakeShared (sot : bool) (v : Z) : M SharedPtr :=
  let return_ptr := SharedPtr_default in
  object_block_ptr ← new_block (mkBlock ObjectControlBlock 1 0 None);
  buffer_ptr ← construct_in_place
                 (mkObject v (if sot then Some WeakPtr_default else None));
  blk ← load_block object_block_ptr;
  store_block object_block_ptr (with_stored (Some buffer_ptr) blk);;
  let return_ptr := SetObservedPtr (Some buffer_ptr) return_ptr in
  let return_ptr := SetBlockPtr (Some object_block_ptr) return_ptr in
  (if sot then InitWeakThis return_ptr (Some buffer_ptr) else mret tt);;
  mret return_ptr.

(** [SharedPtr<T>(new T(args...))]: the object is allocated on its own
    and then handed to the raw-pointer constructor. *)
Definition new_T (sot : bool) (v : Z) : M nat :=
  new_object (mkObject v (if sot then Some WeakPtr_default else None)).

Definition SharedPtr_new (sot : bool) (v : Z) : M SharedPtr :=
  p ← new_T sot v;
  SharedPtr_from_raw sot (Some p).

(** ** [EnableSharedFromThis<T>]; [this] is the address of the object.

    [T] is the class that derives from [EnableSharedFromThis<T>], so the
    handle type [SharedPtr<T>] that [Lock()] returns is self-observing. *)

Definition SharedFromThis (this : nat) : M SharedPtr :=
  o ← load_object this;
  match weak_this_ o with
  | Some w => WeakPtr_Lock true w
  | None => undefined
  end.

(** [WeakFromThis()] returns a copy of the member. *)
Definition WeakFromThis (this : nat) : M WeakPtr :=
  o ← load_object this;
  match weak_this_ o with
  | Some w => WeakPtr_copy w
  | None => undefined
  end.

(** ** The intrusive counter ([intrusive/intrusive.h]) *)

Module Intrusive.

Record SimpleCounter := mkCounter { count_ : Z }.

(** Each member returns the updated counter and the value returned. *)
Definition SimpleCounter_IncRef (c : SimpleCounter) : SimpleCounter * Z :=
  let c := mkCounter (incr (count_ c)) in (c, count_ c).

Definition SimpleCounter_DecRef (c : SimpleCounter) : SimpleCounter * Z :=
  let c := mkCounter (decr (count_ c)) in (c, count_ c).

Definition SimpleCounter_RefCount (c : SimpleCounter) : Z := count_ c.

Record RefCounted := mkRefCounted { counter_ : SimpleCounter }.

(** What a call of [RefCounted::DecRef] does besides reading the
    counter: calls of [counter_.DecRef()] and of [Deleter::Destroy]. *)
Inductive Action := CounterDecRef | Destroy.

#[global] Instance Action_eq_dec : EqDecision Action.
Proof. solve_decision. Defined.

Definition IncRef (this : RefCounted) : RefCounted :=
  mkRefCounted (SimpleCounter_IncRef (counter_ this)).1.

(** Returns the object as it is when the function ends (as it was
    handed to [Destroy], when that was called) and the calls made. *)
Definition DecRef (this : RefCounted) : RefCounted * list Action :=
  if (SimpleCounter_RefCount (counter_ this) =? 0)%Z then
    (this, [Destroy])
  else
    let this := mkRefCounted (SimpleCounter_DecRef (counter_ this)).1 in
    if (SimpleCounter_RefCount (counter_ this) =? 0)%Z then
      (this, [CounterDecRef; Destroy])
    else
      (this, [CounterDecRef]).

Definition RefCount (this : RefCounted) : Z :=
  SimpleCounter_RefCount (counter_ this).

Definition decrements (l : list Action) : nat :=
  length (filter (λ a, a = CounterDecRef) l).

Definition destroyed (l : list Action) : bool :=
  bool_decide (Destroy ∈ l).

(** [IntrusivePtr<T>].  The counted objects live in a map keyed by their
    address; a call through a pointer to no object has no outcome. *)
Record IntrusivePtr := mkIntrusive { ptr_object_ : ptr }.

(** [p->DecRef()] on the object at [p]; [Destroy] deletes it. *)
Definition object_DecRef (p : nat) (h : gmap nat RefCounted)
    : option (gmap nat RefCounted) :=
  this ← h !! p;
  let '(this', acts) := DecRef this in
  Some (if destroyed acts then delete p h else <[p := this']> h).

(** [Reset(T* ptr)]: releases the current object and stores [ptr]; the
    new object's counter is not incremented. *)
Definition IntrusivePtr_Reset_ptr (this : IntrusivePtr) (p : ptr)
    (h : gmap nat RefCounted) : option (IntrusivePtr * gmap nat RefCounted) :=
  h' ← match ptr_object_ this with
        | Some a => object_DecRef a h
        | None => Some h
        end;
  Some (mkIntrusive p, h').

(** [~IntrusivePtr()]. *)
Definition IntrusivePtr_dtor (this : IntrusivePtr) (h : gmap nat RefCounted)
    : option (gmap nat RefCounted) :=
  match ptr_object_ this with
  | Some a => object_DecRef a h
  | None => Some h
  end.

(** [p->IncRef()] and [p->RefCount()] on the object at [p]. *)
Definition object_IncRef (p : nat) (h : gmap nat RefCounted)
    : option (gmap nat RefCounted) :=
  this ← h !! p;
  Some (<[p := IncRef this]> h).

Definition object_RefCount (p : nat) (h : gmap nat RefCounted) : option Z :=
  this ← h !! p;
  Some (RefCount this).

(** [IntrusivePtr()] and [IntrusivePtr(std::nullptr_t)]. *)
Definition IntrusivePtr_default : IntrusivePtr := mkIntrusive None.

(** [IntrusivePtr(T* ptr)]: [IncRef] is called through [ptr] with no null
    test. *)
Definition IntrusivePtr_from_raw (p : ptr) (h : gmap nat RefCounted)
    : option (IntrusivePtr * gmap nat RefCounted) :=
  let this := mkIntrusive p in
  h' ← match ptr_object_ this with
        | Some a => object_IncRef a h
        | None => None
        end;
  Some (this, h').

(** [IntrusivePtr(const IntrusivePtr&)] and its converting form. *)
Definition IntrusivePtr_copy (other : IntrusivePtr) (h : gmap nat RefCounted)
    : option (IntrusivePtr * gmap nat RefCounted) :=
  let this := mkIntrusive (ptr_object_ other) in
  h' ← match ptr_object_ this with
        | Some a => object_IncRef a h
        | None => Some h
        end;
  Some (this, h').

(** [IntrusivePtr(IntrusivePtr&&)] and its converting form: returns the
    new handle and the moved-from [other]. *)
Definition IntrusivePtr_move (other : IntrusivePtr) : IntrusivePtr * IntrusivePtr :=
  (mkIntrusive (ptr_object_ other), mkIntrusive None).

(** [operator==] compares the stored pointers. *)
Definition IntrusivePtr_eqb (this other : IntrusivePtr) : bool :=
  bool_decide (ptr_object_ this = ptr_object_ other).

(** [operator=(const IntrusivePtr&)]: guarded by the test
    [*this != other] on the stored pointers. *)
Definition IntrusivePtr_copy_assign (this other : IntrusivePtr)
    (h : gmap nat RefCounted) : option (IntrusivePtr * gmap nat RefCounted) :=
  if negb (IntrusivePtr_eqb this other) then
    h1 ← match ptr_object_ this with
          | Some a => object_DecRef a h
          | None => Some h
          end;
    let this := mkIntrusive (ptr_object_ other) in
    h2 ← match ptr_object_ this with
          | Some a => object_IncRef a h1
          | None => Some h1
          end;
    Some (this, h2)
  else Some (this, h).

(** [operator=(IntrusivePtr&&)]: returns the new [*this] and the new
    [other]. *)
Definition IntrusivePtr_move_assign (this other : IntrusivePtr)
    (h : gmap nat RefCounted)
    : option (IntrusivePtr * IntrusivePtr * gmap nat RefCounted) :=
  if negb (IntrusivePtr_eqb this other) then
    h1 ← match ptr_object_ this with
          | Some a => object_DecRef a h
          | None => Some h
          end;
    Some (mkIntrusive (ptr_object_ other), mkIntrusive None, h1)
  else Some (this, other, h).

Definition IntrusivePtr_Reset (this : IntrusivePtr) (h : gmap nat RefCounted)
    : option (IntrusivePtr * gmap nat RefCounted) :=
  h' ← match ptr_object_ this with
        | Some a => object_DecRef a h
        | None => Some h
        end;
  Some (mkIntrusive None, h').

Definition IntrusivePtr_Swap (this other : IntrusivePtr)
    : IntrusivePtr * IntrusivePtr :=
  (mkIntrusive (ptr_object_ other), mkIntrusive (ptr_object_ this)).

Definition IntrusivePtr_Get (this : IntrusivePtr) : ptr := ptr_object_ this.

Definition IntrusivePtr_UseCount (this : IntrusivePtr) (h : gmap nat RefCounted)
    : option Z :=
  match ptr_object_ this with
  | Some a => object_RefCount a h
  | None => Some 0%Z
  end.

(** [explicit operator bool()]. *)
Definition IntrusivePtr_to_bool (this : IntrusivePtr) : bool :=
  match ptr_object_ this with
  | Some _ => true
  | None => false
  end.

(** [new T(args...)]: the counter member of the new object starts at 0. *)
Definition new_RefCounted (h : gmap nat RefCounted) : nat * gmap nat RefCounted :=
  let p := fresh (dom h) in
  (p, <[p := mkRefCounted (mkCounter 0)]> h).

(** [MakeIntrusive<T>(args...)]. *)
Definition MakeIntrusive (h : gmap nat RefCounted)
    : option (IntrusivePtr * gmap nat RefCounted) :=
  let '(p, h1) := new_RefCounted h in
  IntrusivePtr_from_raw (Some p) h1.

(** *** Programs over named intrusive handles *)

Inductive IOp :=
| IFromRaw (src dst : nat)      (* IntrusivePtr<T> dst(src.Get());       *)
| ICopy (src dst : nat)         (* IntrusivePtr<T> dst(src);             *)
| IMove (src dst : nat)         (* IntrusivePtr<T> dst(std::move(src));  *)
| ICopyAssign (dst src : nat)   (* dst = src;                            *)
| IMoveAssign (dst src : nat)   (* dst = std::move(src);                 *)
| IReset (k : nat)              (* k.Reset();                            *)
| ISwap (a b : nat)             (* a.Swap(b);                            *)
| IDestroy (k : nat).           (* k goes out of scope                   *)

Definition IState : Type := gmap nat IntrusivePtr * gmap nat RefCounted.

Definition iexec (op : IOp) (st : IState) : option IState :=
  let '(hs, h) := st in
  match op with
  | IFromRaw src dst =>
      match hs !! src, hs !! dst with
      | Some other, None =>
          '(this, h') ← IntrusivePtr_from_raw (IntrusivePtr_Get other) h;
          Some (<[dst := this]> hs, h')
      | _, _ => None
      end
  | ICopy src dst =>
      match hs !! src, hs !! dst with
      | Some other, None =>
          '(this, h') ← IntrusivePtr_copy other h;
          Some (<[dst := this]> hs, h')
      | _, _ => None
      end
  | IMove src dst =>
      match hs !! src, hs !! dst with
      | Some other, None =>
          let '(this, other') := IntrusivePtr_move other in
          Some (<[dst := this]> (<[src := other']> hs), h)
      | _, _ => None
      end
  | ICopyAssign dst src =>
      match hs !! dst, hs !! src with
      | Some this, Some other =>
          '(this', h') ← IntrusivePtr_copy_assign this other h;
          Some (<[dst := this']> hs, h')
      | _, _ => None
      end
  | IMoveAssign dst src =>
      match hs !! dst, hs !! src with
      | Some this, Some other =>
          '(this', other', h') ← IntrusivePtr_move_assign this other h;
          Some (<[dst := this']> (<[src := other']> hs), h')
      | _, _ => None
      end
  | IReset k =>
      match hs !! k with
      | Some this =>
          '(this', h') ← IntrusivePtr_Reset this h;
          Some (<[k := this']> hs, h')
      | None => None
      end
  | ISwap a b =>
      match hs !! a, hs !! b with
      | Some this, Some other =>
          let '(this', other') := IntrusivePtr_Swap this other in
          Some (<[a := this']> (<[b := other']> hs), h)
      | _, _ => None
      end
  | IDestroy k =>
      match hs !! k with
      | Some this =>
          h' ← IntrusivePtr_dtor this h;
          Some (delete k hs, h')
      | None => None
      end
  end.

Fixpoint irun (ops : list IOp) (st : IState) : option IState :=
  match ops with
  | [] => Some st
  | op :: rest => st' ← iexec op st; irun rest st'
  end.

(** The handle variables after a statement, as the interface describes
    them. *)
Definition ispec_step (op : IOp) (hs : gmap nat IntrusivePtr)
    : gmap nat IntrusivePtr :=
  match op with
  | IFromRaw src dst | ICopy src dst =>
      match hs !! src with
      | Some s => <[dst := s]> hs
      | None => hs
      end
  | IMove src dst =>
      match hs !! src with
      | Some s => <[dst := s]> (<[src := mkIntrusive None]> hs)
      | None => hs
      end
  | ICopyAssign dst src =>
      match hs !! src with
      | Some s => <[dst := s]> hs
      | None => hs
      end
  | IMoveAssign dst src =>
      match hs !! dst, hs !! src with
      | Some d, Some s =>
          if IntrusivePtr_eqb d s then hs
          else <[dst := s]> (<[src := mkIntrusive None]> hs)
      | _, _ => hs
      end
  | IReset k => <[k := mkIntrusive None]> hs
  | ISwap a b =>
      match hs !! a, hs !! b with
      | Some x, Some y => <[a := y]> (<[b := x]> hs)
      | _, _ => hs
      end
  | IDestroy k => delete k hs
  end.

Definition ispec_run (ops : list IOp) (hs : gmap nat IntrusivePtr)
    : gmap nat IntrusivePtr :=
  foldl (λ hs op, ispec_step op hs) hs ops.

(** A statement names variables in scope, declares a new one, and hands
    [IntrusivePtr(T* ptr)] a pointer that is not null. *)
Definition iop_ok (hs : gmap nat IntrusivePtr) (op : IOp) : bool :=
  match op with
  | IFromRaw src dst =>
      match hs !! src, hs !! dst with
      | Some s, None => IntrusivePtr_to_bool s
      | _, _ => false
      end
  | ICopy src dst | IMove src dst =>
      match hs !! src, hs !! dst with
      | Some _, None => true
      | _, _ => false
      end
  | ICopyAssign a b | IMoveAssign a b | ISwap a b =>
      match hs !! a, hs !! b with
      | Some _, Some _ => true
      | _, _ => false
      end
  | IReset k | IDestroy k =>
      match hs !! k with
      | Some _ => true
      | None => false
      end
  end.

Fixpoint iops_ok (hs : gmap nat IntrusivePtr) (ops : list IOp) : bool :=
  match ops with
  | [] => true
  | op :: rest => iop_ok hs op && iops_ok (ispec_step op hs) rest
  end.

(** The number of handle variables that point to the object at [p]. *)
Definition points_to (p : nat) (x : IntrusivePtr) : bool :=
  bool_decide (ptr_object_ x = Some p).

Definition holders (p : nat) (hs : gmap nat IntrusivePtr) : nat :=
  size (filter (λ kx, points_to p kx.2 = true) hs).

Definition iweight (p : nat) (x : IntrusivePtr) : nat :=
  if points_to p x then 1 else 0.

(** An object with [n] holders: gone when [n = 0], and otherwise counting
    [n]. *)
Definition counted (n : nat) : option RefCounted :=
  match n with
  | 0 => None
  | S _ => Some (mkRefCounted (mkCounter (Z.of_nat n)))
  end.

(** The counters are exact: an object is allocated exactly while some
    handle points to it, and its counter is the number of those
    handles. *)
Definition counts_exact (hs : gmap nat IntrusivePtr) (h : gmap nat RefCounted)
    : Prop :=
  ∀ p, h !! p = counted (holders p hs).

(** One object held by one handle, and a program on it. *)
Definition intrusive_demo_handles : gmap nat IntrusivePtr :=
  {[ 0 := mkIntrusive (Some 0) ]}.
Definition intrusive_demo_heap : gmap nat RefCounted :=
  {[ 0 := mkRefCounted (mkCounter 1) ]}.
Definition intrusive_demo_ops : list IOp :=
  [ICopy 0 1; IFromRaw 1 3; IMove 0 2; ICopyAssign 0 2; ISwap 0 1;
   IMoveAssign 1 3; IDestroy 0; IReset 1; IDestroy 2; IDestroy 1; IDestroy 3].

End Intrusive.

(** ** [UniquePtr<T, Deleter>] ([unique/unique.h], [unique/compressed_pair.h])

    A [CompressedPair] holds one value of each type, as a member or as an
    empty base; its specializations differ in layout only.  What a
    deleter does when it is called belongs to the deleter
    ([deleters.h] is not among the sources); a member function of
    [UniquePtr] returns, beside the new handle, the deleter calls it
    makes, in order. *)

Module Unique.

Record CompressedPair (F S : Type) := mkPair { first_ : F; second_ : S }.
Arguments mkPair {F S} first_ second_.
Arguments first_ {F S} c.
Arguments second_ {F S} c.

Definition GetFirst {F S} (c : CompressedPair F S) : F := first_ c.
Definition GetSecond {F S} (c : CompressedPair F S) : S := second_ c.

(** A deleter type: its default constructor, the state a deleter is
    left in when it is moved from, and the state it is left in when it
    is move-assigned to itself. *)
Class Deleter (D : Type) := {
  construct : D;
  moved_from : D → D;
  self_moved : D → D
}.

(** [DefaultDeleter<T>] has no state; its move operations do nothing. *)
Inductive DefaultDeleter := mkDefaultDeleter.

#[global] Instance DefaultDeleter_Deleter : Deleter DefaultDeleter :=
  {| construct := mkDefaultDeleter; moved_from d := d; self_moved d := d |}.

Record UniquePtr (D : Type) := mkUnique {
  compressed_pair_ : CompressedPair ptr D
}.
Arguments mkUnique {D} compressed_pair_.
Arguments compressed_pair_ {D} u.

(** A call [deleter(p)]. *)
Definition Call (D : Type) : Type := D * nat.

Section Members.
Context {D : Type} `{!Deleter D}.

(** [explicit UniquePtr(T* ptr = nullptr)]. *)
Definition UniquePtr_from_raw (p : ptr) : UniquePtr D :=
  mkUnique (mkPair p construct).

(** [UniquePtr(T* ptr, const Deleter& deleter)] and its rvalue form. *)
Definition UniquePtr_with_deleter (p : ptr) (deleter : D) : UniquePtr D :=
  mkUnique (mkPair p deleter).

Definition Get (this : UniquePtr D) : ptr := GetFirst (compressed_pair_ this).

Definition GetDeleter (this : UniquePtr D) : D :=
  GetSecond (compressed_pair_ this).

(** [explicit operator bool()]. *)
Definition to_bool (this : UniquePtr D) : bool :=
  match GetFirst (compressed_pair_ this) with
  | Some _ => true
  | None => false
  end.

(** [Release()]: returns the pointer and the new [*this]. *)
Definition Release (this : UniquePtr D) : ptr * UniquePtr D :=
  let temp := GetFirst (compressed_pair_ this) in
  (temp, mkUnique (mkPair None (GetSecond (compressed_pair_ this)))).

(** [Reset(T* ptr = nullptr)]: returns the new [*this] and the calls
    made. *)
Definition Reset (this : UniquePtr D) (p : ptr) : UniquePtr D * list (Call D) :=
  let temp := GetFirst (compressed_pair_ this) in
  let this := mkUnique (mkPair p (GetSecond (compressed_pair_ this))) in
  match temp with
  | Some a => (this, [(GetSecond (compressed_pair_ this), a)])
  | None => (this, [])
  end.

(** [~UniquePtr()]. *)
Definition UniquePtr_dtor (this : UniquePtr D) : list (Call D) :=
  (Reset this None).2.

(** [operator=(std::nullptr_t)]. *)
Definition UniquePtr_assign_null (this : UniquePtr D)
    : UniquePtr D * list (Call D) :=
  Reset this None.

(** [UniquePtr(UniquePtr<K, OtherDeleter>&& other)]: returns the new
    handle and the moved-from [other]. *)
Definition UniquePtr_move (other : UniquePtr D) : UniquePtr D * UniquePtr D :=
  let '(temp, other) := Release other in
  (mkUnique (mkPair temp (GetDeleter other)),
   mkUnique (mkPair (Get other) (moved_from (GetDeleter other)))).

(** [Swap]: exchanges the two pairs. *)
Definition Swap (this other : UniquePtr D) : UniquePtr D * UniquePtr D :=
  (mkUnique (compressed_pair_ other), mkUnique (compressed_pair_ this)).

(** *** Programs over named unique handles

    The variables live in a store, so that a statement naming one
    variable twice acts on one object.  [raw] collects the pointers that
    [Release()] handed back to the caller, [calls] the deleter calls
    made so far, latest first. *)

Record UState := mkUState {
  vars : gmap nat (UniquePtr D);
  raw : list nat;
  calls : list (Call D)
}.

Inductive UOp :=
| UMove (src dst : nat)         (* UniquePtr<T, D> dst(std::move(src));  *)
| UMoveAssign (dst src : nat)   (* dst = std::move(src);                 *)
| UAssignNull (k : nat)         (* k = nullptr;                          *)
| UReset (k : nat)              (* k.Reset();                            *)
| USwap (a b : nat)             (* a.Swap(b);                            *)
| URelease (k : nat)            (* T* r = k.Release();                   *)
| UDestroy (k : nat).           (* k goes out of scope                   *)

Definition set_vars (f : gmap nat (UniquePtr D) → gmap nat (UniquePtr D))
    (st : UState) : UState :=
  mkUState (f (vars st)) (raw st) (calls st).

Definition make_calls (cs : list (Call D)) (st : UState) : UState :=
  mkUState (vars st) (raw st) (rev cs ++ calls st).

Definition keep_raw (p : ptr) (st : UState) : UState :=
  mkUState (vars st)
    (match p with Some a => a :: raw st | None => raw st end) (calls st).

(** [dst = std::move(src)], statement by statement on the store:
    [Reset(other.Release())], then the move assignment of the deleter of
    [dst] from the deleter of [src].  When [dst] and [src] name one
    variable, that is the assignment of one deleter to itself, whose
    outcome is the deleter's own ([self_moved]). *)
Definition move_assign (dst src : nat) (st : UState) : option UState :=
  other ← vars st !! src;
  let '(temp, other) := Release other in
  let st := set_vars (insert src other) st in
  this ← vars st !! dst;
  let '(this, cs) := Reset this temp in
  let st := make_calls cs (set_vars (insert dst this) st) in
  if bool_decide (dst = src) then
    this ← vars st !! dst;
    Some (set_vars
            (insert dst (mkUnique (mkPair (Get this) (self_moved (GetDeleter this)))))
            st)
  else
    other ← vars st !! src;
    let deleter := GetDeleter other in
    let st := set_vars (insert src (mkUnique (mkPair (Get other) (moved_from deleter)))) st in
    this ← vars st !! dst;
    Some (set_vars (insert dst (mkUnique (mkPair (Get this) deleter))) st).

Definition uexec (op : UOp) (st : UState) : option UState :=
  match op with
  | UMove src dst =>
      match vars st !! src, vars st !! dst with
      | Some other, None =>
          let '(this, other) := UniquePtr_move other in
          Some (set_vars (insert dst this) (set_vars (insert src other) st))
      | _, _ => None
      end
  | UMoveAssign dst src =>
      match vars st !! dst, vars st !! src with
      | Some _, Some _ => move_assign dst src st
      | _, _ => None
      end
  | UAssignNull k =>
      this ← vars st !! k;
      let '(this, cs) := UniquePtr_assign_null this in
      Some (make_calls cs (set_vars (insert k this) st))
  | UReset k =>
      this ← vars st !! k;
      let '(this, cs) := Reset this None in
      Some (make_calls cs (set_vars (insert k this) st))
  | USwap a b =>
      match vars st !! a, vars st !! b with
      | Some this, Some other =>
          let '(this, other) := Swap this other in
          Some (set_vars (insert a this) (set_vars (insert b other) st))
      | _, _ => None
      end
  | URelease k =>
      this ← vars st !! k;
      let '(temp, this) := Release this in
      Some (keep_raw temp (set_vars (insert k this) st))
  | UDestroy k =>
      this ← vars st !! k;
      Some (make_calls (UniquePtr_dtor this) (set_vars (delete k) st))
  end.

Fixpoint urun (ops : list UOp) (st : UState) : option UState :=
  match ops with
  | [] => Some st
  | op :: rest => st' ← uexec op st; urun rest st'
  end.

(** A statement names variables in scope and declares a new one. *)
Definition uop_ok (names : gset nat) (op : UOp) : bool :=
  match op with
  | UMove src dst => bool_decide (src ∈ names) && bool_decide (dst ∉ names)
  | UMoveAssign a b | USwap a b =>
      bool_decide (a ∈ names) && bool_decide (b ∈ names)
  | UAssignNull k | UReset k | URelease k | UDestroy k =>
      bool_decide (k ∈ names)
  end.

Definition uscope_step (op : UOp) (names : gset nat) : gset nat :=
  match op with
  | UMove _ dst => {[dst]} ∪ names
  | UDestroy k => names ∖ {[k]}
  | _ => names
  end.

Fixpoint uops_ok (names : gset nat) (ops : list UOp) : bool :=
  match ops with
  | [] => true
  | op :: rest => uop_ok names op && uops_ok (uscope_step op names) rest
  end.

(** The pointers that the handles of a store own, each with the deleter
    it is paired with. *)
Definition pair_of (u : UniquePtr D) : option (nat * D) :=
  match Get u with
  | Some a => Some (a, GetDeleter u)
  | None => None
  end.

Definition pairs (hs : gmap nat (UniquePtr D)) : list (nat * D) :=
  omap (λ ku, pair_of ku.2) (map_to_list hs).

Definition owned (hs : gmap nat (UniquePtr D)) : list nat := (pairs hs).*1.

Definition deleted (cs : list (Call D)) : list nat := cs.*2.

(** The deleters that [d0] can become when its handle is move-assigned
    to itself, any number of times. *)
Definition aged (d0 d : D) : Prop := ∃ n, d = Nat.iter n self_moved d0.

(** From [st] to [st'] every owned pointer is accounted for: it is still
    owned, or it was released, or it was passed to a deleter; and the
    deleter a pointer is held with or was passed to is the one it was
    paired with in [st], as self-assignments have left it. *)
Definition conserved (st st' : UState) : Prop :=
  ∃ (rel : list nat) (cs : list (Call D)),
    raw st' = rel ++ raw st ∧
    calls st' = cs ++ calls st ∧
    owned (vars st) ≡ₚ owned (vars st') ++ rel ++ deleted cs ∧
    ∀ p d, (p, d) ∈ pairs (vars st') ++ (prod_swap <$> cs) →
           ∃ d0, (p, d0) ∈ pairs (vars st) ∧ aged d0 d.

End Members.

Arguments UState D : clear implicits.

(** What [DefaultDeleter<T>::operator()] does: [delete p].  Deleting an
    object that is not allocated is undefined. *)
Definition DefaultDeleter_call (p : nat) (h : gmap nat Z) : option (gmap nat Z) :=
  match h !! p with
  | Some _ => Some (delete p h)
  | None => None
  end.

(** The calls of a log, earliest first, applied to a heap. *)
Definition apply_calls (cs : list (Call DefaultDeleter)) (h : gmap nat Z)
    : option (gmap nat Z) :=
  foldr (λ c acc, h' ← acc; DefaultDeleter_call c.2 h') (Some h) cs.

(** Three handles with default deleters that own the objects at 10, 11
    and 12, and a program on them. *)
Definition unique_demo : UState DefaultDeleter :=
  mkUState {[ 0 := UniquePtr_from_raw (Some 10);
              1 := UniquePtr_from_raw (Some 11);
              2 := UniquePtr_from_raw (Some 12) ]} [] [].
Definition unique_demo_heap : gmap nat Z :=
  {[ 10 := 7%Z; 11 := 8%Z; 12 := 9%Z ]}.
Definition unique_demo_ops : list UOp :=
  [UMove 0 3; UMoveAssign 1 3; UMoveAssign 1 1; USwap 0 1; URelease 2;
   UReset 0; UDestroy 1; UDestroy 2; UDestroy 3; UDestroy 0].

End Unique.

(** ** Programs over named strong handles

    A program is a sequence of statements on handle variables, named by
    numbers; the variables in scope and their values are a finite map.
    A statement that names a variable out of scope, or declares one that
    is already in scope, is not a program and is given no meaning.  A
    constructor statement carries the flag [sot] of the handle type it
    instantiates. *)

Inductive Op :=
| OpCopy (sot : bool) (src dst : nat)   (* SharedPtr<T> dst(src);            *)
| OpMove (sot : bool) (src dst : nat)   (* SharedPtr<T> dst(std::move(src)); *)
| OpAlias (sot : bool) (src dst : nat) (p : ptr)
                                        (* SharedPtr<T> dst(src, p);         *)
| OpCopyAssign (dst src : nat)          (* dst = src;                        *)
| OpMoveAssign (dst src : nat)          (* dst = std::move(src);             *)
| OpReset (h : nat)                     (* h.Reset();                        *)
| OpDestroy (h : nat).                  (* h goes out of scope               *)

Definition exec (op : Op) (hs : gmap nat SharedPtr)
    : M (gmap nat SharedPtr) :=
  match op with
  | OpCopy sot src dst =>
      match hs !! src, hs !! dst with
      | Some other, None =>
          this ← SharedPtr_copy sot other;
          mret (<[dst := this]> hs)
      | _, _ => undefined
      end
  | OpMove sot src dst =>
      match hs !! src, hs !! dst with
      | Some other, None =>
          '(this, other') ← SharedPtr_move sot other;
          mret (<[dst := this]> (<[src := other']> hs))
      | _, _ => undefined
      end
  | OpAlias sot src dst p =>
      match hs !! src, hs !! dst with
      | Some other, None =>
          this ← SharedPtr_alias sot other p;
          mret (<[dst := this]> hs)
      | _, _ => undefined
      end
  | OpCopyAssign dst src =>
      match hs !! dst, hs !! src with
      | Some this, Some other =>
          this' ← SharedPtr_copy_assign (bool_decide (dst = src)) this other;
          mret (<[dst := this']> hs)
      | _, _ => undefined
      end
  | OpMoveAssign dst src =>
      match hs !! dst, hs !! src with
      | Some this, Some other =>
          '(this', other') ← SharedPtr_move_assign (bool_decide (dst = src)) this other;
          mret (<[dst := this']> (<[src := other']> hs))
      | _, _ => undefined
      end
  | OpReset h =>
      match hs !! h with
      | Some this =>
          this' ← Reset this;
          mret (<[h := this']> hs)
      | None => undefined
      end
  | OpDestroy h =>
      match hs !! h with
      | Some this =>
          SharedPtr_dtor this;;
          mret (delete h hs)
      | None => undefined
      end
  end.

Fixpoint run (ops : list Op) (hs : gmap nat SharedPtr)
    : M (gmap nat SharedPtr) :=
  match ops with
  | [] => mret hs
  | op :: rest => hs' ← exec op hs; run rest hs'
  end.

(** *** The handle variables as the specification describes them

    Copy shares both pointers of the source; move transfers them and
    empties the source; aliasing shares the block and observes the given
    pointer; reset empties; destruction ends the variable. *)
Definition spec_step (op : Op) (hs : gmap nat SharedPtr) : gmap nat SharedPtr :=
  match op with
  | OpCopy _ src dst =>
      match hs !! src with
      | Some s => <[dst := s]> hs
      | None => hs
      end
  | OpMove _ src dst =>
      match hs !! src with
      | Some s => <[dst := s]> (<[src := mkShared None None]> hs)
      | None => hs
      end
  | OpAlias _ src dst p =>
      match hs !! src with
      | Some s => <[dst := mkShared (base_block_ s) p]> hs
      | None => hs
      end
  | OpCopyAssign dst src =>
      match hs !! src with
      | Some s => <[dst := s]> hs
      | None => hs
      end
  | OpMoveAssign dst src =>
      match hs !! src with
      | Some s =>
          if bool_decide (dst = src) then hs
          else <[dst := s]> (<[src := mkShared None None]> hs)
      | None => hs
      end
  | OpReset h => <[h := mkShared None None]> hs
  | OpDestroy h => delete h hs
  end.

Definition spec_run (ops : list Op) (hs : gmap nat SharedPtr)
    : gmap nat SharedPtr :=
  foldl (λ hs op, spec_step op hs) hs ops.

(** The number of live strong handles that reference block [b]. *)
Definition refers_to (b : nat) (h : SharedPtr) : bool :=
  bool_decide (base_block_ h = Some b).

Definition live_count (b : nat) (hs : gmap nat SharedPtr) : nat :=
  size (filter (λ kh, refers_to b kh.2 = true) hs).

(** The number of times the destructor of the object at [p] has run. *)
Definition is_destruction_of (p : nat) (e : Event) : bool :=
  match e with
  | EvDelete q | EvDestroyInPlace q => bool_decide (p = q)
  | EvFreeBlock _ => false
  end.

Definition destructor_runs (p : nat) (t : list Event) : nat :=
  length (filter (λ e, is_destruction_of p e = true) t).

(** *** Statements in scope

    [op_ok] checks that a statement names variables in scope and that
    a constructor of a self-observing handle type, which calls
    [InitWeakThis], is given a pointer to the managed object [o] of
    block [b]; [sot] tells whether the class of that object is
    self-observing. *)
Definition op_ok (sot : bool) (b o : nat) (hs : gmap nat SharedPtr) (op : Op)
    : bool :=
  match op with
  | OpCopy t src dst | OpMove t src dst =>
      match hs !! src, hs !! dst with
      | Some s, None =>
          implb t (sot && bool_decide (s = mkShared (Some b) (Some o)))
      | _, _ => false
      end
  | OpAlias t src dst p =>
      match hs !! src, hs !! dst with
      | Some s, None =>
          implb t (sot && bool_decide (base_block_ s = Some b ∧ p = Some o))
      | _, _ => false
      end
  | OpCopyAssign dst src | OpMoveAssign dst src =>
      match hs !! dst, hs !! src with
      | Some _, Some _ => true
      | _, _ => false
      end
  | OpReset h | OpDestroy h =>
      match hs !! h with
      | Some _ => true
      | None => false
      end
  end.

Fixpoint ops_ok (sot : bool) (b o : nat) (hs : gmap nat SharedPtr)
    (ops : list Op) : bool :=
  match ops with
  | [] => true
  | op :: rest => op_ok sot b o hs op && ops_ok sot b o (spec_step op hs) rest
  end.

(** *** What a caller can observe *)

Definition result {A} (r : Res A) : option A :=
  match r with
  | Ok a _ => Some a
  | _ => None
  end.

Record Observation := mkObservation {
  obs_use_count : option Z;   (* UseCount()      *)
  obs_deref : option Z;       (* operator*       *)
  obs_bool : bool;            (* operator bool   *)
  obs_get : ptr               (* Get()           *)
}.

Definition observe_handle (σ : Heap) (h : SharedPtr) : Observation :=
  mkObservation (result (UseCount h σ)) (result (deref h σ)) (to_bool h) (Get h).

(** Every live handle's observation, and how often the destructor of the
    object at [o] has run. *)
Definition observe (o : nat) (hs : gmap nat SharedPtr) (σ : Heap)
    : gmap nat Observation * nat :=
  (observe_handle σ <$> hs, destructor_runs o (trace σ)).

(** The observations after each statement of a program; [None] marks a
    statement with no defined outcome, after which nothing is observed. *)
Fixpoint run_observing (o : nat) (ops : list Op)
    (hs : gmap nat SharedPtr) (σ : Heap)
    : list (option (gmap nat Observation * nat)) :=
  match ops with
  | [] => []
  | op :: rest =>
      match exec op hs σ with
      | Ok hs' σ' => Some (observe o hs' σ') :: run_observing o rest hs' σ'
      | _ => [None]
      end
  end.

(** ** Vocabulary of the statements *)

(** The event a block of class [cls] emits when it destroys the object
    at [p]. *)
Definition destroy_event (cls : BlockClass) (p : nat) : Event :=
  match cls with
  | PtrControlBlock => EvDelete p
  | ObjectControlBlock => EvDestroyInPlace p
  end.

(** The weak count that block [b] holds once the destructor of object
    [o] has run: one less when [o.weak_this_] is bound to [b] itself. *)
Definition weak_after_teardown (b : nat) (blk : BaseControlBlock) (o : Object)
    : Z :=
  match weak_this_ o with
  | Some w =>
      if bool_decide (w_base_block_ w = Some b) then decr (weak_counter_ blk)
      else weak_counter_ blk
  | None => weak_counter_ blk
  end.

(** The destructor of [o] can run: [o] has no [weak_this_], or it is
    bound to a block that is allocated. *)
Definition teardown_defined (σ : Heap) (o : Object) : Prop :=
  match weak_this_ o with
  | Some w => ∃ bb, w_base_block_ w = Some bb ∧ is_Some (blocks σ !! bb)
  | None => True
  end.

(** A weak handle is empty or points to an allocated block. *)
Definition weak_valid (σ : Heap) (w : WeakPtr) : Prop :=
  match w_base_block_ w with
  | Some b => is_Some (blocks σ !! b)
  | None => True
  end.

(** The strong count a weak handle reads: that of its block, or 0 for an
    empty handle. *)
Definition strong_count_of (σ : Heap) (w : WeakPtr) : Z :=
  match w_base_block_ w with
  | Some b => default 0%Z (strong_counter_ <$> blocks σ !! b)
  | None => 0%Z
  end.

(** The decrement-then-check protocol at starting value [c]: one
    decrement, the counter becomes [c - 1], and the object is destroyed
    exactly when that result is zero. *)
Definition decrement_then_check (c c' : Z) (decs : nat) (destroyed : bool)
    : Prop :=
  decs = 1 ∧ c' = decr c ∧ (destroyed = true ↔ decr c = 0%Z).

Definition DecRef_follows_protocol (this : Intrusive.RefCounted) : Prop :=
  let '(this', acts) := Intrusive.DecRef this in
  decrement_then_check (Intrusive.RefCount this) (Intrusive.RefCount this')
    (Intrusive.decrements acts) (Intrusive.destroyed acts).

(** The empty-state invariant of a strong handle. *)
Definition empty_state_invariant (h : SharedPtr) : Prop :=
  base_block_ h = None → observed_ptr_ h = None.

Definition yields_invariant_handles (m : M SharedPtr) (σ : Heap) : Prop :=
  ∀ h σ', m σ = Ok h σ' → empty_state_invariant h.

(** *** The invariant of a group of handles sharing block [b]

    [b] manages the object at [o] with payload [v]; [sot] tells whether
    its class is self-observing; [r0] is the number of destructor runs
    recorded for address [o] before the object was built and [O] the
    other objects of the heap. *)

Definition weight (b : nat) (h : SharedPtr) : nat :=
  if refers_to b h then 1 else 0.

Definition managed_object (b o : nat) (v : Z) (sot : bool) : Object :=
  mkObject v (if sot then Some (mkWeak (Some b) (Some o)) else None).

(** With [n] live strong handles on [b]: while [n > 0] the block is
    allocated with strong count [n], its weak count is the object's own
    weak edge, and the object is alive and was never destroyed; at
    [n = 0] the object was destroyed once and the block is freed. *)
Definition block_inv (b o : nat) (v : Z) (sot : bool) (r0 : nat)
    (O : gmap nat Object) (n : nat) (σ : Heap) : Prop :=
  delete o (objects σ) = O ∧
  match n with
  | 0 =>
      blocks σ !! b = None ∧ objects σ !! o = None ∧
      destructor_runs o (trace σ) = S r0
  | S _ =>
      (Z.of_nat n < SIZE_MODULUS)%Z ∧
      (∃ cls, blocks σ !! b
              = Some (mkBlock cls (Z.of_nat n) (if sot then 1 else 0) (Some o))) ∧
      objects σ !! o = Some (managed_object b o v sot) ∧
      destructor_runs o (trace σ) = r0
  end.

Definition handles_inv (b : nat) (hs : gmap nat SharedPtr) : Prop :=
  ∀ k h, hs !! k = Some h → base_block_ h = None ∨ base_block_ h = Some b.

Definition group_inv (b o : nat) (v : Z) (sot : bool) (r0 : nat)
    (O : gmap nat Object) (hs : gmap nat SharedPtr) (σ : Heap) : Prop :=
  handles_inv b hs ∧ block_inv b o v sot r0 O (live_count b hs) σ.

(** The addresses the next block and the next object get in heap [σ0],
    and the handle both construction paths return there. *)
Definition first_block (σ0 : Heap) : nat := fresh (dom (blocks σ0)).
Definition first_object (σ0 : Heap) : nat := fresh (dom (objects σ0)).
Definition first_handle (σ0 : Heap) : SharedPtr :=
  mkShared (Some (first_block σ0)) (Some (first_object σ0)).

(** *** Observations as the specification predicts them

    For a group with [n] live handles: [UseCount] is [n] on a handle of
    the group and 0 on an empty one; dereferencing reads the payload [v]
    through a pointer to the managed object while it lives, and the
    untouched rest of the heap otherwise. *)
Definition spec_observe_handle (b o : nat) (v : Z) (O : gmap nat Object)
    (n : nat) (h : SharedPtr) : Observation :=
  mkObservation
    (Some (if refers_to b h then Z.of_nat n else 0%Z))
    (match observed_ptr_ h with
     | Some q =>
         if bool_decide (q = o)
         then match n with 0 => None | S _ => Some v end
         else value <$> O !! q
     | None => None
     end)
    (to_bool h)
    (Get h).

Definition spec_observe (b o : nat) (v : Z) (O : gmap nat Object) (r0 : nat)
    (hs : gmap nat SharedPtr) : gmap nat Observation * nat :=
  let n := live_count b hs in
  (spec_observe_handle b o v O n <$> hs,
   r0 + match n with 0 => 1 | S _ => 0 end).

Fixpoint spec_observations (b o : nat) (v : Z) (O : gmap nat Object) (r0 : nat)
    (ops : list Op) (hs : gmap nat SharedPtr)
    : list (option (gmap nat Observation * nat)) :=
  match ops with
  | [] => []
  | op :: rest =>
      let hs' := spec_step op hs in
      Some (spec_observe b o v O r0 hs') :: spec_observations b o v O r0 rest hs'
  end.

(** *** Concrete heaps and programs used as instances *)

Definition σ_empty : Heap := mkHeap ∅ ∅ [] 0.

(** One separately allocated block with one strong and one weak
    reference, managing a plain object. *)
Definition σ_demo : Heap :=
  mkHeap {[ 0 := mkBlock PtrControlBlock 1 1 (Some 0) ]}
         {[ 0 := mkObject 7 None ]} [] 2.

(** One co-allocated block with one strong and no weak reference,
    managing a plain object. *)
Definition σ_sole : Heap :=
  mkHeap {[ 0 := mkBlock ObjectControlBlock 1 0 (Some 0) ]}
         {[ 0 := mkObject 7 None ]} [] 1.

(** A self-observing object bound to its block, and one never bound. *)
Definition σ_bound : Heap :=
  mkHeap {[ 0 := mkBlock PtrControlBlock 1 1 (Some 0) ]}
         {[ 0 := mkObject 7 (Some (mkWeak (Some 0) (Some 0)));
            1 := mkObject 8 (Some (mkWeak None None)) ]} [] 3.

Definition demo_ops : list Op :=
  [OpCopy true 0 1; OpMove true 0 2; OpDestroy 0; OpReset 1; OpDestroy 2].

(** ** The variant without weak references ([shared/shared.h])

    One counter per control block; an [ObjectControlBlock] holds the
    object as a member, so the object dies with the block.  The file has
    no [WeakPtr], no [EnableSharedFromThis] and throws nothing.  Handles
    have the same two members as above, and so reuse [SharedPtr]; events
    reuse [Event]. *)

Module Plain.

Inductive ControlBlock :=
| PtrControlBlock (counter_ : Z) (control_ptr_ : ptr)
| ObjectControlBlock (counter_ : Z) (control_object_ : nat).
    (* [control_object_] is the address of the member *)

Definition counter (blk : ControlBlock) : Z :=
  match blk with
  | PtrControlBlock c _ | ObjectControlBlock c _ => c
  end.

Definition with_counter (c : Z) (blk : ControlBlock) : ControlBlock :=
  match blk with
  | PtrControlBlock _ p => PtrControlBlock c p
  | ObjectControlBlock _ a => ObjectControlBlock c a
  end.

Record Heap := mkHeap {
  blocks : gmap nat ControlBlock;
  objects : gmap nat Z;
  trace : list Event;
  allocations : nat
}.

(** State and undefined behaviour; [None] is undefined behaviour. *)
Definition M (A : Type) : Type := Heap → option (A * Heap).

Definition ret {A} (a : A) : M A := λ π, Some (a, π).

Definition bind {A B} (m : M A) (k : A → M B) : M B :=
  λ π, match m π with
       | Some (a, π') => k a π'
       | None => None
       end.

Definition undefined {A} : M A := λ _, None.

#[global] Instance M_ret : MRet M := @ret.
#[global] Instance M_bind : MBind M := λ A B k m, bind m k.

Definition set_blocks (f : gmap nat ControlBlock → gmap nat ControlBlock)
    (π : Heap) : Heap :=
  mkHeap (f (blocks π)) (objects π) (trace π) (allocations π).
Definition set_objects (f : gmap nat Z → gmap nat Z) (π : Heap) : Heap :=
  mkHeap (blocks π) (f (objects π)) (trace π) (allocations π).
Definition emit (e : Event) (π : Heap) : Heap :=
  mkHeap (blocks π) (objects π) (e :: trace π) (allocations π).
Definition count_allocation (π : Heap) : Heap :=
  mkHeap (blocks π) (objects π) (trace π) (S (allocations π)).

Definition load_block (b : nat) : M ControlBlock :=
  λ π, match blocks π !! b with
       | Some blk => Some (blk, π)
       | None => None
       end.

Definition store_block (b : nat) (blk : ControlBlock) : M unit :=
  λ π, Some (tt, set_blocks (insert b blk) π).

Definition new_block (blk : ControlBlock) : M nat :=
  λ π, let b := fresh (dom (blocks π)) in
       Some (b, count_allocation (set_blocks (insert b blk) π)).

(** The storage of a block is released. *)
Definition free_block (b : nat) : M unit :=
  λ π, match blocks π !! b with
       | Some _ => Some (tt, emit (EvFreeBlock b) (set_blocks (delete b) π))
       | None => None
       end.

Definition load_object (p : nat) : M Z :=
  λ π, match objects π !! p with
       | Some v => Some (v, π)
       | None => None
       end.

(** [new T(args...)]. *)
Definition new_object (v : Z) : M nat :=
  λ π, let p := fresh (dom (objects π)) in
       Some (p, count_allocation (set_objects (insert p v) π)).

(** The member [control_object_] is built inside the block being
    allocated. *)
Definition construct_member (v : Z) : M nat :=
  λ π, let p := fresh (dom (objects π)) in
       Some (p, set_objects (insert p v) π).

(** The destructor of the object at [p] runs; [e] tells how.  The
    object must be alive. *)
Definition end_lifetime (p : nat) (e : Event) : M unit :=
  λ π, match objects π !! p with
       | Some _ => Some (tt, emit e (set_objects (delete p) π))
       | None => None
       end.

(** [delete control_ptr_]: nothing for [nullptr]. *)
Definition delete_object (p : ptr) : M unit :=
  match p with
  | Some a => end_lifetime a (EvDelete a)
  | None => mret tt
  end.

(** [delete this]: the destructor of the block destroys its members,
    then the storage is released. *)
Definition delete_this (b : nat) (blk : ControlBlock) : M unit :=
  match blk with
  | PtrControlBlock _ _ => free_block b
  | ObjectControlBlock _ a => end_lifetime a (EvDestroyInPlace a);; free_block b
  end.

Definition IncreaseCounter (b : nat) : M unit :=
  blk ← load_block b;
  store_block b (with_counter (incr (counter blk)) blk).

Definition GetCounter (b : nat) : M Z :=
  blk ← load_block b;
  mret (counter blk).

(** [DecreaseCounter]: virtual; a [PtrControlBlock] deletes the object
    and then itself, an [ObjectControlBlock] deletes itself. *)
Definition DecreaseCounter (b : nat) : M unit :=
  blk ← load_block b;
  let c := decr (counter blk) in
  store_block b (with_counter c blk);;
  if (c =? 0)%Z then
    match blk with
    | PtrControlBlock _ p => delete_object p;; delete_this b blk
    | ObjectControlBlock _ _ => delete_this b blk
    end
  else mret tt.

(** [explicit SharedPtr(Y* ptr)]. *)
Definition SharedPtr_from_raw (p : ptr) : M SharedPtr :=
  b ← new_block (PtrControlBlock 1 p);
  mret (mkShared (Some b) p).

(** [SharedPtr(const SharedPtr&)] and [SharedPtr(const SharedPtr<Y>&)]. *)
Definition SharedPtr_copy (other : SharedPtr) : M SharedPtr :=
  let this := mkShared (base_block_ other) (observed_ptr_ other) in
  match base_block_ this with
  | Some b => IncreaseCounter b
  | None => mret tt
  end;;
  mret this.

(** [SharedPtr(SharedPtr&&)] and [SharedPtr(SharedPtr<Y>&&)]. *)
Definition SharedPtr_move (other : SharedPtr) : SharedPtr * SharedPtr :=
  (mkShared (base_block_ other) (observed_ptr_ other), mkShared None None).

(** Aliasing constructor [SharedPtr(const SharedPtr<Y>& other, T* ptr)]. *)
Definition SharedPtr_alias (other : SharedPtr) (p : ptr) : M SharedPtr :=
  match base_block_ other with
  | Some b => IncreaseCounter b
  | None => mret tt
  end;;
  mret (mkShared (base_block_ other) p).

(** [operator=(const SharedPtr&)]; [same] is the test [this == &other]. *)
Definition SharedPtr_copy_assign (same : bool) (this other : SharedPtr)
    : M SharedPtr :=
  if same then mret this
  else
    match base_block_ this with
    | Some b => DecreaseCounter b
    | None => mret tt
    end;;
    match base_block_ other with
    | Some b => IncreaseCounter b
    | None => mret tt
    end;;
    mret (mkShared (base_block_ other) (observed_ptr_ other)).

(** [operator=(const SharedPtr<Y>&)]: no self-assignment test. *)
Definition SharedPtr_copy_assign_conv (this other : SharedPtr) : M SharedPtr :=
  match base_block_ this with
  | Some b => DecreaseCounter b
  | None => mret tt
  end;;
  match base_block_ other with
  | Some b => IncreaseCounter b
  | None => mret tt
  end;;
  mret (mkShared (base_block_ other) (observed_ptr_ other)).

(** [operator=(SharedPtr&&)]. *)
Definition SharedPtr_move_assign (same : bool) (this other : SharedPtr)
    : M (SharedPtr * SharedPtr) :=
  if same then mret (this, other)
  else
    match base_block_ this with
    | Some b => DecreaseCounter b
    | None => mret tt
    end;;
    mret (mkShared (base_block_ other) (observed_ptr_ other), mkShared None None).

(** [operator=(SharedPtr<Y>&&)]: no self-assignment test. *)
Definition SharedPtr_move_assign_conv (this other : SharedPtr)
    : M (SharedPtr * SharedPtr) :=
  match base_block_ this with
  | Some b => DecreaseCounter b
  | None => mret tt
  end;;
  mret (mkShared (base_block_ other) (observed_ptr_ other), mkShared None None).

(** [~SharedPtr()]. *)
Definition SharedPtr_dtor (this : SharedPtr) : M unit :=
  match base_block_ this with
  | Some b => DecreaseCounter b
  | None => mret tt
  end.

Definition Reset (this : SharedPtr) : M SharedPtr :=
  match base_block_ this with
  | Some b => DecreaseCounter b
  | None => mret tt
  end;;
  mret (mkShared None None).

(** [Reset(Y* ptr)]. *)
Definition Reset_ptr (this : SharedPtr) (p : ptr) : M SharedPtr :=
  match base_block_ this with
  | Some b => DecreaseCounter b
  | None => mret tt
  end;;
  b ← new_block (PtrControlBlock 1 p);
  mret (mkShared (Some b) p).

(** [operator*]. *)
Definition deref (this : SharedPtr) : M Z :=
  match observed_ptr_ this with
  | Some a => load_object a
  | None => undefined
  end.

Definition UseCount (this : SharedPtr) : M Z :=
  match base_block_ this with
  | Some b => GetCounter b
  | None => mret 0%Z
  end.

(** [MakeShared<T>(args...)]: one allocation, the block with the object
    inside. *)
Definition MakeShared (v : Z) : M SharedPtr :=
  let return_ptr := SharedPtr_default in
  control_object ← construct_member v;
  object_block_ptr ← new_block (ObjectControlBlock 1 control_object);
  let return_ptr := SetObservedPtr (Some control_object) return_ptr in
  let return_ptr := SetBlockPtr (Some object_block_ptr) return_ptr in
  mret return_ptr.

(** [SharedPtr<T>(new T(args...))]. *)
Definition SharedPtr_new (v : Z) : M SharedPtr :=
  p ← new_object v;
  SharedPtr_from_raw (Some p).

(** The statements of [Op] on this variant; the flag of a constructor
    statement has no meaning here. *)
Definition exec (op : Op) (hs : gmap nat SharedPtr) : M (gmap nat SharedPtr) :=
  match op with
  | OpCopy _ src dst =>
      match hs !! src, hs !! dst with
      | Some other, None =>
          this ← SharedPtr_copy other;
          mret (<[dst := this]> hs)
      | _, _ => undefined
      end
  | OpMove _ src dst =>
      match hs !! src, hs !! dst with
      | Some other, None =>
          let '(this, other') := SharedPtr_move other in
          mret (<[dst := this]> (<[src := other']> hs))
      | _, _ => undefined
      end
  | OpAlias _ src dst p =>
      match hs !! src, hs !! dst with
      | Some other, None =>
          this ← SharedPtr_alias other p;
          mret (<[dst := this]> hs)
      | _, _ => undefined
      end
  | OpCopyAssign dst src =>
      match hs !! dst, hs !! src with
      | Some this, Some other =>
          this' ← SharedPtr_copy_assign (bool_decide (dst = src)) this other;
          mret (<[dst := this']> hs)
      | _, _ => undefined
      end
  | OpMoveAssign dst src =>
      match hs !! dst, hs !! src with
      | Some this, Some other =>
          '(this', other') ← SharedPtr_move_assign (bool_decide (dst = src)) this other;
          mret (<[dst := this']> (<[src := other']> hs))
      | _, _ => undefined
      end
  | OpReset h =>
      match hs !! h with
      | Some this =>
          this' ← Reset this;
          mret (<[h := this']> hs)
      | None => undefined
      end
  | OpDestroy h =>
      match hs !! h with
      | Some this =>
          SharedPtr_dtor this;;
          mret (delete h hs)
      | None => undefined
      end
  end.

Fixpoint run (ops : list Op) (hs : gmap nat SharedPtr) : M (gmap nat SharedPtr) :=
  match ops with
  | [] => mret hs
  | op :: rest => hs' ← exec op hs; run rest hs'
  end.

End Plain.

(** *** The two variants side by side

    [erase] forgets what the variant above adds: the weak counter of a
    block and the member [weak_this_] of an object. *)

Definition erase_block (blk : BaseControlBlock) : Plain.ControlBlock :=
  match dynamic_type blk with
  | PtrControlBlock => Plain.PtrControlBlock (strong_counter_ blk) (stored_ptr_ blk)
  | ObjectControlBlock =>
      Plain.ObjectControlBlock (strong_counter_ blk) (default 0 (stored_ptr_ blk))
  end.

Definition erase (σ : Heap) : Plain.Heap :=
  Plain.mkHeap (erase_block <$> blocks σ) (value <$> objects σ)
    (trace σ) (allocations σ).

Definition erase_res {A} (r : Res A) : option (A * Plain.Heap) :=
  match r with
  | Ok a σ => Some (a, erase σ)
  | _ => None
  end.

(** A heap that uses nothing of what [erase] forgets: no weak
    references, no self-observing objects, and every
    [ObjectControlBlock] holds its object. *)
Definition plain_like (σ : Heap) : Prop :=
  (∀ b blk, blocks σ !! b = Some blk →
     weak_counter_ blk = 0%Z ∧
     (dynamic_type blk = ObjectControlBlock → is_Some (stored_ptr_ blk))) ∧
  (∀ p o, objects σ !! p = Some o → weak_this_ o = None).

(** [pm] does on the erased heap what [m] does, and [m] neither throws
    nor leaves the plain-like heaps. *)
Definition simulates {A} (m : M A) (pm : Plain.M A) : Prop :=
  ∀ σ, plain_like σ →
    pm (erase σ) = erase_res (m σ) ∧
    match m σ with
    | Ok _ σ' => plain_like σ'
    | Throw _ _ => False
    | UB => True
    end.

(** No constructor statement is instantiated at a self-observing type. *)
Definition flag_off (op : Op) : bool :=
  match op with
  | OpCopy t _ _ | OpMove t _ _ | OpAlias t _ _ _ => negb t
  | _ => true
  end.

(** A heap of the plain variant, read as a heap of the variant above. *)
Definition lift_block (blk : Plain.ControlBlock) : BaseControlBlock :=
  match blk with
  | Plain.PtrControlBlock c p => mkBlock PtrControlBlock c 0 p
  | Plain.ObjectControlBlock c a => mkBlock ObjectControlBlock c 0 (Some a)
  end.

Definition lift (π : Plain.Heap) : Heap :=
  mkHeap (lift_block <$> Plain.blocks π) ((λ v, mkObject v None) <$> Plain.objects π)
    (Plain.trace π) (Plain.allocations π).

(** An empty heap of the plain variant and a program on one handle. *)
Definition plain_empty : Plain.Heap := Plain.mkHeap ∅ ∅ [] 0.

Definition plain_demo_ops : list Op :=
  [OpCopy false 0 1; OpMove false 0 2; OpDestroy 0; OpReset 1; OpDestroy 2].

(** ** Weak handles beside strong ones *)

(** *** What a weak handle may change

    Between [σ] and [σ']: no object is created, destroyed or written, no
    destructor runs, nothing is allocated; every block of [σ'] is a block
    of [σ] with at most another weak count; and a block of [σ] that is
    gone in [σ'] had strong count 0. *)
Definition weak_counters_only (σ σ' : Heap) : Prop :=
  objects σ' = objects σ ∧
  allocations σ' = allocations σ ∧
  (∀ p, destructor_runs p (trace σ') = destructor_runs p (trace σ)) ∧
  (∀ b blk', blocks σ' !! b = Some blk' →
     ∃ blk, blocks σ !! b = Some blk ∧ blk' = with_weak (weak_counter_ blk') blk) ∧
  (∀ b blk, blocks σ !! b = Some blk → blocks σ' !! b = None →
     strong_counter_ blk = 0%Z).

(** Every outcome of [m] other than undefined behaviour differs from the
    starting heap in weak counts only. *)
Definition touches_weak_counters_only {A} (m : M A) : Prop :=
  ∀ σ, match m σ with
       | Ok _ σ' | Throw _ σ' => weak_counters_only σ σ'
       | UB => True
       end.

(** Block [b] of class [cls] manages the plain object at [p] with payload
    [v]; [n] strong and [m] weak handles refer to it.  While [n > 0] the
    block holds both counts and the object lives; at [n = 0] the object
    is gone, and the block stays, with a null stored pointer, exactly
    while [m > 0]. *)
Definition lifetime_inv (b p : nat) (cls : BlockClass) (v : Z) (n m : nat)
    (σ : Heap) : Prop :=
  match n, m with
  | 0, 0 => blocks σ !! b = None ∧ objects σ !! p = None
  | 0, S _ =>
      blocks σ !! b = Some (mkBlock cls 0 (Z.of_nat m) None) ∧
      objects σ !! p = None
  | S _, _ =>
      blocks σ !! b = Some (mkBlock cls (Z.of_nat n) (Z.of_nat m) (Some p)) ∧
      objects σ !! p = Some (mkObject v None)
  end.

(** [m] returns normally from [σ]. *)
Definition returns {A} (m : M A) (σ : Heap) : Prop :=
  ∃ a σ', m σ = Ok a σ'.

(** Two strong handles and one weak handle on one block. *)
Definition σ_pair : Heap :=
  mkHeap {[ 0 := mkBlock PtrControlBlock 2 1 (Some 0) ]}
         {[ 0 := mkObject 7 None ]} [] 2.

(** ** Programs over strong and weak handles

    Two kinds of variables, strong and weak, each kind named by numbers of
    its own.  [WStrong] is a statement of [Op] on the strong variables;
    the others declare, assign or destroy weak variables, and [WLock]
    declares a strong variable from a weak one.  The weak handles are
    handles of a plain class [T], the class [wop_ok] asks of the strong
    statements, so [Lock()] is the instance [WeakPtr_Lock false]. *)

Inductive WOp :=
| WStrong (op : Op)
| WDemote (src dst : nat)        (* WeakPtr<T> dst(src);  src strong     *)
| WCopy (src dst : nat)          (* WeakPtr<T> dst(src);  src weak       *)
| WMove (src dst : nat)          (* WeakPtr<T> dst(std::move(src));      *)
| WAssignShared (dst src : nat)  (* dst = src;            src strong     *)
| WCopyAssign (dst src : nat)    (* dst = src;            src weak       *)
| WMoveAssign (dst src : nat)    (* dst = std::move(src);                *)
| WReset (k : nat)               (* k.Reset();                           *)
| WSwap (a b : nat)              (* a.Swap(b);                           *)
| WDestroy (k : nat)             (* k goes out of scope                  *)
| WLock (src dst : nat).         (* SharedPtr<T> dst = src.Lock();       *)

Definition WVars : Type := gmap nat SharedPtr * gmap nat WeakPtr.

Definition wexec (op : WOp) (vs : WVars) : M WVars :=
  let '(hs, ws) := vs in
  match op with
  | WStrong op =>
      hs' ← exec op hs;
      mret (hs', ws)
  | WDemote src dst =>
      match hs !! src, ws !! dst with
      | Some other, None =>
          this ← WeakPtr_from_shared other;
          mret (hs, <[dst := this]> ws)
      | _, _ => undefined
      end
  | WCopy src dst =>
      match ws !! src, ws !! dst with
      | Some other, None =>
          this ← WeakPtr_copy other;
          mret (hs, <[dst := this]> ws)
      | _, _ => undefined
      end
  | WMove src dst =>
      match ws !! src, ws !! dst with
      | Some other, None =>
          let '(this, other') := WeakPtr_move other in
          mret (hs, <[dst := this]> (<[src := other']> ws))
      | _, _ => undefined
      end
  | WAssignShared dst src =>
      match ws !! dst, hs !! src with
      | Some this, Some other =>
          this' ← WeakPtr_assign_shared this other;
          mret (hs, <[dst := this']> ws)
      | _, _ => undefined
      end
  | WCopyAssign dst src =>
      match ws !! dst, ws !! src with
      | Some this, Some other =>
          this' ← WeakPtr_copy_assign (bool_decide (dst = src)) this other;
          mret (hs, <[dst := this']> ws)
      | _, _ => undefined
      end
  | WMoveAssign dst src =>
      match ws !! dst, ws !! src with
      | Some this, Some other =>
          '(this', other') ← WeakPtr_move_assign (bool_decide (dst = src)) this other;
          mret (hs, <[dst := this']> (<[src := other']> ws))
      | _, _ => undefined
      end
  | WReset k =>
      match ws !! k with
      | Some this =>
          this' ← WeakPtr_Reset this;
          mret (hs, <[k := this']> ws)
      | None => undefined
      end
  | WSwap a b =>
      match ws !! a, ws !! b with
      | Some this, Some other =>
          let '(this', other') := WeakPtr_Swap this other in
          mret (hs, <[a := this']> (<[b := other']> ws))
      | _, _ => undefined
      end
  | WDestroy k =>
      match ws !! k with
      | Some this =>
          WeakPtr_dtor this;;
          mret (hs, delete k ws)
      | None => undefined
      end
  | WLock src dst =>
      match ws !! src, hs !! dst with
      | Some other, None =>
          this ← WeakPtr_Lock false other;
          mret (<[dst := this]> hs, ws)
      | _, _ => undefined
      end
  end.

Fixpoint wrun (ops : list WOp) (vs : WVars) : M WVars :=
  match ops with
  | [] => mret vs
  | op :: rest => vs' ← wexec op vs; wrun rest vs'
  end.

(** The number of live weak handles that reference block [b]. *)
Definition wrefers_to (b : nat) (w : WeakPtr) : bool :=
  bool_decide (w_base_block_ w = Some b).

Definition wweight (b : nat) (w : WeakPtr) : nat :=
  if wrefers_to b w then 1 else 0.

Definition weak_count (b : nat) (ws : gmap nat WeakPtr) : nat :=
  size (filter (λ kw, wrefers_to b kw.2 = true) ws).

(** The variables after a statement, as the interface describes them.
    [Lock] on a weak handle of block [b] gives a strong handle sharing
    the block while some strong handle is alive, and an empty handle
    otherwise. *)
Definition wspec_step (b : nat) (op : WOp) (vs : WVars) : WVars :=
  let '(hs, ws) := vs in
  match op with
  | WStrong op => (spec_step op hs, ws)
  | WDemote src dst =>
      match hs !! src with
      | Some s => (hs, <[dst := mkWeak (base_block_ s) (observed_ptr_ s)]> ws)
      | None => vs
      end
  | WCopy src dst =>
      match ws !! src with
      | Some w => (hs, <[dst := w]> ws)
      | None => vs
      end
  | WMove src dst =>
      match ws !! src with
      | Some w => (hs, <[dst := w]> (<[src := mkWeak None None]> ws))
      | None => vs
      end
  | WAssignShared dst src =>
      match hs !! src with
      | Some s => (hs, <[dst := mkWeak (base_block_ s) (observed_ptr_ s)]> ws)
      | None => vs
      end
  | WCopyAssign dst src =>
      match ws !! src with
      | Some w => (hs, <[dst := w]> ws)
      | None => vs
      end
  | WMoveAssign dst src =>
      match ws !! src with
      | Some w =>
          if bool_decide (dst = src) then vs
          else (hs, <[dst := w]> (<[src := mkWeak None None]> ws))
      | None => vs
      end
  | WReset k => (hs, <[k := mkWeak None None]> ws)
  | WSwap x y =>
      match ws !! x, ws !! y with
      | Some wx, Some wy => (hs, <[x := wy]> (<[y := wx]> ws))
      | _, _ => vs
      end
  | WDestroy k => (hs, delete k ws)
  | WLock src dst =>
      match ws !! src with
      | Some w =>
          if wrefers_to b w && negb (live_count b hs =? 0)
          then (<[dst := mkShared (Some b) (w_observed_ptr_ w)]> hs, ws)
          else (<[dst := mkShared None None]> hs, ws)
      | None => vs
      end
  end.

Definition wspec_run (b : nat) (ops : list WOp) (vs : WVars) : WVars :=
  foldl (λ vs op, wspec_step b op vs) vs ops.

(** A statement names variables in scope and declares a new one; a
    statement on strong handles instantiates no constructor at a
    self-observing type. *)
Definition wop_ok (b o : nat) (vs : WVars) (op : WOp) : bool :=
  let '(hs, ws) := vs in
  match op with
  | WStrong op => op_ok false b o hs op
  | WDemote src dst =>
      match hs !! src, ws !! dst with
      | Some _, None => true
      | _, _ => false
      end
  | WCopy src dst | WMove src dst =>
      match ws !! src, ws !! dst with
      | Some _, None => true
      | _, _ => false
      end
  | WAssignShared dst src =>
      match ws !! dst, hs !! src with
      | Some _, Some _ => true
      | _, _ => false
      end
  | WCopyAssign x y | WMoveAssign x y | WSwap x y =>
      match ws !! x, ws !! y with
      | Some _, Some _ => true
      | _, _ => false
      end
  | WReset k | WDestroy k =>
      match ws !! k with
      | Some _ => true
      | None => false
      end
  | WLock src dst =>
      match ws !! src, hs !! dst with
      | Some _, None => true
      | _, _ => false
      end
  end.

Fixpoint wops_ok (b o : nat) (vs : WVars) (ops : list WOp) : bool :=
  match ops with
  | [] => true
  | op :: rest => wop_ok b o vs op && wops_ok b o (wspec_step b op vs) rest
  end.

(** The invariant of the handles of block [b], strong and weak: every
    handle is empty or refers to [b]; the block and its plain object
    are as [lifetime_inv] says for the numbers of live handles; and the
    destructor of the object has run once more than the [r0] times
    recorded before exactly when no strong handle is left. *)
Definition weak_handles_inv (b : nat) (ws : gmap nat WeakPtr) : Prop :=
  ∀ k w, ws !! k = Some w → w_base_block_ w = None ∨ w_base_block_ w = Some b.

Definition life (b p : nat) (cls : BlockClass) (v : Z) (r0 : nat) (n m : nat)
    (σ : Heap) : Prop :=
  lifetime_inv b p cls v n m σ ∧
  destructor_runs p (trace σ) = r0 + match n with 0 => 1 | S _ => 0 end.

Definition shared_weak_inv (b p : nat) (cls : BlockClass) (v : Z) (r0 : nat)
    (vs : WVars) (σ : Heap) : Prop :=
  handles_inv b vs.1 ∧ weak_handles_inv b vs.2 ∧
  life b p cls v r0 (live_count b vs.1) (weak_count b vs.2) σ.

(** A program on one strong and no weak handle. *)
Definition weak_demo_ops : list WOp :=
  [WDemote 0 0; WStrong (OpCopy false 0 1); WCopy 0 1; WLock 1 2;
   WStrong (OpDestroy 0); WStrong (OpDestroy 1); WStrong (OpReset 2);
   WLock 0 3; WMoveAssign 1 0; WDestroy 0; WDestroy 1].

(** * Proofs *)

(** ** Stepping through monadic code *)

#[local] Arguments incr : simpl never.
#[local] Arguments decr : simpl never.
#[local] Arguments wrap : simpl never.

Ltac unfold_monad :=
  unfold mbind, M_bind, bind, mret, M_ret, ret, undefined, throw in *.

Lemma bind_Ok {A B} (m : M A) (k : A → M B) σ a σ1 :
  m σ = Ok a σ1 → (m ≫= k) σ = k a σ1.
Proof. intros H. unfold_monad. by rewrite H. Qed.

Lemma mret_Ok {A} (a : A) σ : (mret a : M A) σ = Ok a σ.
Proof. reflexivity. Qed.

Lemma bind_Ok_inv {A B} (m : M A) (k : A → M B) σ b σ' :
  (m ≫= k) σ = Ok b σ' → ∃ a σ1, m σ = Ok a σ1 ∧ k a σ1 = Ok b σ'.
Proof.
  unfold_monad. destruct (m σ) as [a σ1| |]; [|done..]. by exists a, σ1.
Qed.

Lemma ret_Ok_inv {A} (a b : A) σ σ' :
  (mret a : M A) σ = Ok b σ' → a = b ∧ σ = σ'.
Proof. unfold_monad. by intros [= -> ->]. Qed.

(** [mstep E] runs the first action of a sequence, whose outcome is [E]. *)
Ltac mstep E := rewrite (bind_Ok _ _ _ _ _ E).

(** [inv_bind H] splits a successful sequence [H] into its steps. *)
Ltac inv_bind H :=
  lazymatch type of H with
  | (_ ≫= _) _ = Ok _ _ =>
      let a := fresh "a" in let σ1 := fresh "σ" in let H1 := fresh "E" in
      apply bind_Ok_inv in H as (a & σ1 & H1 & H);
      inv_bind H1; inv_bind H
  | @mret _ _ _ _ _ = Ok _ _ =>
      let H1 := fresh "E" in
      apply ret_Ok_inv in H as [H H1]
  | _ => idtac
  end.

Ltac hsimpl :=
  cbn [blocks objects trace allocations set_blocks set_objects emit
       count_allocation with_strong with_weak with_stored dynamic_type
       strong_counter_ weak_counter_ stored_ptr_ base_block_ observed_ptr_
       w_base_block_ w_observed_ptr_ value weak_this_ SetBlockPtr
       SetObservedPtr SharedPtr_default WeakPtr_default].

(** ** [size_t] arithmetic without wrap-around *)

Lemma wrap_small z : in_size_t z → wrap z = z.
Proof. unfold in_size_t, wrap. intros. apply Z.mod_small. lia. Qed.

Lemma incr_small z : (0 <= z)%Z → (z + 1 < SIZE_MODULUS)%Z → incr z = (z + 1)%Z.
Proof. intros. unfold incr. apply wrap_small. unfold in_size_t. lia. Qed.

Lemma decr_small z : (0 < z)%Z → (z < SIZE_MODULUS)%Z → decr z = (z - 1)%Z.
Proof. intros. unfold decr. apply wrap_small. unfold in_size_t. lia. Qed.

(** A decrement undoes an increment, and conversely, on every [size_t]. *)
Lemma decr_incr c : in_size_t c → decr (incr c) = c.
Proof.
  unfold in_size_t, decr, incr, wrap, SIZE_MODULUS. intros H.
  destruct (decide (c + 1 = 2 ^ 64)%Z) as [E|E].
  - assert (c = 2 ^ 64 - 1)%Z as -> by lia. reflexivity.
  - rewrite (Z.mod_small (c + 1)) by lia. rewrite Z.mod_small; lia.
Qed.

Lemma incr_decr c : in_size_t c → incr (decr c) = c.
Proof.
  unfold in_size_t, decr, incr, wrap, SIZE_MODULUS. intros H.
  destruct (decide (c = 0)%Z) as [->|E]; [reflexivity|].
  rewrite (Z.mod_small (c - 1)) by lia. rewrite Z.mod_small; lia.
Qed.

Lemma IncreaseStrongCounter_ok σ b blk :
  blocks σ !! b = Some blk →
  IncreaseStrongCounter b σ
  = Ok tt (set_blocks (insert b (with_strong (incr (strong_counter_ blk)) blk)) σ).
Proof.
  intros Hb. unfold IncreaseStrongCounter, load_block, store_block. unfold_monad.
  rewrite Hb. reflexivity.
Qed.

(** ** Control-block member functions on an allocated block *)

Lemma heap_eq σ1 σ2 :
  blocks σ1 = blocks σ2 → objects σ1 = objects σ2 → trace σ1 = trace σ2 →
  allocations σ1 = allocations σ2 → σ1 = σ2.
Proof. destruct σ1, σ2. simpl. by intros -> -> -> ->. Qed.

Lemma load_block_ok σ b blk : blocks σ !! b = Some blk → load_block b σ = Ok blk σ.
Proof. intros H. unfold load_block. by rewrite H. Qed.

Lemma load_object_ok σ p o : objects σ !! p = Some o → load_object p σ = Ok o σ.
Proof. intros H. unfold load_object. by rewrite H. Qed.

Lemma DecreaseWeakCounter_ok σ b blk :
  blocks σ !! b = Some blk →
  DecreaseWeakCounter b σ
  = Ok tt (if ((decr (weak_counter_ blk) =? 0) && (strong_counter_ blk =? 0))%Z
           then emit (EvFreeBlock b) (set_blocks (delete b) σ)
           else set_blocks (insert b (with_weak (decr (weak_counter_ blk)) blk)) σ).
Proof.
  intros Hb. unfold DecreaseWeakCounter, load_block, store_block, delete_this.
  unfold_monad. rewrite Hb. simpl.
  destruct (_ && _); [|done].
  simpl. rewrite lookup_insert_eq. f_equal. apply heap_eq; simpl; try done.
  by rewrite delete_insert_eq.
Qed.

Lemma BruteDecreaseWeakCounter_ok σ b blk :
  blocks σ !! b = Some blk →
  BruteDecreaseWeakCounter b σ
  = Ok tt (set_blocks (insert b (with_weak (decr (weak_counter_ blk)) blk)) σ).
Proof.
  intros Hb. unfold BruteDecreaseWeakCounter, load_block, store_block.
  unfold_monad. by rewrite Hb.
Qed.

Lemma IncreaseWeakCounter_ok σ b blk :
  blocks σ !! b = Some blk →
  IncreaseWeakCounter b σ
  = Ok tt (set_blocks (insert b (with_weak (incr (weak_counter_ blk)) blk)) σ).
Proof.
  intros Hb. unfold IncreaseWeakCounter, load_block, store_block.
  unfold_monad. by rewrite Hb.
Qed.

Lemma GetStrongCounter_ok σ b blk :
  blocks σ !! b = Some blk → GetStrongCounter b σ = Ok (strong_counter_ blk) σ.
Proof.
  intros Hb. unfold GetStrongCounter, load_block. unfold_monad. by rewrite Hb.
Qed.

(** The destructor of a live object whose [weak_this_] is absent or bound
    to an allocated block: one non-checking weak decrement on that block,
    nothing else. *)
Lemma run_destructor_ok σ p o :
  objects σ !! p = Some o → teardown_defined σ o →
  run_destructor p σ
  = Ok tt (match weak_this_ o with
           | Some w =>
               match w_base_block_ w with
               | Some bb => set_blocks (alter (λ blk, with_weak (decr (weak_counter_ blk)) blk) bb) σ
               | None => σ
               end
           | None => σ
           end).
Proof.
  intros Ho Htd. unfold run_destructor, load_object. unfold_monad. rewrite Ho.
  unfold teardown_defined in Htd. destruct (weak_this_ o) as [w|]; [|done].
  destruct Htd as (bb & Hbb & [blk Hblk]).
  unfold EnableSharedFromThis_dtor. unfold_monad. rewrite Hbb.
  rewrite (BruteDecreaseWeakCounter_ok _ _ _ Hblk). simpl.
  f_equal. apply heap_eq; simpl; try done.
  apply map_eq. intros i. rewrite lookup_alter, lookup_insert.
  case_decide; subst; by rewrite ?Hblk.
Qed.

Lemma DecreaseStrongCounter_nonzero σ b blk :
  blocks σ !! b = Some blk →
  decr (strong_counter_ blk) ≠ 0%Z →
  DecreaseStrongCounter b σ
  = Ok tt (set_blocks (insert b (with_strong (decr (strong_counter_ blk)) blk)) σ).
Proof.
  intros Hb Hnz. unfold DecreaseStrongCounter, load_block, store_block.
  unfold_monad. rewrite Hb. simpl.
  destruct (Z.eqb_spec (decr (strong_counter_ blk)) 0); [done|done].
Qed.

Lemma destroy_managed_ok σ cls p o :
  objects σ !! p = Some o → teardown_defined σ o →
  ∃ σ', match cls with
        | PtrControlBlock => delete_object (Some p)
        | ObjectControlBlock => destroy_in_place (Some p)
        end σ = Ok tt σ' ∧
    objects σ' = delete p (objects σ) ∧
    trace σ' = destroy_event cls p :: trace σ ∧
    allocations σ' = allocations σ ∧
    blocks σ' = match weak_this_ o with
                | Some w =>
                    match w_base_block_ w with
                    | Some bb => alter (λ blk, with_weak (decr (weak_counter_ blk)) blk) bb (blocks σ)
                    | None => blocks σ
                    end
                | None => blocks σ
                end.
Proof.
  intros Ho Htd.
  destruct cls; unfold delete_object, destroy_in_place, end_lifetime; unfold_monad;
    rewrite (run_destructor_ok _ _ _ Ho Htd); eexists; (split; [reflexivity|]);
    simpl; destruct (weak_this_ o) as [[[bb|] ?]|]; simpl; done.
Qed.

Lemma DecreaseStrongCounter_zero σ b blk p o :
  blocks σ !! b = Some blk →
  stored_ptr_ blk = Some p →
  objects σ !! p = Some o →
  teardown_defined σ o →
  decr (strong_counter_ blk) = 0%Z →
  ∃ σ', DecreaseStrongCounter b σ = Ok tt σ' ∧
    objects σ' = delete p (objects σ) ∧
    allocations σ' = allocations σ ∧
    let w := weak_after_teardown b blk o in
    if decide (w = 0%Z) then
      blocks σ' !! b = None ∧
      trace σ' = EvFreeBlock b :: destroy_event (dynamic_type blk) p :: trace σ
    else
      blocks σ' !! b = Some (mkBlock (dynamic_type blk) 0 w None) ∧
      trace σ' = destroy_event (dynamic_type blk) p :: trace σ.
Proof.
  intros Hb Hp Ho Htd Hz.
  unfold DecreaseStrongCounter. unfold_monad.
  rewrite (load_block_ok _ _ _ Hb). unfold store_block at 1. rewrite Hz. simpl.
  rewrite Hp.
  set (σ1 := set_blocks _ σ).
  assert (Ho1 : objects σ1 !! p = Some o) by done.
  assert (Htd1 : teardown_defined σ1 o).
  { unfold teardown_defined in *. destruct (weak_this_ o) as [w|]; [|done].
    destruct Htd as (bb & ? & Hs). exists bb. split; [done|].
    subst σ1. simpl. rewrite lookup_insert. case_decide; [by eexists|done]. }
  destruct (destroy_managed_ok σ1 (dynamic_type blk) p o Ho1 Htd1)
    as (σ2 & -> & Hobj & Htr & Hal & Hbl).
  set (w := weak_after_teardown b blk o).
  assert (Hb2 : blocks σ2 !! b = Some (mkBlock (dynamic_type blk) 0 w (Some p))).
  { rewrite Hbl. subst w σ1. unfold weak_after_teardown. simpl.
    destruct (weak_this_ o) as [[[bb|] ?]|]; simpl.
    - rewrite lookup_alter. case_bool_decide as Hd.
      + simplify_eq. rewrite decide_True by done. rewrite lookup_insert_eq. simpl.
        unfold with_weak, with_strong. simpl. by rewrite Hp.
      + rewrite decide_False by congruence. rewrite lookup_insert_eq.
        unfold with_strong. by rewrite Hp.
    - rewrite lookup_insert_eq. unfold with_strong. by rewrite Hp.
    - rewrite lookup_insert_eq. unfold with_strong. by rewrite Hp. }
  rewrite (load_block_ok _ _ _ Hb2). unfold store_block, delete_this.
  unfold set_blocks, emit. cbn.
  destruct (Z.eqb_spec w 0) as [Hw|Hw].
  - cbn. rewrite lookup_insert_eq. eexists. split; [reflexivity|]. simpl.
    rewrite decide_True by done.
    rewrite delete_insert_eq, lookup_delete_eq, Htr. subst σ1. simpl. auto.
  - cbn. eexists. split; [reflexivity|]. simpl. rewrite decide_False by done.
    rewrite lookup_insert_eq, Htr. subst σ1. simpl. auto.
Qed.

(** The last strong decrement on a [PtrControlBlock] that holds a null
    pointer: [delete] of a null pointer does nothing. *)
Lemma DecreaseStrongCounter_null σ b blk :
  blocks σ !! b = Some blk →
  dynamic_type blk = PtrControlBlock →
  stored_ptr_ blk = None →
  decr (strong_counter_ blk) = 0%Z →
  DecreaseStrongCounter b σ
  = Ok tt (if (weak_counter_ blk =? 0)%Z
           then emit (EvFreeBlock b) (set_blocks (delete b) σ)
           else set_blocks (insert b (with_strong 0 blk)) σ).
Proof.
  intros Hb Hc Hp Hz. unfold DecreaseStrongCounter.
  mstep (load_block_ok _ _ _ Hb). rewrite Hz, Hc, Hp.
  unfold store_block at 1. unfold_monad. cbn.
  erewrite load_block_ok by apply lookup_insert_eq. cbn.
  destruct (weak_counter_ blk =? 0)%Z.
  - unfold delete_this. cbn. rewrite lookup_insert_eq. f_equal.
    apply heap_eq; cbn; try done.
    by rewrite !insert_insert_eq, delete_insert_eq.
  - f_equal. apply heap_eq; cbn; try done. rewrite !insert_insert_eq.
    f_equal. destruct blk; cbn in *. by subst.
Qed.

(** C2. Two-stage release.  Take an allocated block [b].  When it
    manages a live object [p], a strong decrement that reaches zero
    destroys the object ([delete] for a [PtrControlBlock], an in-place
    destructor call for an [ObjectControlBlock]) and frees the block
    exactly when the weak counter is zero at that point, that is, after
    the object's destructor has run; otherwise the block stays allocated
    with strong count 0 and a null stored pointer.  A strong decrement
    that does not reach zero only stores the new count.  When [b] is a
    [PtrControlBlock] that holds a null pointer, a strong decrement that
    reaches zero destroys nothing and frees the block exactly when the
    weak counter is zero.  A weak decrement on [b], whatever the block
    manages and in particular on the block a strong decrement has left
    behind, frees the block exactly when it leaves the weak count at
    zero while the strong count is zero, and otherwise only stores the
    new count. *)
Theorem two_stage_release σ b blk :
  blocks σ !! b = Some blk →
  (∀ p o,
     stored_ptr_ blk = Some p →
     objects σ !! p = Some o →
     teardown_defined σ o →
     ∃ σs, DecreaseStrongCounter b σ = Ok tt σs ∧
       if decide (decr (strong_counter_ blk) = 0%Z) then
         objects σs = delete p (objects σ) ∧
         let w := weak_after_teardown b blk o in
         if decide (w = 0%Z) then
           blocks σs !! b = None ∧
           trace σs = EvFreeBlock b :: destroy_event (dynamic_type blk) p :: trace σ
         else
           blocks σs !! b = Some (mkBlock (dynamic_type blk) 0 w None) ∧
           trace σs = destroy_event (dynamic_type blk) p :: trace σ
       else
         σs = set_blocks (insert b (with_strong (decr (strong_counter_ blk)) blk)) σ) ∧
  (dynamic_type blk = PtrControlBlock →
   stored_ptr_ blk = None →
   ∃ σs, DecreaseStrongCounter b σ = Ok tt σs ∧
     objects σs = objects σ ∧
     if decide (decr (strong_counter_ blk) = 0%Z) then
       if decide (weak_counter_ blk = 0%Z) then
         blocks σs = delete b (blocks σ) ∧ trace σs = EvFreeBlock b :: trace σ
       else
         blocks σs = <[b := with_strong 0 blk]> (blocks σ) ∧ trace σs = trace σ
     else
       σs = set_blocks (insert b (with_strong (decr (strong_counter_ blk)) blk)) σ) ∧
  (∃ σw, DecreaseWeakCounter b σ = Ok tt σw ∧
     if decide (decr (weak_counter_ blk) = 0%Z ∧ strong_counter_ blk = 0%Z) then
       blocks σw = delete b (blocks σ) ∧ objects σw = objects σ ∧
       trace σw = EvFreeBlock b :: trace σ
     else
       σw = set_blocks (insert b (with_weak (decr (weak_counter_ blk)) blk)) σ).
Proof.
  intros Hb. split; [|split].
  - intros p o Hp Ho Htd. case_decide as Hz.
    + destruct (DecreaseStrongCounter_zero σ b blk p o Hb Hp Ho Htd Hz)
        as (σ' & -> & Hobj & _ & Hrest).
      exists σ'. split; [done|]. split; [done|]. exact Hrest.
    + rewrite (DecreaseStrongCounter_nonzero _ _ _ Hb Hz). by eexists.
  - intros Hc Hp. case_decide as Hz.
    + rewrite (DecreaseStrongCounter_null _ _ _ Hb Hc Hp Hz).
      eexists. split; [reflexivity|].
      destruct (Z.eqb_spec (weak_counter_ blk) 0) as [Hw|Hw].
      * by rewrite decide_True.
      * by rewrite decide_False.
    + rewrite (DecreaseStrongCounter_nonzero _ _ _ Hb Hz). by eexists.
  - rewrite (DecreaseWeakCounter_ok _ _ _ Hb). eexists. split; [reflexivity|].
    case_decide as Hd.
    + destruct Hd as [-> ->]. done.
    + destruct (Z.eqb_spec (decr (weak_counter_ blk)) 0);
        destruct (Z.eqb_spec (strong_counter_ blk) 0); simpl; try done.
      exfalso; auto.
Qed.

Lemma two_stage_release_witness :
  (∃ σs σw,
     DecreaseStrongCounter 0 σ_demo = Ok tt σs ∧
     objects σs = delete 0 (objects σ_demo) ∧
     blocks σs !! 0 = Some (mkBlock PtrControlBlock 0 1 None) ∧
     trace σs = [EvDelete 0] ∧
     DecreaseWeakCounter 0 σs = Ok tt σw ∧
     blocks σw = delete 0 (blocks σs) ∧
     trace σw = [EvFreeBlock 0; EvDelete 0]) ∧
  (∃ σs, DecreaseStrongCounter 0 σ_sole = Ok tt σs ∧
         blocks σs !! 0 = None ∧
         trace σs = [EvFreeBlock 0; EvDestroyInPlace 0]) ∧
  (∃ σw, DecreaseWeakCounter 0 σ_demo = Ok tt σw ∧
         σw = set_blocks (insert 0 (mkBlock PtrControlBlock 1 0 (Some 0))) σ_demo).
Proof.
  assert (H1 : blocks σ_demo !! 0 = Some (mkBlock PtrControlBlock 1 1 (Some 0)))
    by reflexivity.
  assert (H2 : objects σ_demo !! 0 = Some (mkObject 7 None)) by reflexivity.
  destruct (two_stage_release σ_demo 0 _ H1) as (Hs & _ & Hw).
  destruct (Hs 0 _ eq_refl H2 I) as (σs & Es & Hos & Hbs & Hts).
  cbn in Hbs, Hts.
  destruct (two_stage_release σs 0 _ Hbs) as (_ & _ & σw & Ew & Hbw & _ & Htw).
  split; [|split].
  - exists σs, σw. split; [exact Es|]. split; [exact Hos|].
    split; [exact Hbs|]. split; [exact Hts|]. split; [exact Ew|].
    split; [exact Hbw|]. rewrite Htw, Hts. reflexivity.
  - assert (H3 : blocks σ_sole !! 0 = Some (mkBlock ObjectControlBlock 1 0 (Some 0)))
      by reflexivity.
    assert (H4 : objects σ_sole !! 0 = Some (mkObject 7 None)) by reflexivity.
    destruct (two_stage_release σ_sole 0 _ H3) as (Hs' & _).
    destruct (Hs' 0 _ eq_refl H4 I) as (σs' & Es' & _ & Hbs' & Hts').
    exists σs'. split; [exact Es'|]. split; [exact Hbs'|exact Hts'].
  - destruct Hw as (σw' & E & Hw). exists σw'. split; [exact E|]. exact Hw.
Defined.

(** ** Promotion of weak handles *)

Lemma WeakPtr_UseCount_ok σ w :
  weak_valid σ w → WeakPtr_UseCount w σ = Ok (strong_count_of σ w) σ.
Proof.
  unfold weak_valid, WeakPtr_UseCount, strong_count_of.
  destruct (w_base_block_ w) as [b|]; [|done].
  intros [blk Hb]. rewrite (GetStrongCounter_ok _ _ _ Hb). by rewrite Hb.
Qed.

(** [Lock()] of an expired handle, for every handle type. *)
Lemma WeakPtr_Lock_expired sot w σ :
  WeakPtr_Expired w σ = Ok true σ →
  WeakPtr_Lock sot w σ = Ok (mkShared None None) σ.
Proof. intros Ex. unfold WeakPtr_Lock. by mstep Ex. Qed.

(** [Lock()] of a handle that is not expired: the strong increment, and
    for a self-observing class the [InitWeakThis] of the move
    construction of the result. *)
Lemma WeakPtr_Lock_live sot w σ b blk :
  WeakPtr_Expired w σ = Ok false σ →
  w_base_block_ w = Some b →
  blocks σ !! b = Some blk →
  let h := mkShared (Some b) (w_observed_ptr_ w) in
  let σ' := set_blocks (insert b (with_strong (incr (strong_counter_ blk)) blk)) σ in
  WeakPtr_Lock sot w σ
  = if sot then (InitWeakThis h (w_observed_ptr_ w);; mret h) σ' else Ok h σ'.
Proof.
  intros Ex Hw Hb h σ'. unfold WeakPtr_Lock. mstep Ex. cbv beta iota. rewrite Hw.
  mstep (IncreaseStrongCounter_ok _ _ _ Hb). fold σ'.
  unfold SharedPtr_move, SharedPtr_dtor. hsimpl. fold h.
  destruct sot; [|reflexivity].
  unfold_monad. by destruct (InitWeakThis h (w_observed_ptr_ w) σ').
Qed.

(** Promotion fails exactly when the weak handle is expired.  For a
    weak handle that is empty or points to an allocated block, let [n]
    be the strong count it reads (0 when empty).  If [n = 0], [Lock()]
    returns the empty strong handle and the promoting constructor throws
    [BadWeakPtr], both without changing the heap.  Otherwise the
    promoting constructor, and [Lock()] at a plain class, return the
    handle with the weak handle's block and observed pointer, and the
    only change to the heap is the strong count of that block, which is
    incremented; [Lock()] at a self-observing class goes on to call
    [InitWeakThis] on the observed pointer. *)
Lemma promotion_fails_exactly_when_expired σ w :
  weak_valid σ w →
  let n := strong_count_of σ w in
  WeakPtr_UseCount w σ = Ok n σ ∧
  WeakPtr_Expired w σ = Ok (bool_decide (n = 0%Z)) σ ∧
  if decide (n = 0%Z) then
    (∀ sot, WeakPtr_Lock sot w σ = Ok (mkShared None None) σ) ∧
    SharedPtr_from_weak w σ = Throw BadWeakPtr σ
  else
    ∃ b blk,
      w_base_block_ w = Some b ∧ blocks σ !! b = Some blk ∧
      strong_counter_ blk = n ∧
      let h := mkShared (Some b) (w_observed_ptr_ w) in
      let σ' := set_blocks (insert b (with_strong (incr n) blk)) σ in
      WeakPtr_Lock false w σ = Ok h σ' ∧
      WeakPtr_Lock true w σ = (InitWeakThis h (w_observed_ptr_ w);; mret h) σ' ∧
      SharedPtr_from_weak w σ = Ok h σ'.
Proof.
  intros Hv n.
  assert (EU : WeakPtr_UseCount w σ = Ok n σ) by by apply WeakPtr_UseCount_ok.
  assert (Ex : WeakPtr_Expired w σ = Ok (bool_decide (n = 0%Z)) σ).
  { unfold WeakPtr_Expired. mstep EU. unfold_monad. f_equal.
    destruct (Z.eqb_spec n 0); [by rewrite bool_decide_true|by rewrite bool_decide_false]. }
  split; [done|]. split; [done|]. case_decide as Hn.
  - rewrite bool_decide_true in Ex by done. split.
    + intros sot. by apply WeakPtr_Lock_expired.
    + unfold SharedPtr_from_weak. by mstep Ex.
  - rewrite bool_decide_false in Ex by done.
    destruct w as [[b|] q]; [|done]. destruct Hv as [blk Hb].
    assert (Hs : strong_counter_ blk = n).
    { subst n. unfold strong_count_of. cbn. by rewrite Hb. }
    exists b, blk. split; [done|]. split; [done|]. split; [done|].
    cbn zeta. rewrite <- Hs. split; [|split].
    + exact (WeakPtr_Lock_live false _ _ _ _ Ex eq_refl Hb).
    + exact (WeakPtr_Lock_live true _ _ _ _ Ex eq_refl Hb).
    + unfold SharedPtr_from_weak. mstep Ex. cbn.
      by mstep (IncreaseStrongCounter_ok _ _ _ Hb).
Qed.

Lemma promotion_fails_exactly_when_expired_witness :
  WeakPtr_Lock false (mkWeak (Some 0) (Some 0)) σ_demo
  = Ok (mkShared (Some 0) (Some 0))
       (set_blocks (insert 0 (mkBlock PtrControlBlock 2 1 (Some 0))) σ_demo) ∧
  SharedPtr_from_weak (mkWeak None None) σ_demo = Throw BadWeakPtr σ_demo.
Proof.
  split.
  - assert (Hv : weak_valid σ_demo (mkWeak (Some 0) (Some 0))) by (by eexists).
    pose proof (promotion_fails_exactly_when_expired σ_demo _ Hv) as (_ & _ & H).
    destruct H as (b & blk & Hb & Hblk & Hn & HL & _).
    simpl in Hb, Hblk. injection Hb as <-.
    assert (blk = mkBlock PtrControlBlock 1 1 (Some 0)) as -> by (vm_compute in Hblk; congruence).
    exact HL.
  - exact (proj2 (proj2 (proj2 (promotion_fails_exactly_when_expired σ_demo (mkWeak None None) I)))).
Defined.

(** C3, evaluated on a weak handle of a self-observing class whose block
    is live and whose observed pointer is null, as [Reset(ptr)] with a
    null pointer followed by a demotion produces it: the handle is not
    expired, and [Lock()] increments the strong count and then, in the
    move construction of its result, calls [InitWeakThis] on the null
    pointer.  The promoting constructor, and [Lock()] at a plain class,
    return the handle on the same block with use count 2. *)
Theorem Lock_with_null_observed_pointer_undefined σ :
  let b := fresh (dom (blocks σ)) in
  let h := mkShared (Some b) None in
  let w := mkWeak (Some b) None in
  ∃ σ1 σ2,
    Reset_ptr SharedPtr_default None σ = Ok h σ1 ∧
    WeakPtr_from_shared h σ1 = Ok w σ2 ∧
    WeakPtr_Expired w σ2 = Ok false σ2 ∧
    WeakPtr_Lock true w σ2 = UB ∧
    ∃ σ3, WeakPtr_Lock false w σ2 = Ok h σ3 ∧
          SharedPtr_from_weak w σ2 = Ok h σ3 ∧
          UseCount h σ3 = Ok 2%Z σ3.
Proof.
  intros b h w.
  set (σ1 := count_allocation
               (set_blocks (insert b (mkBlock PtrControlBlock 1 0 None)) σ)).
  set (σ2 := set_blocks (insert b (mkBlock PtrControlBlock 1 1 None)) σ1).
  assert (Hb2 : blocks σ2 !! b = Some (mkBlock PtrControlBlock 1 1 None))
    by apply lookup_insert_eq.
  assert (Hv : weak_valid σ2 w) by (by eexists).
  destruct (promotion_fails_exactly_when_expired σ2 w Hv) as (_ & Ex & H).
  assert (Hn : strong_count_of σ2 w = 1%Z).
  { unfold strong_count_of. cbn [w_base_block_ w]. by rewrite Hb2. }
  rewrite Hn in Ex, H. rewrite bool_decide_false in Ex by done.
  rewrite decide_False in H by done.
  destruct H as (b' & blk & Hw & Hblk & _ & HLf & HLt & Hfw).
  injection Hw as <-. rewrite Hb2 in Hblk. injection Hblk as <-.
  exists σ1, σ2. split; [reflexivity|]. split.
  { unfold WeakPtr_from_shared. cbn [base_block_ w_base_block_ h].
    assert (Hb1 : blocks σ1 !! b = Some (mkBlock PtrControlBlock 1 0 None))
      by apply lookup_insert_eq.
    by mstep (IncreaseWeakCounter_ok _ _ _ Hb1). }
  split; [exact Ex|]. split; [by rewrite HLt|].
  eexists. split; [exact HLf|]. split; [exact Hfw|].
  unfold UseCount. cbn [base_block_ h].
  erewrite GetStrongCounter_ok; [|apply lookup_insert_eq]. reflexivity.
Qed.

(** ** The decrement protocols *)

(** C4, as stated, fails: [RefCounted::DecRef] called at counter value 0
    destroys the object without decrementing. *)
Lemma DecRef_at_zero_breaks_protocol :
  ¬ DecRef_follows_protocol (Intrusive.mkRefCounted (Intrusive.mkCounter 0)).
Proof.
  unfold DecRef_follows_protocol, decrement_then_check. cbn.
  intros [H _]. vm_compute in H. discriminate.
Qed.

Lemma destructor_runs_cons p e t :
  destructor_runs p (e :: t)
  = (if is_destruction_of p e then 1 else 0) + destructor_runs p t.
Proof.
  unfold destructor_runs. rewrite filter_cons.
  by destruct (is_destruction_of p e).
Qed.

Lemma is_destruction_of_destroy_event cls p :
  is_destruction_of p (destroy_event cls p) = true.
Proof. destruct cls; simpl; by rewrite bool_decide_true. Qed.

(** C4, amended.  [DecreaseStrongCounter] of either block class
    decrements once and destroys the managed object exactly when the
    decremented count is zero, for every starting value.
    [RefCounted::DecRef] does the same for every starting value other
    than 0; at 0 it does not decrement and destroys the object. *)
Theorem strong_decrement_protocol :
  (∀ σ b blk p o,
     blocks σ !! b = Some blk → stored_ptr_ blk = Some p →
     objects σ !! p = Some o → teardown_defined σ o →
     ∃ σ', DecreaseStrongCounter b σ = Ok tt σ' ∧
       (∀ blk', blocks σ' !! b = Some blk' →
          strong_counter_ blk' = decr (strong_counter_ blk)) ∧
       destructor_runs p (trace σ')
       = destructor_runs p (trace σ)
         + (if decide (decr (strong_counter_ blk) = 0%Z) then 1 else 0)) ∧
  (∀ c, c ≠ 0%Z →
     DecRef_follows_protocol (Intrusive.mkRefCounted (Intrusive.mkCounter c))) ∧
  Intrusive.DecRef (Intrusive.mkRefCounted (Intrusive.mkCounter 0))
  = (Intrusive.mkRefCounted (Intrusive.mkCounter 0), [Intrusive.Destroy]).
Proof.
  split; [|split].
  - intros σ b blk p o Hb Hp Ho Htd.
    case_decide as Hz.
    + destruct (DecreaseStrongCounter_zero σ b blk p o Hb Hp Ho Htd Hz)
        as (σ' & E & _ & _ & H).
      exists σ'. split; [done|]. cbn zeta in H. rewrite Hz.
      case_decide; destruct H as [Hbl ->]; rewrite ?destructor_runs_cons,
        ?is_destruction_of_destroy_event; simpl; (split; [|lia]);
        intros blk'; rewrite Hbl; naive_solver.
    + rewrite (DecreaseStrongCounter_nonzero _ _ _ Hb Hz).
      eexists. split; [reflexivity|]. simpl. split; [|lia].
      intros blk'. rewrite lookup_insert_eq. by intros [= <-].
  - intros c Hc. unfold DecRef_follows_protocol, Intrusive.DecRef. cbn.
    destruct (Z.eqb_spec c 0) as [|_]; [done|].
    destruct (Z.eqb_spec (decr c) 0) as [Hz|Hz]; cbn; unfold decrement_then_check.
    + split; [done|]. split; [done|]. done.
    + split; [done|]. split; [done|]. split; [|done].
      unfold Intrusive.destroyed. intros Hin%bool_decide_eq_true.
      apply list_elem_of_singleton in Hin. discriminate Hin.
  - reflexivity.
Qed.

Lemma strong_decrement_protocol_witness :
  (∃ σ', DecreaseStrongCounter 0 σ_demo = Ok tt σ' ∧
         destructor_runs 0 (trace σ') = 1) ∧
  DecRef_follows_protocol (Intrusive.mkRefCounted (Intrusive.mkCounter 1)).
Proof.
  destruct strong_decrement_protocol as (Hblock & Hdec & _). split.
  - destruct (Hblock σ_demo 0 (mkBlock PtrControlBlock 1 1 (Some 0)) 0
                (mkObject 7 None) eq_refl eq_refl eq_refl I)
      as (σ' & E & _ & Hr).
    exists σ'. split; [exact E|exact Hr].
  - apply Hdec. discriminate.
Defined.

(** The test for zero that opens [RefCounted::DecRef] is what releases
    an object that an [IntrusivePtr] adopted with [Reset(T* ptr)], which
    leaves the object's counter at 0. *)
Lemma Reset_adopts_at_count_zero (p : nat) (h : gmap nat Intrusive.RefCounted) :
  h !! p = Some (Intrusive.mkRefCounted (Intrusive.mkCounter 0)) →
  Intrusive.IntrusivePtr_Reset_ptr (Intrusive.mkIntrusive None) (Some p) h
  = Some (Intrusive.mkIntrusive (Some p), h) ∧
  Intrusive.IntrusivePtr_dtor (Intrusive.mkIntrusive (Some p)) h
  = Some (delete p h).
Proof.
  intros Hp. split; [done|].
  unfold Intrusive.IntrusivePtr_dtor, Intrusive.object_DecRef. cbn.
  by rewrite Hp.
Qed.

(** ** Teardown of self-observing objects *)

Lemma EnableSharedFromThis_dtor_unbound σ q :
  EnableSharedFromThis_dtor (mkWeak None q) σ = UB.
Proof. reflexivity. Qed.

Lemma run_destructor_unbound σ p v q :
  objects σ !! p = Some (mkObject v (Some (mkWeak None q))) →
  run_destructor p σ = UB.
Proof.
  intros Ho. unfold run_destructor, load_object. unfold_monad. by rewrite Ho.
Qed.

(** C6, evaluated on a self-observing object that was never bound: the
    destructor [~EnableSharedFromThis] calls through the null
    [weak_this_.base_block_].  So does the destruction of such an object
    by [delete], and the release of one that a strong handle took over
    with [Reset(ptr)], which does not bind it. *)
Theorem teardown_of_never_bound_object_undefined :
  EnableSharedFromThis_dtor WeakPtr_default σ_empty = UB ∧
  (p ← new_T true 7; delete_object (Some p)) σ_empty = UB ∧
  (p ← new_T true 7;
   h ← Reset_ptr SharedPtr_default (Some p);
   SharedPtr_dtor h) σ_empty = UB.
Proof. split; [reflexivity|]. split; vm_compute; reflexivity. Qed.

Lemma teardown_of_bound_object σ p o b q blk :
  objects σ !! p = Some o →
  weak_this_ o = Some (mkWeak (Some b) q) →
  blocks σ !! b = Some blk →
  run_destructor p σ
  = Ok tt (set_blocks (insert b (with_weak (decr (weak_counter_ blk)) blk)) σ).
Proof.
  intros Ho Hw Hb. unfold run_destructor, load_object. unfold_monad.
  rewrite Ho, Hw. unfold EnableSharedFromThis_dtor. unfold_monad. cbn.
  by rewrite (BruteDecreaseWeakCounter_ok _ _ _ Hb).
Qed.

(** ** Null pointers on the self-observation path *)

(** C10, evaluated on a null pointer to a self-observing class: the
    raw-pointer constructor allocates the block and then calls
    [InitWeakThis] on the null pointer. *)
Theorem null_raw_pointer_of_self_observing_type_undefined σ :
  SharedPtr_from_raw true None σ = UB.
Proof. reflexivity. Qed.

(** The same missing null test makes copy and move construction of an
    empty handle of a self-observing type undefined. *)
Lemma InitWeakThis_of_empty_handle_undefined σ :
  SharedPtr_copy true (mkShared None None) σ = UB ∧
  SharedPtr_move true (mkShared None None) σ = UB.
Proof. split; reflexivity. Qed.

Lemma fresh_block_lookup σ : blocks σ !! fresh (dom (blocks σ)) = None.
Proof. apply not_elem_of_dom, is_fresh. Qed.

(** For a class that is not self-observing, and for [Reset(ptr)] with any
    class, a null raw pointer gives a handle with use count 1, a null
    [Get()] and a false boolean test, whose destruction frees the block. *)
Lemma null_raw_pointer_plain σ :
  let b := fresh (dom (blocks σ)) in
  let h := mkShared (Some b) None in
  let σ1 := count_allocation
              (set_blocks (insert b (mkBlock PtrControlBlock 1 0 None)) σ) in
  SharedPtr_from_raw false None σ = Ok h σ1 ∧
  Reset_ptr (mkShared None None) None σ = Ok h σ1 ∧
  UseCount h σ1 = Ok 1%Z σ1 ∧
  Get h = None ∧
  to_bool h = false ∧
  SharedPtr_dtor h σ1 = Ok tt (emit (EvFreeBlock b) (count_allocation σ)).
Proof.
  intros b h σ1. split; [reflexivity|]. split; [reflexivity|].
  assert (Hb : blocks σ1 !! b = Some (mkBlock PtrControlBlock 1 0 None)).
  { subst σ1. cbn. apply lookup_insert_eq. }
  subst h.
  split. { cbn. by rewrite (GetStrongCounter_ok _ _ _ Hb). }
  split; [done|]. split; [done|].
  cbn. unfold DecreaseStrongCounter. unfold_monad.
  rewrite (load_block_ok _ _ _ Hb). cbn.
  change (decr 1) with 0%Z. cbn.
  unfold load_block, delete_this. subst σ1. cbn. rewrite !lookup_insert_eq. cbn.
  rewrite lookup_insert_eq. f_equal. apply heap_eq; cbn; try done.
  rewrite !insert_insert_eq, delete_insert_eq. apply delete_id, fresh_block_lookup.
Qed.

(** ** Self-observation *)

Lemma UseCount_ok σ h b blk :
  base_block_ h = Some b → blocks σ !! b = Some blk →
  UseCount h σ = Ok (strong_counter_ blk) σ.
Proof.
  intros Hh Hb. unfold UseCount. rewrite Hh. by apply GetStrongCounter_ok.
Qed.

(** [InitWeakThis] on an object that is already bound to the block of
    the handle, through a pointer to the object itself, changes nothing:
    the weak count goes up for the temporary and down again for the old
    value of the member, and the block has a strong owner. *)
Lemma InitWeakThis_rebind σ o obj b blk :
  objects σ !! o = Some obj →
  weak_this_ obj = Some (mkWeak (Some b) (Some o)) →
  blocks σ !! b = Some blk →
  strong_counter_ blk ≠ 0%Z →
  in_size_t (weak_counter_ blk) →
  InitWeakThis (mkShared (Some b) (Some o)) (Some o) σ = Ok tt σ.
Proof.
  intros Ho Hw Hb Hs Hwk. unfold InitWeakThis.
  mstep (load_object_ok _ _ _ Ho). rewrite Hw.
  unfold WeakPtr_from_shared. hsimpl.
  erewrite bind_Ok; [|by mstep (IncreaseWeakCounter_ok _ _ _ Hb)].
  unfold WeakPtr_move_assign. hsimpl.
  erewrite bind_Ok;
    [|erewrite bind_Ok; [reflexivity|];
      erewrite DecreaseWeakCounter_ok by apply lookup_insert_eq; reflexivity].
  hsimpl. rewrite (decr_incr _ Hwk).
  destruct (Z.eqb_spec (strong_counter_ blk) 0) as [|_]; [done|].
  rewrite andb_false_r. cbv beta iota.
  unfold store_object, WeakPtr_dtor. unfold_monad. hsimpl. f_equal.
  apply heap_eq; cbn; try done.
  - rewrite insert_insert_eq. apply insert_id. rewrite Hb. by destruct blk.
  - apply insert_id. rewrite Ho. destruct obj as [x wt]. cbn in Hw. by subst.
Qed.

(** [SharedFromThis()] on a bound object whose block has a strong
    owner: the strong count goes up by one and nothing else changes. *)
Lemma SharedFromThis_bound σ o obj b blk :
  objects σ !! o = Some obj →
  weak_this_ obj = Some (mkWeak (Some b) (Some o)) →
  blocks σ !! b = Some blk →
  (1 <= strong_counter_ blk)%Z →
  (strong_counter_ blk + 1 < SIZE_MODULUS)%Z →
  in_size_t (weak_counter_ blk) →
  SharedFromThis o σ
  = Ok (mkShared (Some b) (Some o))
       (set_blocks (insert b (with_strong (strong_counter_ blk + 1) blk)) σ).
Proof.
  intros Ho Hw Hb H1 Hmax Hwk.
  unfold SharedFromThis. mstep (load_object_ok _ _ _ Ho). rewrite Hw.
  assert (Ex : WeakPtr_Expired (mkWeak (Some b) (Some o)) σ = Ok false σ).
  { unfold WeakPtr_Expired, WeakPtr_UseCount. hsimpl.
    mstep (GetStrongCounter_ok _ _ _ Hb). unfold_monad. f_equal.
    apply Z.eqb_neq. lia. }
  rewrite (WeakPtr_Lock_live true _ _ _ _ Ex eq_refl Hb). hsimpl.
  rewrite incr_small by lia.
  erewrite bind_Ok; [reflexivity|].
  eapply InitWeakThis_rebind; [exact Ho|exact Hw|apply lookup_insert_eq| |exact Hwk].
  cbn. lia.
Qed.

(** C7. Self-observation round trip.  Take an object [o] of a
    self-observing class that is bound, [weak_this_] holding the block
    [b] and a pointer to [o] itself as [InitWeakThis] leaves it, where
    [b] has strong count [n] with [1 <= n] and [n + 1] within [size_t].
    [SharedFromThis()] returns a handle on [b] that observes [o]; all it
    changes in the heap is the strong count, now [n + 1] (the
    [InitWeakThis] of the returned handle rebinds [o] to the block it is
    bound to); every handle of the block then reads [n + 1]; and
    destroying the returned handle gives back the heap as it was, so
    every handle reads [n] again.  For an object that was never bound,
    [SharedFromThis()] returns the empty handle and [WeakFromThis()]
    returns an empty weak handle; neither changes the heap. *)
Theorem self_observation_round_trip :
  (∀ σ o obj b blk,
     objects σ !! o = Some obj →
     weak_this_ obj = Some (mkWeak (Some b) (Some o)) →
     blocks σ !! b = Some blk →
     (1 <= strong_counter_ blk)%Z →
     (strong_counter_ blk + 1 < SIZE_MODULUS)%Z →
     in_size_t (weak_counter_ blk) →
     let n := strong_counter_ blk in
     let d := mkShared (Some b) (Some o) in
     ∃ σ1,
       SharedFromThis o σ = Ok d σ1 ∧
       σ1 = set_blocks (insert b (with_strong (n + 1) blk)) σ ∧
       (∀ h, base_block_ h = Some b →
             UseCount h σ = Ok n σ ∧ UseCount h σ1 = Ok (n + 1)%Z σ1) ∧
       SharedPtr_dtor d σ1 = Ok tt σ) ∧
  (∀ σ o obj q,
     objects σ !! o = Some obj →
     weak_this_ obj = Some (mkWeak None q) →
     SharedFromThis o σ = Ok (mkShared None None) σ ∧
     WeakFromThis o σ = Ok (mkWeak None q) σ).
Proof.
  split.
  - intros σ o obj b blk Ho Hw Hb H1 Hmax Hwk n d.
    assert (Hincr : incr n = (n + 1)%Z) by (apply incr_small; lia).
    set (blk1 := with_strong (n + 1) blk).
    set (σ1 := set_blocks (insert b blk1) σ).
    assert (Hb1 : blocks σ1 !! b = Some blk1) by apply lookup_insert_eq.
    exists σ1. split; [|split; [done|split]].
    + by apply (SharedFromThis_bound σ o obj b blk).
    + intros h Hh. split.
      * by apply (UseCount_ok _ _ b).
      * by rewrite (UseCount_ok _ _ _ _ Hh Hb1).
    + unfold SharedPtr_dtor. cbn.
      assert (Hd : decr (strong_counter_ blk1) = n).
      { cbn. rewrite decr_small by lia. lia. }
      rewrite (DecreaseStrongCounter_nonzero _ _ _ Hb1) by (rewrite Hd; lia).
      rewrite Hd. f_equal. subst σ1. apply heap_eq; cbn; try done.
      rewrite insert_insert_eq. apply insert_id.
      rewrite Hb. f_equal. subst blk1 n. by destruct blk.
  - intros σ o obj q Ho Hw. split.
    + unfold SharedFromThis. mstep (load_object_ok _ _ _ Ho). rewrite Hw.
      by apply WeakPtr_Lock_expired.
    + unfold WeakFromThis. mstep (load_object_ok _ _ _ Ho). by rewrite Hw.
Qed.

Lemma self_observation_round_trip_witness :
  (∃ σ1, SharedFromThis 0 σ_bound = Ok (mkShared (Some 0) (Some 0)) σ1 ∧
         UseCount (mkShared (Some 0) (Some 0)) σ1 = Ok 2%Z σ1 ∧
         SharedPtr_dtor (mkShared (Some 0) (Some 0)) σ1 = Ok tt σ_bound) ∧
  SharedFromThis 1 σ_bound = Ok (mkShared None None) σ_bound ∧
  WeakFromThis 1 σ_bound = Ok (mkWeak None None) σ_bound.
Proof.
  destruct self_observation_round_trip as [Hbound Hunbound]. split.
  - destruct (Hbound σ_bound 0 _ 0 (mkBlock PtrControlBlock 1 1 (Some 0))
                eq_refl eq_refl eq_refl) as (σ1 & E & _ & Hc & Hd).
    + simpl. lia.
    + simpl. unfold SIZE_MODULUS. lia.
    + unfold in_size_t, SIZE_MODULUS. simpl. lia.
    + exists σ1. split; [exact E|]. split; [|exact Hd].
      exact (proj2 (Hc (mkShared (Some 0) (Some 0)) eq_refl)).
  - exact (Hunbound σ_bound 1 _ None eq_refl eq_refl).
Defined.

(** ** The empty-state invariant *)

(** C5, as stated, fails: the aliasing constructor applied to an empty
    handle and a non-null pointer yields a handle with a null block and
    a non-null observed pointer. *)
Lemma aliasing_an_empty_handle_breaks_invariant :
  ¬ yields_invariant_handles
      (SharedPtr_alias false (mkShared None None) (Some 7)) σ_empty.
Proof.
  intros H. specialize (H (mkShared None (Some 7)) σ_empty eq_refl eq_refl).
  discriminate H.
Qed.

(** C5, amended.  Every handle produced by the default and null
    constructors, the raw-pointer constructor, [MakeShared], copy and
    move construction, promotion from a weak handle, [Lock()], the four
    assignment operators, [Reset()], [Reset(ptr)] and [Swap], from
    operands that satisfy the empty-state invariant, satisfies it; the
    aliasing constructor yields such a handle when its source is not
    empty or the given pointer is null. *)
Theorem empty_state_invariant_outside_aliasing
    (sot same : bool) (σ : Heap) (this other : SharedPtr) (w : WeakPtr)
    (p : ptr) (v : Z) :
  empty_state_invariant this →
  empty_state_invariant other →
  empty_state_invariant SharedPtr_default ∧
  empty_state_invariant SharedPtr_null ∧
  yields_invariant_handles (SharedPtr_from_raw sot p) σ ∧
  yields_invariant_handles (MakeShared sot v) σ ∧
  yields_invariant_handles (SharedPtr_copy sot other) σ ∧
  (∀ h o' σ', SharedPtr_move sot other σ = Ok (h, o') σ' →
     empty_state_invariant h ∧ empty_state_invariant o') ∧
  (base_block_ other ≠ None ∨ p = None →
     yields_invariant_handles (SharedPtr_alias sot other p) σ) ∧
  yields_invariant_handles (SharedPtr_from_weak w) σ ∧
  yields_invariant_handles (WeakPtr_Lock sot w) σ ∧
  yields_invariant_handles (SharedPtr_copy_assign same this other) σ ∧
  yields_invariant_handles (SharedPtr_copy_assign_conv this other) σ ∧
  (∀ h o' σ', SharedPtr_move_assign same this other σ = Ok (h, o') σ' →
     empty_state_invariant h ∧ empty_state_invariant o') ∧
  (∀ h o' σ', SharedPtr_move_assign_conv this other σ = Ok (h, o') σ' →
     empty_state_invariant h ∧ empty_state_invariant o') ∧
  yields_invariant_handles (Reset this) σ ∧
  yields_invariant_handles (Reset_ptr this p) σ ∧
  empty_state_invariant (Swap this other).1 ∧
  empty_state_invariant (Swap this other).2.
Proof.
  intros Ht Ho. unfold yields_invariant_handles, empty_state_invariant in *.
  repeat apply conj; try done.
  - intros h σ' H. unfold SharedPtr_from_raw in H. inv_bind H. by subst.
  - intros h σ' H. unfold MakeShared in H. inv_bind H. by subst.
  - intros h σ' H. unfold SharedPtr_copy in H. inv_bind H. by subst.
  - intros h o' σ' H. unfold SharedPtr_move in H. inv_bind H. by simplify_eq.
  - intros Hal h σ' H. unfold SharedPtr_alias in H. inv_bind H. subst. cbn.
    intros Hn. by destruct Hal.
  - intros h σ' H. unfold SharedPtr_from_weak in H. inv_bind H.
    destruct a; [by unfold throw in H|]. inv_bind H. subst. cbn. intros Hn.
    unfold WeakPtr_Expired, WeakPtr_UseCount in E. rewrite Hn in E.
    inv_bind E. by simplify_eq.
  - intros h σ' H. unfold WeakPtr_Lock in H.
    apply bind_Ok_inv in H as (ex & σ1 & E & H).
    destruct ex; [by inv_bind H; subst|].
    apply bind_Ok_inv in H as ([] & σ2 & _ & H).
    apply bind_Ok_inv in H as ([r rp] & σ3 & Em & H).
    unfold SharedPtr_move in Em. apply bind_Ok_inv in Em as ([] & σ4 & _ & Em).
    apply ret_Ok_inv in Em as [Em _]. injection Em as <- <-.
    cbn in H. apply ret_Ok_inv in H as [<- _]. cbn. intros Hn.
    unfold WeakPtr_Expired, WeakPtr_UseCount in E. rewrite Hn in E.
    inv_bind E. by simplify_eq.
  - intros h σ' H. unfold SharedPtr_copy_assign in H.
    destruct same; inv_bind H; by subst.
  - intros h σ' H. unfold SharedPtr_copy_assign_conv in H. inv_bind H. by subst.
  - intros h o' σ' H. unfold SharedPtr_move_assign in H.
    destruct same; inv_bind H; by simplify_eq.
  - intros h o' σ' H. unfold SharedPtr_move_assign_conv in H.
    inv_bind H; by simplify_eq.
  - intros h σ' H. unfold Reset in H. inv_bind H. by subst.
  - intros h σ' H. unfold Reset_ptr in H. inv_bind H. by subst.
Qed.

Lemma empty_state_invariant_outside_aliasing_witness :
  yields_invariant_handles
    (SharedPtr_copy false (mkShared (Some 0) (Some 0))) σ_demo ∧
  yields_invariant_handles
    (Reset_ptr (mkShared (Some 0) (Some 0)) None) σ_demo ∧
  yields_invariant_handles
    (SharedPtr_alias false (mkShared (Some 0) (Some 0)) (Some 9)) σ_demo.
Proof.
  assert (Hinv : empty_state_invariant (mkShared (Some 0) (Some 0)))
    by (intros H; discriminate H).
  pose proof (empty_state_invariant_outside_aliasing false false σ_demo
                (mkShared (Some 0) (Some 0)) (mkShared (Some 0) (Some 0))
                WeakPtr_default None 0 Hinv Hinv) as H1.
  pose proof (empty_state_invariant_outside_aliasing false false σ_demo
                (mkShared (Some 0) (Some 0)) (mkShared (Some 0) (Some 0))
                WeakPtr_default (Some 9) 0 Hinv Hinv) as H2.
  destruct H1 as (_ & _ & _ & _ & Hcopy & _ & _ & _ & _ & _ & _ & _ & _ & _ & Hreset & _).
  destruct H2 as (_ & _ & _ & _ & _ & _ & Halias & _).
  split; [exact Hcopy|]. split; [exact Hreset|].
  apply Halias. left. discriminate.
Defined.

(** ** Groups of handles sharing one block *)

Section Group.
Variables (b o : nat) (v : Z) (sot : bool) (r0 : nat) (O : gmap nat Object).

Lemma live_count_insert k h (hs : gmap nat SharedPtr) :
  live_count b (<[k := h]> hs) = live_count b (delete k hs) + weight b h.
Proof.
  unfold live_count, weight. rewrite map_filter_insert. cbn.
  destruct (refers_to b h) eqn:Hr.
  - rewrite decide_True by done.
    rewrite <- insert_delete_eq, map_size_insert_None by apply lookup_delete_eq.
    rewrite map_filter_delete. lia.
  - rewrite decide_False by done. lia.
Qed.

Lemma live_count_delete k h (hs : gmap nat SharedPtr) :
  hs !! k = Some h →
  live_count b hs = live_count b (delete k hs) + weight b h.
Proof.
  intros Hk. rewrite <- (insert_id hs k h Hk) at 1. apply live_count_insert.
Qed.

Lemma live_count_fresh k h (hs : gmap nat SharedPtr) :
  hs !! k = None →
  live_count b (<[k := h]> hs) = live_count b hs + weight b h.
Proof. intros Hk. by rewrite live_count_insert, delete_id. Qed.

Lemma weight_refers h : base_block_ h = Some b → weight b h = 1.
Proof. intros H. unfold weight, refers_to. by rewrite bool_decide_true. Qed.

Lemma weight_other h : base_block_ h ≠ Some b → weight b h = 0.
Proof. intros H. unfold weight, refers_to. by rewrite bool_decide_false. Qed.

Lemma weight_empty q : weight b (mkShared None q) = 0.
Proof. by apply weight_other. Qed.

Lemma handles_inv_insert k h hs :
  handles_inv b hs → base_block_ h = None ∨ base_block_ h = Some b →
  handles_inv b (<[k := h]> hs).
Proof.
  intros Hhs Hh k' h'. rewrite lookup_insert. case_decide; [|by apply Hhs].
  by intros [= <-].
Qed.

Lemma handles_inv_delete k hs : handles_inv b hs → handles_inv b (delete k hs).
Proof.
  intros Hhs k' h'. rewrite lookup_delete. case_decide; [done|by apply Hhs].
Qed.

Lemma block_inv_acquire n σ :
  block_inv b o v sot r0 O (S n) σ → (Z.of_nat (S (S n)) < SIZE_MODULUS)%Z →
  ∃ σ', IncreaseStrongCounter b σ = Ok tt σ' ∧ block_inv b o v sot r0 O (S (S n)) σ'.
Proof.
  intros (HO & Hlt & [cls Hb] & Ho & Hr) Hmax.
  rewrite (IncreaseStrongCounter_ok _ _ _ Hb). eexists. split; [reflexivity|].
  split; [done|]. split; [done|]. split; [|done].
  exists cls. cbn. rewrite lookup_insert_eq. unfold with_strong. cbn.
  rewrite incr_small by lia. do 3 f_equal. lia.
Qed.

Lemma teardown_defined_managed σ blk :
  blocks σ !! b = Some blk → teardown_defined σ (managed_object b o v sot).
Proof.
  intros Hb. unfold teardown_defined, managed_object. cbn.
  destruct sot; [|done]. exists b. by split; [|eexists].
Qed.

Lemma block_inv_release n σ :
  block_inv b o v sot r0 O (S n) σ →
  ∃ σ', DecreaseStrongCounter b σ = Ok tt σ' ∧ block_inv b o v sot r0 O n σ'.
Proof.
  intros (HO & Hlt & [cls Hb] & Ho & Hr).
  destruct n as [|m].
  - destruct (DecreaseStrongCounter_zero σ b _ o _ Hb eq_refl Ho
                (teardown_defined_managed _ _ Hb) eq_refl)
      as (σ' & E & Hobj & _ & H).
    exists σ'. split; [done|].
    assert (Hw : weak_after_teardown b
              (mkBlock cls (Z.of_nat 1) (if sot then 1 else 0) (Some o))
              (managed_object b o v sot) = 0%Z).
    { unfold weak_after_teardown, managed_object. cbn.
      destruct sot; [|done]. by rewrite bool_decide_true. }
    cbn zeta in H. rewrite Hw in H. rewrite decide_True in H by done.
    destruct H as [Hbl Htr]. split.
    + by rewrite Hobj, delete_delete_eq.
    + split; [done|]. split; [by rewrite Hobj, lookup_delete_eq|].
      rewrite Htr, !destructor_runs_cons, is_destruction_of_destroy_event. cbn.
      by rewrite Hr.
  - assert (Hd : decr (Z.of_nat (S (S m))) = Z.of_nat (S m)).
    { rewrite decr_small by lia. lia. }
    rewrite (DecreaseStrongCounter_nonzero _ _ _ Hb) by (cbn [strong_counter_]; lia).
    eexists. split; [reflexivity|]. cbn [strong_counter_]. rewrite Hd.
    split; [done|]. split; [lia|]. split; [|done].
    exists cls. cbn. by rewrite lookup_insert_eq.
Qed.

Lemma InitWeakThis_bound n σ :
  sot = true → block_inv b o v sot r0 O (S n) σ →
  InitWeakThis (mkShared (Some b) (Some o)) (Some o) σ = Ok tt σ.
Proof.
  intros Hsot (HO & Hlt & [cls Hb] & Ho & Hr).
  unfold managed_object in Ho. rewrite Hsot in Ho, Hb.
  unfold InitWeakThis, load_object. unfold_monad. rewrite Ho. cbn.
  unfold WeakPtr_from_shared. unfold_monad. cbn.
  rewrite (IncreaseWeakCounter_ok _ _ _ Hb). cbn.
  unfold WeakPtr_move_assign. unfold_monad. cbn.
  erewrite DecreaseWeakCounter_ok by apply lookup_insert_eq. cbn.
  change (incr 1) with 2%Z. change (decr 2) with 1%Z. cbn.
  f_equal. apply heap_eq; cbn; try done.
  - rewrite insert_insert_eq. by apply insert_id.
  - by apply insert_id.
Qed.

End Group.

Section GroupSteps.
Variables (b o : nat) (v : Z) (sot : bool) (r0 : nat) (O : gmap nat Object).

#[local] Abbreviation block_inv := (block_inv b o v sot r0 O).
#[local] Abbreviation group_inv := (group_inv b o v sot r0 O).
#[local] Abbreviation handles_inv := (handles_inv b).

Lemma release_handle h m σ :
  base_block_ h = None ∨ base_block_ h = Some b →
  block_inv (m + weight b h) σ →
  ∃ σ', match base_block_ h with
        | Some b' => DecreaseStrongCounter b'
        | None => mret tt
        end σ = Ok tt σ' ∧ block_inv m σ'.
Proof.
  intros [Hh|Hh] Hinv; rewrite Hh.
  - rewrite weight_other, Nat.add_0_r in Hinv by congruence. by exists σ.
  - rewrite weight_refers, Nat.add_1_r in Hinv by done.
    by apply block_inv_release.
Qed.

Lemma acquire_handle h m σ :
  base_block_ h = None ∨ base_block_ h = Some b →
  block_inv m σ →
  (base_block_ h = Some b → 1 ≤ m) →
  (Z.of_nat (m + weight b h) < SIZE_MODULUS)%Z →
  ∃ σ', match base_block_ h with
        | Some b' => IncreaseStrongCounter b'
        | None => mret tt
        end σ = Ok tt σ' ∧ block_inv (m + weight b h) σ'.
Proof.
  intros [Hh|Hh] Hinv Hm Hmax; rewrite Hh.
  - rewrite weight_other, Nat.add_0_r by congruence. by exists σ.
  - rewrite weight_refers in * by done. specialize (Hm Hh).
    destruct m as [|m]; [lia|]. rewrite Nat.add_1_r in *.
    by apply block_inv_acquire.
Qed.

Lemma init_handle (t : bool) this n σ :
  (t = true → sot = true ∧ this = mkShared (Some b) (Some o)) →
  (t = true → block_inv (S n) σ) →
  (if t then InitWeakThis this (observed_ptr_ this) else mret tt) σ = Ok tt σ.
Proof.
  intros Hthis Hinv. destruct t; [|done].
  destruct (Hthis eq_refl) as [Hsot ->]. cbn.
  apply (InitWeakThis_bound b o v sot r0 O n σ Hsot). by apply Hinv.
Qed.

Lemma live_count_pos k h (hs : gmap nat SharedPtr) :
  hs !! k = Some h → base_block_ h = Some b → 1 ≤ live_count b hs.
Proof.
  intros Hk Hh. rewrite (live_count_delete b k h hs Hk), weight_refers by done. lia.
Qed.

Lemma SharedPtr_copy_group (t : bool) s n σ :
  base_block_ s = None ∨ base_block_ s = Some b →
  block_inv n σ →
  (base_block_ s = Some b → 1 ≤ n) →
  (t = true → sot = true ∧ s = mkShared (Some b) (Some o)) →
  (Z.of_nat (n + weight b s) < SIZE_MODULUS)%Z →
  ∃ σ', SharedPtr_copy t s σ = Ok s σ' ∧ block_inv (n + weight b s) σ'.
Proof.
  intros Hs Hinv Hn Ht Hmax.
  destruct (acquire_handle s n σ Hs Hinv Hn Hmax) as (σ1 & E1 & Hinv1).
  destruct s as [sb sq]. cbn [base_block_ observed_ptr_] in *.
  assert (E2 : (if t
                then InitWeakThis (mkShared sb sq) sq
                else mret tt) σ1 = Ok tt σ1).
  { apply (init_handle t (mkShared sb sq) n); [done|].
    intros [_ Hs']%Ht. injection Hs' as -> ->.
    by rewrite weight_refers, Nat.add_1_r in Hinv1. }
  unfold SharedPtr_copy. cbn [base_block_ observed_ptr_] in *.
  mstep E1. mstep E2. by exists σ1.
Qed.

Lemma SharedPtr_alias_group (t : bool) s p n σ :
  base_block_ s = None ∨ base_block_ s = Some b →
  block_inv n σ →
  (base_block_ s = Some b → 1 ≤ n) →
  (t = true → sot = true ∧ base_block_ s = Some b ∧ p = Some o) →
  (Z.of_nat (n + weight b s) < SIZE_MODULUS)%Z →
  ∃ σ', SharedPtr_alias t s p σ = Ok (mkShared (base_block_ s) p) σ' ∧
        block_inv (n + weight b s) σ'.
Proof.
  intros Hs Hinv Hn Ht Hmax.
  destruct (acquire_handle s n σ Hs Hinv Hn Hmax) as (σ1 & E1 & Hinv1).
  assert (E2 : (if t
                then InitWeakThis (mkShared (base_block_ s) p) p
                else mret tt) σ1 = Ok tt σ1).
  { apply (init_handle t (mkShared (base_block_ s) p) n).
    - intros (? & -> & ->)%Ht. done.
    - intros (_ & Hs' & _)%Ht.
      by rewrite weight_refers, Nat.add_1_r in Hinv1. }
  unfold SharedPtr_alias. cbn [base_block_ observed_ptr_] in *.
  mstep E1. mstep E2. by exists σ1.
Qed.

Lemma SharedPtr_move_group (t : bool) s n σ :
  block_inv n σ →
  (t = true → sot = true ∧ s = mkShared (Some b) (Some o) ∧ 1 ≤ n) →
  SharedPtr_move t s σ = Ok (s, mkShared None None) σ.
Proof.
  intros Hinv Ht. destruct s as [sb sq].
  assert (E2 : (if t
                then InitWeakThis (mkShared sb sq) sq
                else mret tt) σ = Ok tt σ).
  { apply (init_handle t (mkShared sb sq) (pred n)).
    - intros (? & ? & _)%Ht. done.
    - intros (_ & _ & Hn)%Ht. by replace (S (pred n)) with n by lia. }
  unfold SharedPtr_move. cbn [base_block_ observed_ptr_] in *.
  by mstep E2.
Qed.

Lemma exec_group op hs σ :
  group_inv hs σ → op_ok sot b o hs op = true →
  (Z.of_nat (live_count b hs) + 1 < SIZE_MODULUS)%Z →
  ∃ σ', exec op hs σ = Ok (spec_step op hs) σ' ∧
        group_inv (spec_step op hs) σ'.
Proof.
  intros [Hhs Hinv] Hok Hmax. destruct op as
    [t src dst|t src dst|t src dst p|dst src|dst src|h|h]; cbn in Hok |- *.
  - (* copy construction *)
    destruct (hs !! src) as [s|] eqn:Hsrc; [|done].
    destruct (hs !! dst) eqn:Hdst; [done|].
    pose proof (Hhs _ _ Hsrc) as Hs.
    destruct (SharedPtr_copy_group t s _ σ Hs Hinv) as (σ1 & E1 & Hinv1).
    { intros. by eapply live_count_pos. }
    { intros Ht. rewrite Ht in Hok. cbn in Hok.
      apply andb_true_iff in Hok as [Hsot Hok].
      by apply bool_decide_eq_true in Hok. }
    { unfold weight. destruct (refers_to b s); lia. }
    mstep E1. exists σ1. split; [done|split].
    + by apply handles_inv_insert.
    + by rewrite live_count_fresh.
  - (* move construction *)
    destruct (hs !! src) as [s|] eqn:Hsrc; [|done].
    destruct (hs !! dst) eqn:Hdst; [done|].
    pose proof (Hhs _ _ Hsrc) as Hs.
    assert (src ≠ dst) by congruence.
    assert (E1 : SharedPtr_move t s σ = Ok (s, mkShared None None) σ).
    { apply (SharedPtr_move_group t s _ σ Hinv).
      intros Ht. rewrite Ht in Hok. cbn in Hok.
      apply andb_true_iff in Hok as [Hsot Hok].
      apply bool_decide_eq_true in Hok.
      split; [done|]. split; [done|]. subst s. by eapply live_count_pos. }
    mstep E1.
    exists σ. split; [done|split].
    + apply handles_inv_insert; [|done]. apply handles_inv_insert; [done|by left].
    + rewrite live_count_fresh by by rewrite lookup_insert_ne.
      rewrite live_count_insert, weight_empty, Nat.add_0_r.
      by rewrite <- (live_count_delete b src s hs).
  - (* aliasing construction *)
    destruct (hs !! src) as [s|] eqn:Hsrc; [|done].
    destruct (hs !! dst) eqn:Hdst; [done|].
    pose proof (Hhs _ _ Hsrc) as Hs.
    destruct (SharedPtr_alias_group t s p _ σ Hs Hinv) as (σ1 & E1 & Hinv1).
    { intros. by eapply live_count_pos. }
    { intros Ht. rewrite Ht in Hok. cbn in Hok.
      apply andb_true_iff in Hok as [Hsot Hok].
      by apply bool_decide_eq_true in Hok. }
    { unfold weight. destruct (refers_to b s); lia. }
    mstep E1. exists σ1. split; [done|split].
    + by apply handles_inv_insert.
    + rewrite live_count_fresh by done.
      replace (weight b (mkShared (base_block_ s) p)) with (weight b s); done.
  - (* copy assignment *)
    destruct (hs !! dst) as [d|] eqn:Hdst; [|done].
    destruct (hs !! src) as [s|] eqn:Hsrc; [|done].
    pose proof (Hhs _ _ Hsrc) as Hs. pose proof (Hhs _ _ Hdst) as Hd.
    case_bool_decide as Heq.
    + subst dst. rewrite Hdst in Hsrc. injection Hsrc as <-.
      unfold SharedPtr_copy_assign.
      mstep (mret_Ok d σ). rewrite insert_id by done. by exists σ.
    + rewrite (live_count_delete b dst d hs Hdst) in Hinv, Hmax.
      destruct (release_handle d _ σ Hd Hinv) as (σ1 & E1 & Hinv1).
      assert (Hsrc' : delete dst hs !! src = Some s) by by rewrite lookup_delete_ne.
      destruct (acquire_handle s _ σ1 Hs Hinv1) as (σ2 & E2 & Hinv2).
      { intros. by eapply live_count_pos. }
      { unfold weight in *. destruct (refers_to b s), (refers_to b d); lia. }
      assert (E : SharedPtr_copy_assign false d s σ = Ok s σ2).
      { unfold SharedPtr_copy_assign. mstep E1. mstep E2. by destruct s. }
      mstep E. exists σ2. split; [done|split].
      * by apply handles_inv_insert.
      * by rewrite live_count_insert.
  - (* move assignment *)
    destruct (hs !! dst) as [d|] eqn:Hdst; [|done].
    destruct (hs !! src) as [s|] eqn:Hsrc; [|done].
    pose proof (Hhs _ _ Hsrc) as Hs. pose proof (Hhs _ _ Hdst) as Hd.
    case_bool_decide as Heq.
    + subst dst. rewrite Hdst in Hsrc. injection Hsrc as <-.
      unfold SharedPtr_move_assign.
      mstep (mret_Ok (d, d) σ). rewrite !insert_id by by rewrite ?insert_id.
      by exists σ.
    + rewrite (live_count_delete b dst d hs Hdst) in Hinv.
      destruct (release_handle d _ σ Hd Hinv) as (σ1 & E1 & Hinv1).
      assert (E : SharedPtr_move_assign false d s σ
                  = Ok (s, mkShared None None) σ1).
      { unfold SharedPtr_move_assign. mstep E1. by destruct s. }
      mstep E. exists σ1. split; [done|split].
      * apply handles_inv_insert; [|done]. apply handles_inv_insert; [done|by left].
      * rewrite live_count_insert, delete_insert_ne by done.
        rewrite live_count_insert, weight_empty, Nat.add_0_r.
        assert (Hsrc' : delete dst hs !! src = Some s) by by rewrite lookup_delete_ne.
        by rewrite <- (live_count_delete b src s _ Hsrc').
  - (* reset *)
    destruct (hs !! h) as [x|] eqn:Hh; [|done].
    pose proof (Hhs _ _ Hh) as Hx.
    rewrite (live_count_delete b h x hs Hh) in Hinv.
    destruct (release_handle x _ σ Hx Hinv) as (σ1 & E1 & Hinv1).
    assert (E : Reset x σ = Ok (mkShared None None) σ1).
    { unfold Reset. by mstep E1. }
    mstep E. exists σ1. split; [done|split].
    + apply handles_inv_insert; [done|by left].
    + by rewrite live_count_insert, weight_empty, Nat.add_0_r.
  - (* destruction *)
    destruct (hs !! h) as [x|] eqn:Hh; [|done].
    pose proof (Hhs _ _ Hh) as Hx.
    rewrite (live_count_delete b h x hs Hh) in Hinv.
    destruct (release_handle x _ σ Hx Hinv) as (σ1 & E1 & Hinv1).
    unfold SharedPtr_dtor. mstep E1.
    exists σ1. split; [done|split].
    + by apply handles_inv_delete.
    + done.
Qed.
End GroupSteps.

(** ** Both construction paths establish the group invariant *)

Lemma fresh_object_lookup σ : objects σ !! fresh (dom (objects σ)) = None.
Proof. apply not_elem_of_dom, is_fresh. Qed.

Lemma InitWeakThis_fresh σ b o v blk :
  blocks σ !! b = Some blk →
  objects σ !! o = Some (mkObject v (Some (mkWeak None None))) →
  InitWeakThis (mkShared (Some b) (Some o)) (Some o) σ
  = Ok tt (set_objects (insert o (mkObject v (Some (mkWeak (Some b) (Some o)))))
             (set_blocks (insert b (with_weak (incr (weak_counter_ blk)) blk)) σ)).
Proof.
  intros Hb Ho. unfold InitWeakThis, load_object. unfold_monad. rewrite Ho. cbn.
  unfold WeakPtr_from_shared. unfold_monad. cbn.
  by rewrite (IncreaseWeakCounter_ok _ _ _ Hb).
Qed.

Lemma new_block_ok blk σ :
  new_block blk σ
  = Ok (fresh (dom (blocks σ)))
       (count_allocation (set_blocks (insert (fresh (dom (blocks σ))) blk) σ)).
Proof. reflexivity. Qed.

Lemma new_object_ok obj σ :
  new_object obj σ
  = Ok (fresh (dom (objects σ)))
       (count_allocation (set_objects (insert (fresh (dom (objects σ))) obj) σ)).
Proof. reflexivity. Qed.

Lemma construct_in_place_ok obj σ :
  construct_in_place obj σ
  = Ok (fresh (dom (objects σ)))
       (set_objects (insert (fresh (dom (objects σ))) obj) σ).
Proof. reflexivity. Qed.

Lemma store_block_ok b blk σ :
  store_block b blk σ = Ok tt (set_blocks (insert b blk) σ).
Proof. reflexivity. Qed.

Section Construction.
Variables (v : Z) (σ0 : Heap).

#[local] Abbreviation first_block := (first_block σ0).
#[local] Abbreviation first_object := (first_object σ0).
#[local] Abbreviation first_handle := (first_handle σ0).

Lemma first_block_inv (sot : bool) cls σ1 :
  blocks σ1 !! first_block
  = Some (mkBlock cls 1 (if sot then 1 else 0) (Some first_object)) →
  objects σ1
  = <[first_object := managed_object first_block first_object v sot]> (objects σ0) →
  trace σ1 = trace σ0 →
  block_inv first_block first_object v sot
    (destructor_runs first_object (trace σ0)) (objects σ0) 1 σ1.
Proof.
  intros Hb Ho Ht. unfold block_inv. rewrite Ho, Ht, Hb.
  rewrite delete_insert_eq, lookup_insert_eq.
  rewrite delete_id by apply fresh_object_lookup.
  repeat split; try done. by exists cls.
Qed.

Lemma MakeShared_group (sot : bool) :
  ∃ σ1, MakeShared sot v σ0 = Ok first_handle σ1 ∧
        allocations σ1 = S (allocations σ0) ∧
        block_inv first_block first_object v sot
          (destructor_runs first_object (trace σ0)) (objects σ0) 1 σ1.
Proof.
  unfold MakeShared.
  mstep (new_block_ok (mkBlock ObjectControlBlock 1 0 None) σ0).
  fold first_block. erewrite bind_Ok by apply construct_in_place_ok.
  hsimpl. fold first_object.
  erewrite bind_Ok by (apply load_block_ok; hsimpl; apply lookup_insert_eq).
  erewrite bind_Ok by apply store_block_ok. hsimpl.
  destruct sot.
  - erewrite bind_Ok by
      (apply InitWeakThis_fresh; cbn; apply lookup_insert_eq).
    eexists. split; [reflexivity|]. split; [done|].
    apply (first_block_inv _ ObjectControlBlock); cbn.
    + by rewrite lookup_insert_eq.
    + by rewrite insert_insert_eq.
    + done.
  - erewrite bind_Ok by reflexivity.
    eexists. split; [reflexivity|]. split; [done|].
    apply (first_block_inv _ ObjectControlBlock); cbn.
    + by rewrite lookup_insert_eq.
    + done.
    + done.
Qed.

Lemma SharedPtr_new_group (sot : bool) :
  ∃ σ1, SharedPtr_new sot v σ0 = Ok first_handle σ1 ∧
        allocations σ1 = S (S (allocations σ0)) ∧
        block_inv first_block first_object v sot
          (destructor_runs first_object (trace σ0)) (objects σ0) 1 σ1.
Proof.
  unfold SharedPtr_new, new_T.
  erewrite bind_Ok by apply new_object_ok. fold first_object.
  unfold SharedPtr_from_raw.
  erewrite bind_Ok by apply new_block_ok. hsimpl. fold first_block.
  destruct sot.
  - erewrite bind_Ok by
      (apply InitWeakThis_fresh; cbn; apply lookup_insert_eq).
    eexists. split; [reflexivity|]. split; [done|].
    apply (first_block_inv _ PtrControlBlock); cbn.
    + by rewrite lookup_insert_eq.
    + by rewrite insert_insert_eq.
    + done.
  - erewrite bind_Ok by reflexivity.
    eexists. split; [reflexivity|]. split; [done|].
    apply (first_block_inv _ PtrControlBlock); cbn.
    + by rewrite lookup_insert_eq.
    + done.
    + done.
Qed.

End Construction.

Section GroupRuns.
Variables (b o : nat) (v : Z) (sot : bool) (r0 : nat) (O : gmap nat Object).

#[local] Abbreviation block_inv' := (block_inv b o v sot r0 O).
#[local] Abbreviation group_inv' := (group_inv b o v sot r0 O).

Lemma live_count_delete_le k (hs : gmap nat SharedPtr) :
  live_count b (delete k hs) ≤ live_count b hs.
Proof.
  destruct (hs !! k) as [h|] eqn:Hk.
  - rewrite (live_count_delete b k h hs Hk). lia.
  - by rewrite delete_id.
Qed.

Lemma weight_le h : weight b h ≤ 1.
Proof. unfold weight. destruct (refers_to b h); lia. Qed.

Lemma live_count_insert_le k h (hs : gmap nat SharedPtr) :
  live_count b (<[k := h]> hs) ≤ live_count b hs + weight b h.
Proof.
  rewrite live_count_insert. pose proof (live_count_delete_le k hs). lia.
Qed.

Lemma live_count_spec_step op hs :
  live_count b (spec_step op hs) ≤ live_count b hs + 1.
Proof.
  destruct op as [t src dst|t src dst|t src dst p|dst src|dst src|h|h]; cbn;
    try (destruct (hs !! src) as [s|]; [|lia]).
  - pose proof (live_count_insert_le dst s hs). pose proof (weight_le s). lia.
  - pose proof (live_count_insert_le dst s (<[src:=mkShared None None]> hs)).
    pose proof (live_count_insert_le src (mkShared None None) hs).
    pose proof (weight_le s). rewrite weight_empty in *. lia.
  - pose proof (live_count_insert_le dst (mkShared (base_block_ s) p) hs).
    pose proof (weight_le (mkShared (base_block_ s) p)). lia.
  - pose proof (live_count_insert_le dst s hs). pose proof (weight_le s). lia.
  - case_bool_decide; [lia|].
    pose proof (live_count_insert_le dst s (<[src:=mkShared None None]> hs)).
    pose proof (live_count_insert_le src (mkShared None None) hs).
    pose proof (weight_le s). rewrite weight_empty in *. lia.
  - pose proof (live_count_insert_le h (mkShared None None) hs).
    rewrite weight_empty in *. lia.
  - pose proof (live_count_delete_le h hs). lia.
Qed.

Lemma run_group ops : ∀ hs σ,
  group_inv' hs σ → ops_ok sot b o hs ops = true →
  (Z.of_nat (live_count b hs + length ops) < SIZE_MODULUS)%Z →
  ∃ σ', run ops hs σ = Ok (spec_run ops hs) σ' ∧
        group_inv' (spec_run ops hs) σ'.
Proof.
  induction ops as [|op ops IH]; intros hs σ Hinv Hok Hmax.
  - by exists σ.
  - cbn in Hok. apply andb_true_iff in Hok as [Hop Hops]. cbn [length] in Hmax.
    destruct (exec_group b o v sot r0 O op hs σ Hinv Hop) as (σ1 & E1 & Hinv1);
      [lia|].
    destruct (IH _ σ1 Hinv1 Hops) as (σ' & E & Hinv').
    { pose proof (live_count_spec_step op hs). lia. }
    exists σ'. split; [|done]. cbn [run]. by mstep E1.
Qed.

Lemma UseCount_group hs σ k h :
  group_inv' hs σ → hs !! k = Some h →
  UseCount h σ
  = Ok (if refers_to b h then Z.of_nat (live_count b hs) else 0%Z) σ.
Proof.
  intros [Hhs Hinv] Hk. unfold refers_to, UseCount.
  destruct (Hhs _ _ Hk) as [Hh|Hh]; rewrite Hh.
  - by rewrite bool_decide_false.
  - rewrite bool_decide_true by done.
    pose proof (live_count_pos b k h hs Hk Hh) as Hpos.
    destruct (live_count b hs) as [|m]; [lia|].
    destruct Hinv as (_ & _ & [cls Hb] & _).
    by rewrite (GetStrongCounter_ok _ _ _ Hb).
Qed.

Lemma deref_group n σ h :
  block_inv' n σ →
  result (deref h σ)
  = match observed_ptr_ h with
    | Some q =>
        if bool_decide (q = o)
        then match n with 0 => None | S _ => Some v end
        else value <$> O !! q
    | None => None
    end.
Proof.
  intros [HO Hinv]. unfold deref, load_object. unfold_monad.
  destruct (observed_ptr_ h) as [q|]; [|done].
  case_bool_decide as Hq.
  - subst q. destruct n.
    + destruct Hinv as (_ & -> & _). done.
    + destruct Hinv as (_ & _ & -> & _). done.
  - rewrite <- HO, lookup_delete_ne by done.
    by destruct (objects σ !! q).
Qed.

Lemma destructor_runs_group n σ :
  block_inv' n σ →
  destructor_runs o (trace σ) = r0 + match n with 0 => 1 | S _ => 0 end.
Proof.
  intros [_ Hinv]. destruct n.
  - destruct Hinv as (_ & _ & ->). lia.
  - destruct Hinv as (_ & _ & _ & ->). lia.
Qed.

Lemma observe_group hs σ :
  group_inv' hs σ → observe o hs σ = spec_observe b o v O r0 hs.
Proof.
  intros Hinv. unfold observe, spec_observe. f_equal.
  - apply map_fmap_ext. intros k h Hk.
    unfold observe_handle, spec_observe_handle. f_equal.
    + by rewrite (UseCount_group hs σ k h Hinv Hk).
    + apply deref_group. by destruct Hinv.
  - apply destructor_runs_group. by destruct Hinv.
Qed.

Lemma run_observing_group ops : ∀ hs σ,
  group_inv' hs σ → ops_ok sot b o hs ops = true →
  (Z.of_nat (live_count b hs + length ops) < SIZE_MODULUS)%Z →
  run_observing o ops hs σ = spec_observations b o v O r0 ops hs.
Proof.
  induction ops as [|op ops IH]; intros hs σ Hinv Hok Hmax; [done|].
  cbn in Hok. apply andb_true_iff in Hok as [Hop Hops]. cbn [length] in Hmax.
  destruct (exec_group b o v sot r0 O op hs σ Hinv Hop) as (σ1 & E1 & Hinv1);
    [lia|].
  cbn [run_observing spec_observations]. rewrite E1. f_equal.
  - f_equal. by apply observe_group.
  - apply IH; [done..|]. pose proof (live_count_spec_step op hs). lia.
Qed.

End GroupRuns.

(** ** Programs from construction onwards *)

Lemma live_count_empty b : live_count b ∅ = 0.
Proof. unfold live_count. by rewrite map_filter_empty, map_size_empty. Qed.

Lemma live_count_singleton b k h : live_count b {[k := h]} = weight b h.
Proof.
  rewrite <- insert_empty, live_count_fresh by apply lookup_empty.
  by rewrite live_count_empty.
Qed.

Lemma ops_ok_app sot b o ops1 : ∀ ops2 hs,
  ops_ok sot b o hs (ops1 ++ ops2)
  = ops_ok sot b o hs ops1 && ops_ok sot b o (spec_run ops1 hs) ops2.
Proof.
  induction ops1 as [|op ops1 IH]; intros ops2 hs; [done|].
  cbn. rewrite IH. by rewrite andb_assoc.
Qed.

Lemma ops_ok_take sot b o ops k hs :
  ops_ok sot b o hs ops = true → ops_ok sot b o hs (take k ops) = true.
Proof.
  intros H. rewrite <- (take_drop k ops), ops_ok_app in H.
  by apply andb_true_iff in H as [H _].
Qed.

Lemma group_inv_first sot v σ0 σ1 :
  block_inv (first_block σ0) (first_object σ0) v sot
    (destructor_runs (first_object σ0) (trace σ0)) (objects σ0) 1 σ1 →
  group_inv (first_block σ0) (first_object σ0) v sot
    (destructor_runs (first_object σ0) (trace σ0)) (objects σ0)
    {[0 := first_handle σ0]} σ1.
Proof.
  intros Hinv. split.
  - intros k h [_ <-]%lookup_singleton_Some. by right.
  - by rewrite live_count_singleton, weight_refers.
Qed.

Lemma construct_group (sot co : bool) v σ0 :
  ∃ σ1, (if co then MakeShared sot v else SharedPtr_new sot v) σ0
        = Ok (first_handle σ0) σ1 ∧
        group_inv (first_block σ0) (first_object σ0) v sot
          (destructor_runs (first_object σ0) (trace σ0)) (objects σ0)
          {[0 := first_handle σ0]} σ1.
Proof.
  destruct co.
  - destruct (MakeShared_group v σ0 sot) as (σ1 & E & _ & Hinv).
    exists σ1. split; [done|]. by apply group_inv_first.
  - destruct (SharedPtr_new_group v σ0 sot) as (σ1 & E & _ & Hinv).
    exists σ1. split; [done|]. by apply group_inv_first.
Qed.

(** Strong counting, for programs in scope.  Build handle [0] by either
    construction path in any heap, for a plain or a self-observing
    class, and run any program of copy, move, aliasing, assignment,
    reset and destroy statements that is in scope ([ops_ok]) and keeps
    the number of handles within [size_t].  After every prefix of the
    program: the run is defined; [UseCount()] on each live handle of the
    block is the number of live handles that reference the block, and 0
    on an empty handle; the destructor of the managed object has run
    once if that number is 0 and not at all otherwise, so it runs
    exactly at the statement that removes the last handle; the object is
    alive exactly while that number is not 0.  A moved-from handle is
    empty, and destroying an empty handle changes nothing.  For a plain
    class every program on variables in scope is in scope; for a
    self-observing class [ops_ok] leaves out the constructions that
    hand [InitWeakThis] anything but the managed object. *)
Lemma use_count_equals_live_strong_handles
    (sot co : bool) (v : Z) (σ0 : Heap) (ops : list Op) (k : nat) :
  let b := first_block σ0 in
  let o := first_object σ0 in
  let h0 := first_handle σ0 in
  ops_ok sot b o {[0 := h0]} ops = true →
  (Z.of_nat (1 + length ops) < SIZE_MODULUS)%Z →
  ∃ σ1 σ',
    (if co then MakeShared sot v else SharedPtr_new sot v) σ0 = Ok h0 σ1 ∧
    let hs := spec_run (take k ops) {[0 := h0]} in
    let n := live_count b hs in
    run (take k ops) {[0 := h0]} σ1 = Ok hs σ' ∧
    (∀ i h, hs !! i = Some h →
       UseCount h σ' = Ok (if refers_to b h then Z.of_nat n else 0%Z) σ') ∧
    destructor_runs o (trace σ')
    = destructor_runs o (trace σ0) + match n with 0 => 1 | S _ => 0 end ∧
    (is_Some (objects σ' !! o) ↔ n ≠ 0) ∧
    (∀ t s σ r σ2, SharedPtr_move t s σ = Ok r σ2 → r.2 = mkShared None None) ∧
    (∀ σ, SharedPtr_dtor (mkShared None None) σ = Ok tt σ).
Proof.
  intros b o h0 Hok Hmax.
  destruct (construct_group sot co v σ0) as (σ1 & E1 & Hinv1).
  destruct (run_group b o v sot _ _ (take k ops) _ σ1 Hinv1) as (σ' & E & Hinv').
  { by apply ops_ok_take. }
  { rewrite live_count_singleton, weight_refers by done.
    rewrite length_take. lia. }
  exists σ1, σ'. split; [done|]. cbn zeta. split; [done|].
  split; [|split; [|split; [|split]]].
  - intros i h Hi. by eapply UseCount_group.
  - eapply destructor_runs_group. by destruct Hinv'.
  - destruct Hinv' as [_ [_ Hinv']].
    destruct (live_count b _) as [|m].
    + destruct Hinv' as (_ & -> & _). split; [by intros [? ?]|done].
    + destruct Hinv' as (_ & _ & -> & _). split; [done|by eexists].
  - intros t s σ r σ2 H. unfold SharedPtr_move in H. inv_bind H. by subst.
  - done.
Qed.

Lemma use_count_equals_live_strong_handles_witness :
  ∃ σ1 σ',
    MakeShared true 5 σ_empty = Ok (mkShared (Some 0) (Some 0)) σ1 ∧
    run demo_ops {[0 := mkShared (Some 0) (Some 0)]} σ1
    = Ok {[1 := mkShared None None]} σ' ∧
    destructor_runs 0 (trace σ') = 1.
Proof.
  destruct (use_count_equals_live_strong_handles true true 5 σ_empty demo_ops 5)
    as (σ1 & σ' & E1 & E & _ & Hr & _).
  - vm_compute. reflexivity.
  - vm_compute. reflexivity.
  - exists σ1, σ'. split; [exact E1|]. split; [exact E|exact Hr].
Defined.

(** C1, evaluated on a sequence of move and copy at a self-observing
    class: build the handle by either construction path, move it into a
    second variable, which leaves the first one empty and the count at
    1, and then copy-construct (or move-construct) a third variable from
    the moved-from one.  The constructor calls [InitWeakThis] on the
    null observed pointer of the empty source. *)
Theorem copy_of_moved_from_handle_undefined (co : bool) (v : Z) (σ0 : Heap) :
  let h0 := first_handle σ0 in
  ∃ σ1 σ2,
    (if co then MakeShared true v else SharedPtr_new true v) σ0 = Ok h0 σ1 ∧
    run [OpMove true 0 1] {[0 := h0]} σ1
    = Ok {[0 := mkShared None None; 1 := h0]} σ2 ∧
    UseCount h0 σ2 = Ok 1%Z σ2 ∧
    run [OpMove true 0 1; OpCopy true 0 2] {[0 := h0]} σ1 = UB ∧
    run [OpMove true 0 1; OpMove true 0 2] {[0 := h0]} σ1 = UB.
Proof.
  intros h0.
  destruct (construct_group true co v σ0) as (σ1 & E1 & Hinv1).
  set (b := first_block σ0) in *. set (o := first_object σ0) in *.
  assert (Hok : op_ok true b o {[0 := h0]} (OpMove true 0 1) = true).
  { cbn. rewrite lookup_singleton_eq, lookup_singleton_ne by done.
    cbn. by rewrite bool_decide_true. }
  destruct (exec_group b o v true _ _ (OpMove true 0 1) _ σ1 Hinv1 Hok)
    as (σ2 & E2 & Hinv2).
  { rewrite live_count_singleton, weight_refers by done. unfold SIZE_MODULUS. lia. }
  assert (Hhs : spec_step (OpMove true 0 1) {[0 := h0]}
                = {[0 := mkShared None None; 1 := h0]}).
  { cbn. rewrite lookup_singleton_eq, insert_singleton_eq.
    apply map_eq. intros i.
    destruct (decide (i = 0)) as [->|?]; [done|].
    destruct (decide (i = 1)) as [->|?]; [done|].
    by rewrite !lookup_insert_ne, !lookup_singleton_ne. }
  fold h0 in E2, Hinv2. rewrite Hhs in E2, Hinv2.
  assert (H0 : ({[0 := mkShared None None; 1 := h0]} : gmap nat SharedPtr) !! 0
               = Some (mkShared None None)) by done.
  assert (H2 : ({[0 := mkShared None None; 1 := h0]} : gmap nat SharedPtr) !! 2
               = None) by done.
  exists σ1, σ2. split; [exact E1|]. split; [|split; [|split]].
  - cbn [run]. by mstep E2.
  - rewrite (UseCount_group b o v true _ _ _ σ2 1 h0 Hinv2) by done.
    unfold refers_to. rewrite bool_decide_true by done.
    rewrite live_count_fresh by done.
    by rewrite live_count_singleton, weight_empty, weight_refers.
  - cbn [run]. mstep E2. cbn [exec]. rewrite H0, H2. reflexivity.
  - cbn [run]. mstep E2. cbn [exec]. rewrite H0, H2. reflexivity.
Qed.

Lemma spec_observations_defined b o v O r0 ops : ∀ hs,
  Forall is_Some (spec_observations b o v O r0 ops hs) ∧
  length (spec_observations b o v O r0 ops hs) = length ops.
Proof.
  induction ops as [|op ops IH]; intros hs; cbn; [done|].
  destruct (IH (spec_step op hs)) as [HF HL]. split.
  - by constructor.
  - by rewrite HL.
Qed.

(** C8. Construction equivalence.  In any heap, [MakeShared<T>(v)] and
    [SharedPtr<T>(new T(v))] return the same handle, with one allocation
    against two; dereferencing it reads [v] on both sides; and under any
    program in scope that keeps the number of handles within [size_t],
    the observations after each statement (for every live handle
    [UseCount()], the dereferenced payload, the boolean test and
    [Get()], and the number of destructor runs of the managed object)
    are the same on both sides and all defined. *)
Theorem construction_paths_equivalent
    (sot : bool) (v : Z) (σ0 : Heap) (ops : list Op) :
  let b := first_block σ0 in
  let o := first_object σ0 in
  let h0 := first_handle σ0 in
  ops_ok sot b o {[0 := h0]} ops = true →
  (Z.of_nat (1 + length ops) < SIZE_MODULUS)%Z →
  ∃ σa σb,
    MakeShared sot v σ0 = Ok h0 σa ∧
    SharedPtr_new sot v σ0 = Ok h0 σb ∧
    allocations σa = S (allocations σ0) ∧
    allocations σb = S (S (allocations σ0)) ∧
    deref h0 σa = Ok v σa ∧
    deref h0 σb = Ok v σb ∧
    observe o {[0 := h0]} σa = observe o {[0 := h0]} σb ∧
    run_observing o ops {[0 := h0]} σa
    = run_observing o ops {[0 := h0]} σb ∧
    Forall is_Some (run_observing o ops {[0 := h0]} σa) ∧
    length (run_observing o ops {[0 := h0]} σa) = length ops.
Proof.
  intros b o h0 Hok Hmax.
  destruct (MakeShared_group v σ0 sot) as (σa & Ea & Hala & Hinva).
  destruct (SharedPtr_new_group v σ0 sot) as (σb & Eb & Halb & Hinvb).
  pose proof (group_inv_first _ _ _ _ Hinva) as Hga.
  pose proof (group_inv_first _ _ _ _ Hinvb) as Hgb.
  assert (Hbound : (Z.of_nat (live_count b {[0%nat := h0]} + length ops)
                    < SIZE_MODULUS)%Z).
  { rewrite live_count_singleton, weight_refers by done. lia. }
  assert (Hderef : ∀ σ,
    block_inv b o v sot (destructor_runs o (trace σ0)) (objects σ0) 1 σ →
    deref h0 σ = Ok v σ).
  { intros σ (_ & _ & _ & Ho & _). unfold deref, load_object. unfold_monad.
    cbn. fold o. by rewrite Ho. }
  exists σa, σb. do 4 (split; [done|]). do 2 (split; [by apply Hderef|]).
  clear Hderef. subst b o h0.
  rewrite (observe_group _ _ _ _ _ _ _ _ Hga), (observe_group _ _ _ _ _ _ _ _ Hgb).
  rewrite (run_observing_group _ _ _ _ _ _ ops _ _ Hga Hok Hbound).
  rewrite (run_observing_group _ _ _ _ _ _ ops _ _ Hgb Hok Hbound).
  split; [done|]. split; [done|]. apply spec_observations_defined.
Qed.

Lemma construction_paths_equivalent_witness :
  ∃ σa σb,
    MakeShared true 5 σ_empty = Ok (mkShared (Some 0) (Some 0)) σa ∧
    SharedPtr_new true 5 σ_empty = Ok (mkShared (Some 0) (Some 0)) σb ∧
    allocations σa = 1 ∧ allocations σb = 2 ∧
    run_observing 0 demo_ops {[0 := mkShared (Some 0) (Some 0)]} σa
    = run_observing 0 demo_ops {[0 := mkShared (Some 0) (Some 0)]} σb.
Proof.
  destruct (construction_paths_equivalent true 5 σ_empty demo_ops)
    as (σa & σb & Ea & Eb & Ha & Hb & _ & _ & _ & Hrun & _).
  - vm_compute. reflexivity.
  - vm_compute. reflexivity.
  - exists σa, σb. split; [exact Ea|]. split; [exact Eb|].
    split; [exact Ha|]. split; [exact Hb|exact Hrun].
Defined.

Lemma run_app ops1 : ∀ ops2 hs σ hs1 σ1,
  run ops1 hs σ = Ok hs1 σ1 →
  run (ops1 ++ ops2) hs σ = run ops2 hs1 σ1.
Proof.
  induction ops1 as [|op ops1 IH]; intros ops2 hs σ hs1 σ1 H.
  - cbn in H. by injection H as -> ->.
  - cbn [run app] in *. apply bind_Ok_inv in H as (hs' & σ' & E & H).
    mstep E. by apply IH.
Qed.

Lemma live_count_spec_run b ops : ∀ hs,
  live_count b (spec_run ops hs) ≤ live_count b hs + length ops.
Proof.
  induction ops as [|op ops IH]; intros hs; cbn; [lia|].
  etrans; [apply IH|]. pose proof (live_count_spec_step b op hs). lia.
Qed.

(** Aliasing, for programs in scope.  At an aliasing construction
    [SharedPtr<T> dst(src, p)] whose source refers to the block, with
    any pointer [p] when [T] is plain (and [p] the managed object when
    [T] is self-observing, as [ops_ok] asks of every constructor that
    calls [InitWeakThis]): the new handle shares the block, [Get()] on
    it is [p], and the strong count goes from the number of live handles
    to that number plus one.  After any continuation of the program, as
    long as some live handle still refers to the block, the managed
    object is alive with its payload and its destructor has not run. *)
Lemma aliasing_keeps_original_object_alive
    (sot co t : bool) (v : Z) (σ0 : Heap) (ops1 ops2 : list Op)
    (src dst : nat) (p : ptr) (s : SharedPtr) :
  let b := first_block σ0 in
  let o := first_object σ0 in
  let h0 := first_handle σ0 in
  let hs1 := spec_run ops1 {[0 := h0]} in
  let a := mkShared (Some b) p in
  let hs2 := <[dst := a]> hs1 in
  let hs3 := spec_run ops2 hs2 in
  ops_ok sot b o {[0 := h0]} (ops1 ++ OpAlias t src dst p :: ops2) = true →
  hs1 !! src = Some s →
  base_block_ s = Some b →
  (Z.of_nat (1 + length (ops1 ++ OpAlias t src dst p :: ops2)) < SIZE_MODULUS)%Z →
  ∃ σ1 σ2 σ3 σ4,
    (if co then MakeShared sot v else SharedPtr_new sot v) σ0 = Ok h0 σ1 ∧
    run ops1 {[0 := h0]} σ1 = Ok hs1 σ2 ∧
    SharedPtr_alias t s p σ2 = Ok a σ3 ∧
    exec (OpAlias t src dst p) hs1 σ2 = Ok hs2 σ3 ∧
    Get a = p ∧
    UseCount s σ2 = Ok (Z.of_nat (live_count b hs1)) σ2 ∧
    UseCount a σ3 = Ok (Z.of_nat (live_count b hs1) + 1)%Z σ3 ∧
    run ops2 hs2 σ3 = Ok hs3 σ4 ∧
    run (ops1 ++ OpAlias t src dst p :: ops2) {[0 := h0]} σ1 = Ok hs3 σ4 ∧
    ((∃ i h, hs3 !! i = Some h ∧ base_block_ h = Some b) →
     ∃ obj, objects σ4 !! o = Some obj ∧ value obj = v ∧
            destructor_runs o (trace σ4) = destructor_runs o (trace σ0)).
Proof.
  intros b o h0 hs1 a hs2 hs3 Hok Hsrc Hs Hmax.
  rewrite ops_ok_app in Hok. apply andb_true_iff in Hok as [Hok1 Hok23].
  cbn [ops_ok] in Hok23. apply andb_true_iff in Hok23 as [Hok2 Hok3].
  rewrite length_app in Hmax. cbn [length] in Hmax.
  destruct (construct_group sot co v σ0) as (σ1 & E1 & Hinv1).
  destruct (run_group b o v sot _ _ ops1 _ σ1 Hinv1 Hok1) as (σ2 & E2 & Hinv2).
  { rewrite live_count_singleton, weight_refers by done. lia. }
  fold h0 hs1 in E2, Hinv2.
  assert (Hn1 : live_count b hs1 ≤ 1 + length ops1).
  { subst hs1. rewrite live_count_spec_run, live_count_singleton.
    pose proof (weight_le b h0). lia. }
  destruct (exec_group b o v sot _ _ (OpAlias t src dst p) hs1 σ2 Hinv2 Hok2)
    as (σ3 & E3 & Hinv3); [lia|].
  assert (Hstep : spec_step (OpAlias t src dst p) hs1 = hs2).
  { cbn. fold hs1. rewrite Hsrc. by rewrite Hs. }
  fold hs1 in Hok3. rewrite Hstep in E3, Hinv3, Hok3.
  destruct (run_group b o v sot _ _ ops2 _ σ3 Hinv3 Hok3) as (σ4 & E4 & Hinv4).
  { pose proof (live_count_spec_step b (OpAlias t src dst p) hs1) as Hle.
    rewrite Hstep in Hle. lia. }
  exists σ1, σ2, σ3, σ4.
  assert (Hdst : hs1 !! dst = None).
  { cbn in Hok2. fold hs1 in Hok2. rewrite Hsrc in Hok2.
    by destruct (hs1 !! dst). }
  assert (Hlc2 : live_count b hs2 = live_count b hs1 + 1).
  { subst hs2. rewrite live_count_fresh by done. by rewrite weight_refers. }
  split; [done|]. split; [done|]. split.
  { cbn [exec] in E3. rewrite Hsrc, Hdst in E3.
    apply bind_Ok_inv in E3 as (this & σ & E & E3).
    apply ret_Ok_inv in E3 as [E3 ->].
    assert (this = a) as ->; [|done].
    assert (H : (<[dst:=this]> hs1) !! dst = hs2 !! dst) by by rewrite E3.
    subst hs2. rewrite !lookup_insert_eq in H. by injection H. }
  split; [done|]. split; [done|]. split.
  { rewrite (UseCount_group b o v sot _ _ hs1 σ2 src s Hinv2 Hsrc).
    unfold refers_to. by rewrite bool_decide_true. }
  split.
  { rewrite (UseCount_group b o v sot _ _ hs2 σ3 dst a Hinv3)
      by apply lookup_insert_eq.
    unfold refers_to. rewrite bool_decide_true by done. rewrite Hlc2.
    do 2 f_equal. lia. }
  split; [done|]. split.
  { rewrite (run_app _ _ _ _ _ _ E2). cbn [run]. by mstep E3. }
  intros (i & h & Hi & Hh).
  pose proof (live_count_pos b i h _ Hi Hh) as Hpos.
  destruct Hinv4 as [_ [_ Hinv4]]. fold hs3 in Hinv4.
  destruct (live_count b hs3) as [|m]; [lia|].
  destruct Hinv4 as (_ & _ & Ho & Hr).
  eexists. split; [exact Ho|]. by split.
Qed.

Lemma aliasing_keeps_original_object_alive_witness :
  ∃ σ3 σ4,
    SharedPtr_alias false (mkShared (Some 0) (Some 0)) (Some 9) σ3
    = Ok (mkShared (Some 0) (Some 9)) σ4 ∧
    UseCount (mkShared (Some 0) (Some 9)) σ4 = Ok 3%Z σ4 ∧
    ∃ σ5 obj,
      run [OpDestroy 0; OpDestroy 1]
        {[0 := mkShared (Some 0) (Some 0); 1 := mkShared (Some 0) (Some 0);
          2 := mkShared (Some 0) (Some 9)]} σ4
      = Ok {[2 := mkShared (Some 0) (Some 9)]} σ5 ∧
      objects σ5 !! 0 = Some obj ∧ value obj = 5%Z ∧
      destructor_runs 0 (trace σ5) = 0.
Proof.
  destruct (aliasing_keeps_original_object_alive true false false 5 σ_empty
              [OpCopy true 0 1] [OpDestroy 0; OpDestroy 1] 1 2 (Some 9)
              (mkShared (Some 0) (Some 0)))
    as (σ1 & σ2 & σ3 & σ4 & _ & _ & Ea & _ & _ & _ & Hc & Er & _ & Halive).
  - vm_compute. reflexivity.
  - vm_compute. reflexivity.
  - vm_compute. reflexivity.
  - vm_compute. reflexivity.
  - exists σ2, σ3. split; [exact Ea|]. split; [exact Hc|].
    destruct Halive as (obj & Ho & Hv & Hr).
    + exists 2, (mkShared (Some 0) (Some 9)). split; vm_compute; reflexivity.
    + exists σ4, obj. split; [exact Er|]. split; [exact Ho|].
      split; [exact Hv|exact Hr].
Defined.

(** C9, evaluated on a null pointer at a self-observing class: from the
    handle that either construction path returns, the aliasing
    constructor increments the strong count and then calls
    [InitWeakThis] on the null pointer it was given.  At a plain class
    the same construction gives the handle on the block with a null
    [Get()] and use count 2. *)
Theorem aliasing_with_null_pointer_undefined (co : bool) (v : Z) (σ0 : Heap) :
  let b := first_block σ0 in
  let h0 := first_handle σ0 in
  ∃ σ1,
    (if co then MakeShared true v else SharedPtr_new true v) σ0 = Ok h0 σ1 ∧
    SharedPtr_alias true h0 None σ1 = UB ∧
    run [OpAlias true 0 1 None] {[0 := h0]} σ1 = UB ∧
    ∃ σ2, SharedPtr_alias false h0 None σ1 = Ok (mkShared (Some b) None) σ2 ∧
          Get (mkShared (Some b) None) = None ∧
          UseCount h0 σ2 = Ok 2%Z σ2.
Proof.
  intros b h0.
  destruct (construct_group true co v σ0) as (σ1 & E1 & _ & Hinv).
  rewrite live_count_singleton, weight_refers in Hinv by done.
  destruct Hinv as (_ & _ & [cls Hb] & _). fold b in Hb.
  pose proof (IncreaseStrongCounter_ok _ _ _ Hb) as ES.
  assert (Eu : SharedPtr_alias true h0 None σ1 = UB).
  { unfold SharedPtr_alias. cbn [base_block_ h0 first_handle]. fold b.
    by mstep ES. }
  exists σ1. split; [exact E1|]. split; [exact Eu|]. split.
  - cbn [run exec]. rewrite lookup_singleton_eq, lookup_singleton_ne by done.
    unfold_monad. by rewrite Eu.
  - eexists. split; [|split; [done|]].
    + unfold SharedPtr_alias. cbn [base_block_ h0 first_handle]. fold b.
      by mstep ES.
    + unfold UseCount. cbn [base_block_ h0 first_handle]. fold b.
      erewrite GetStrongCounter_ok; [|apply lookup_insert_eq]. reflexivity.
Qed.

(** ** The two scenarios of the specification, run on the model *)

(** Co-allocated construction, a copy, destruction of the first handle,
    a weak observer, destruction of the second handle: the use counts
    are 1, 2, 2, 1; the observer is live, then expired, and its [Lock()]
    is empty. *)
Example scenario_copy_then_expire :
  result
    ((h1 ← MakeShared false 42;
      c1 ← UseCount h1;
      h2 ← SharedPtr_copy false h1;
      c2 ← UseCount h1;
      c2' ← UseCount h2;
      SharedPtr_dtor h1;;
      c3 ← UseCount h2;
      w ← WeakPtr_from_shared h2;
      e1 ← WeakPtr_Expired w;
      SharedPtr_dtor h2;;
      e2 ← WeakPtr_Expired w;
      l ← WeakPtr_Lock false w;
      mret (c1, c2, c2', c3, e1, e2, l)) σ_empty)
  = Some (1%Z, 2%Z, 2%Z, 1%Z, false, true, mkShared None None).
Proof. vm_compute. reflexivity. Qed.

(** Raw-pointer construction, a weak observer, then [Reset] to another
    raw pointer: the observer is expired and reads 0 while the handle
    reads 1 on its new block. *)
Example scenario_reset_to_other_pointer :
  result
    ((p ← new_T false 1;
      h ← SharedPtr_from_raw false (Some p);
      w ← WeakPtr_from_shared h;
      q ← new_T false 2;
      h' ← Reset_ptr h (Some q);
      e ← WeakPtr_Expired w;
      n ← WeakPtr_UseCount w;
      c ← UseCount h';
      x ← deref h';
      mret (e, n, c, x)) σ_empty)
  = Some (true, 0%Z, 1%Z, 2%Z).
Proof. vm_compute. reflexivity. Qed.

(** [Reset(ptr)] takes over a self-observing object without binding it;
    [Lock()] on a weak observer of the handle then binds it, in the move
    construction of its result: the strong count is 2, and the weak
    count is 2 as well, one for the observer and one for [weak_this_]. *)
Example scenario_lock_binds_unbound_object :
  result
    ((p ← new_T true 7;
      h ← Reset_ptr SharedPtr_default (Some p);
      w ← WeakPtr_from_shared h;
      l ← WeakPtr_Lock true w;
      c ← UseCount l;
      o ← load_object p;
      blk ← load_block 0;
      mret (l, c, weak_this_ o, weak_counter_ blk)) σ_empty)
  = Some (mkShared (Some 0) (Some 0), 2%Z, Some (mkWeak (Some 0) (Some 0)), 2%Z).
Proof. vm_compute. reflexivity. Qed.

(** ** Weak handles beside strong ones *)

Lemma weak_counters_only_refl σ : weak_counters_only σ σ.
Proof.
  repeat split; try done.
  - intros b blk' H. exists blk'. split; [done|]. by destruct blk'.
  - intros b blk H1 H2. congruence.
Qed.

Lemma weak_counters_only_trans σ1 σ2 σ3 :
  weak_counters_only σ1 σ2 → weak_counters_only σ2 σ3 → weak_counters_only σ1 σ3.
Proof.
  intros (Ho1 & Ha1 & Ht1 & Hb1 & Hf1) (Ho2 & Ha2 & Ht2 & Hb2 & Hf2).
  repeat split.
  - congruence.
  - congruence.
  - intros p. by rewrite Ht2.
  - intros b blk3 H3. destruct (Hb2 _ _ H3) as (blk2 & H2 & E2).
    destruct (Hb1 _ _ H2) as (blk1 & H1 & E1). exists blk1. split; [done|].
    rewrite E2, E1. by destruct blk1.
  - intros b blk1 H1 H3. destruct (blocks σ2 !! b) as [blk2|] eqn:H2.
    + destruct (Hb1 _ _ H2) as (blk1' & H1' & E1).
      assert (blk1' = blk1) as -> by congruence.
      pose proof (Hf2 _ _ H2 H3) as Hz. rewrite E1 in Hz. exact Hz.
    + eauto.
Qed.

Lemma touches_ret {A} (a : A) : touches_weak_counters_only (mret a : M A).
Proof. intros σ. apply weak_counters_only_refl. Qed.

Lemma touches_bind {A B} (m : M A) (k : A → M B) :
  touches_weak_counters_only m → (∀ a, touches_weak_counters_only (k a)) →
  touches_weak_counters_only (m ≫= k).
Proof.
  intros Hm Hk σ. specialize (Hm σ). unfold_monad.
  destruct (m σ) as [a σ1|e σ1|]; [|done..].
  specialize (Hk a σ1). destruct (k a σ1); [| |done];
    by eapply weak_counters_only_trans.
Qed.

Lemma touches_IncreaseWeakCounter b :
  touches_weak_counters_only (IncreaseWeakCounter b).
Proof.
  intros σ. destruct (blocks σ !! b) as [blk|] eqn:Hb.
  - rewrite (IncreaseWeakCounter_ok _ _ _ Hb). repeat split; try done; simpl.
    + intros b' blk'. rewrite lookup_insert. case_decide; intros ?; simplify_eq.
      * by exists blk.
      * exists blk'. split; [done|]. by destruct blk'.
    + intros b' blk'. rewrite lookup_insert. case_decide; [done|]. congruence.
  - unfold IncreaseWeakCounter, load_block. unfold_monad. by rewrite Hb.
Qed.

Lemma touches_DecreaseWeakCounter b :
  touches_weak_counters_only (DecreaseWeakCounter b).
Proof.
  intros σ. destruct (blocks σ !! b) as [blk|] eqn:Hb.
  - rewrite (DecreaseWeakCounter_ok _ _ _ Hb).
    destruct (Z.eqb_spec (decr (weak_counter_ blk)) 0) as [Hw|Hw];
      destruct (Z.eqb_spec (strong_counter_ blk) 0) as [Hs|Hs]; simpl.
    1: { repeat split; try done; simpl.
      + intros b' blk'. rewrite lookup_delete. case_decide; [done|]. intros ?.
        exists blk'. split; [done|]. by destruct blk'.
      + intros b' blk'. rewrite lookup_delete. case_decide; [|congruence].
        intros. by simplify_eq. }
    all: repeat split; try done; simpl.
    all: try (intros b' blk'; rewrite lookup_insert; case_decide; intros ?; simplify_eq;
      [by exists blk | exists blk'; split; [done|]; by destruct blk']).
    all: intros b' blk'; rewrite lookup_insert; case_decide; [done|]; congruence.
  - unfold DecreaseWeakCounter, load_block. unfold_monad. by rewrite Hb.
Qed.

Lemma touches_GetStrongCounter b :
  touches_weak_counters_only (GetStrongCounter b).
Proof.
  intros σ. unfold GetStrongCounter, load_block. unfold_monad.
  destruct (blocks σ !! b); [|done]. apply weak_counters_only_refl.
Qed.

Ltac touches :=
  repeat first
    [ apply touches_ret
    | apply touches_IncreaseWeakCounter
    | apply touches_DecreaseWeakCounter
    | apply touches_GetStrongCounter
    | apply touches_bind; [|intros ?]
    | match goal with |- touches_weak_counters_only (match ?x with _ => _ end) =>
        destruct x end ].

(** X1. Weak handles never reach the object.  Whatever a copy, a demotion
    from a strong handle, an assignment, a destruction, a [Reset] or an
    observer of a weak handle does, short of undefined behaviour, it
    leaves every object, every strong count and every stored pointer as
    it was, runs no destructor and allocates nothing; a block it frees
    had strong count 0.  On a handle that is empty or points to an
    allocated block the copy, the destructor, [Reset] and [Expired]
    return. *)
Theorem weak_handles_change_weak_counts_only :
  (∀ other, touches_weak_counters_only (WeakPtr_copy other)) ∧
  (∀ other, touches_weak_counters_only (WeakPtr_from_shared other)) ∧
  (∀ this other, touches_weak_counters_only (WeakPtr_assign_shared this other)) ∧
  (∀ same this other, touches_weak_counters_only (WeakPtr_copy_assign same this other)) ∧
  (∀ same this other, touches_weak_counters_only (WeakPtr_move_assign same this other)) ∧
  (∀ this, touches_weak_counters_only (WeakPtr_dtor this)) ∧
  (∀ this, touches_weak_counters_only (WeakPtr_Reset this)) ∧
  (∀ this, touches_weak_counters_only (WeakPtr_UseCount this)) ∧
  (∀ this, touches_weak_counters_only (WeakPtr_Expired this)) ∧
  (∀ σ w, weak_valid σ w →
     returns (WeakPtr_copy w) σ ∧ returns (WeakPtr_dtor w) σ ∧
     returns (WeakPtr_Reset w) σ ∧ returns (WeakPtr_Expired w) σ).
Proof.
  repeat match goal with |- _ ∧ _ => split end.
  1-9: intros; unfold WeakPtr_copy, WeakPtr_from_shared, WeakPtr_assign_shared,
      WeakPtr_copy_assign, WeakPtr_move_assign, WeakPtr_dtor, WeakPtr_Reset,
      WeakPtr_Expired, WeakPtr_UseCount; cbn [w_base_block_]; touches.
  intros σ [[b|] q] H; unfold weak_valid in *; cbn [w_base_block_] in *.
  - destruct H as [blk Hb].
    unfold returns, WeakPtr_copy, WeakPtr_dtor, WeakPtr_Reset, WeakPtr_Expired,
      WeakPtr_UseCount; cbn [w_base_block_].
    rewrite (bind_Ok _ _ _ _ _ (IncreaseWeakCounter_ok _ _ _ Hb)).
    rewrite (bind_Ok _ _ _ _ _ (DecreaseWeakCounter_ok _ _ _ Hb)).
    rewrite (bind_Ok _ _ _ _ _ (GetStrongCounter_ok _ _ _ Hb)).
    rewrite (DecreaseWeakCounter_ok _ _ _ Hb).
    repeat split; do 2 eexists; reflexivity.
  - unfold returns. repeat split; do 2 eexists; reflexivity.
Qed.

Lemma set_blocks_restore σ b blk blk1 :
  blocks σ !! b = Some blk →
  set_blocks (insert b blk) (set_blocks (insert b blk1) σ) = σ.
Proof.
  intros Hb. apply heap_eq; simpl; try done.
  rewrite insert_insert_eq. by apply insert_id.
Qed.

(** X2. A weak reference taken and given back.  While the block has a
    strong owner, demoting a strong handle (or copying a weak one) adds
    one to the weak count and leaves the strong count alone, and
    destroying or resetting the new weak handle restores the heap
    exactly. *)
Theorem weak_observer_round_trip σ h b blk :
  base_block_ h = Some b →
  blocks σ !! b = Some blk →
  strong_counter_ blk ≠ 0%Z →
  in_size_t (weak_counter_ blk) →
  ∃ σ1,
    WeakPtr_from_shared h σ = Ok (mkWeak (Some b) (observed_ptr_ h)) σ1 ∧
    WeakPtr_copy (mkWeak (Some b) (observed_ptr_ h)) σ
      = Ok (mkWeak (Some b) (observed_ptr_ h)) σ1 ∧
    blocks σ1 !! b = Some (with_weak (incr (weak_counter_ blk)) blk) ∧
    UseCount h σ1 = Ok (strong_counter_ blk) σ1 ∧
    WeakPtr_dtor (mkWeak (Some b) (observed_ptr_ h)) σ1 = Ok tt σ ∧
    WeakPtr_Reset (mkWeak (Some b) (observed_ptr_ h)) σ1 = Ok (mkWeak None None) σ.
Proof.
  intros Hh Hb Hs Hw.
  pose proof (IncreaseWeakCounter_ok _ _ _ Hb) as E1.
  set (σ1 := set_blocks (insert b (with_weak (incr (weak_counter_ blk)) blk)) σ) in *.
  assert (Hb1 : blocks σ1 !! b = Some (with_weak (incr (weak_counter_ blk)) blk)).
  { subst σ1. simpl. by rewrite lookup_insert_eq. }
  assert (E2 : DecreaseWeakCounter b σ1 = Ok tt σ).
  { rewrite (DecreaseWeakCounter_ok _ _ _ Hb1). cbn [with_weak weak_counter_ strong_counter_].
    rewrite decr_incr by done.
    destruct (Z.eqb_spec (strong_counter_ blk) 0) as [|_]; [done|].
    rewrite andb_false_r. f_equal. subst σ1.
    unfold with_weak at 1. cbn. rewrite <- (set_blocks_restore σ b blk (with_weak (incr (weak_counter_ blk)) blk) Hb) at 2.
    f_equal. f_equal. by destruct blk. }
  exists σ1. unfold WeakPtr_from_shared, WeakPtr_copy, WeakPtr_dtor, WeakPtr_Reset, UseCount.
  cbn [w_base_block_ w_observed_ptr_]. rewrite Hh.
  mstep E1. mstep E2. rewrite E2.
  rewrite (GetStrongCounter_ok _ _ _ Hb1).
  repeat split; try done.
Qed.

Lemma weak_observer_round_trip_witness :
  ∃ σ1,
    WeakPtr_from_shared (mkShared (Some 0) (Some 0)) σ_demo
      = Ok (mkWeak (Some 0) (Some 0)) σ1 ∧
    blocks σ1 !! 0 = Some (mkBlock PtrControlBlock 1 2 (Some 0)) ∧
    WeakPtr_dtor (mkWeak (Some 0) (Some 0)) σ1 = Ok tt σ_demo.
Proof.
  destruct (weak_observer_round_trip σ_demo (mkShared (Some 0) (Some 0)) 0
              (mkBlock PtrControlBlock 1 1 (Some 0)))
    as (σ1 & E1 & _ & Hb & _ & E2 & _); [reflexivity|reflexivity|done|done|].
  exists σ1. split; [exact E1|]. split; [exact Hb|exact E2].
Defined.

(** X3. A strong reference taken and given back.  On a block with strong
    count [n >= 1]: a copy or an aliasing construction (of a class that
    is not self-observing) raises the count to [n + 1], and destroying
    or resetting the new handle restores the heap exactly. *)
Theorem strong_copy_round_trip σ h b blk p :
  base_block_ h = Some b →
  blocks σ !! b = Some blk →
  (1 <= strong_counter_ blk)%Z → (strong_counter_ blk + 1 < SIZE_MODULUS)%Z →
  ∃ σ1,
    SharedPtr_copy false h σ = Ok h σ1 ∧
    SharedPtr_alias false h p σ = Ok (mkShared (Some b) p) σ1 ∧
    UseCount h σ1 = Ok (strong_counter_ blk + 1)%Z σ1 ∧
    SharedPtr_dtor h σ1 = Ok tt σ ∧
    SharedPtr_dtor (mkShared (Some b) p) σ1 = Ok tt σ ∧
    Reset h σ1 = Ok (mkShared None None) σ.
Proof.
  intros Hh Hb Hs1 Hs2. destruct h as [hb hq]. cbn in Hh. subst hb.
  pose proof (IncreaseStrongCounter_ok _ _ _ Hb) as E1.
  rewrite incr_small in E1 by lia.
  set (σ1 := set_blocks _ σ) in E1.
  assert (Hb1 : blocks σ1 !! b = Some (with_strong (strong_counter_ blk + 1) blk)).
  { subst σ1. simpl. by rewrite lookup_insert_eq. }
  assert (E2 : DecreaseStrongCounter b σ1 = Ok tt σ).
  { assert (Hd : decr (strong_counter_ blk + 1) = strong_counter_ blk)
      by (rewrite decr_small; lia).
    rewrite (DecreaseStrongCounter_nonzero _ _ _ Hb1);
      cbn [with_strong strong_counter_]; rewrite Hd; [|lia].
    f_equal. apply heap_eq; simpl; try done.
    rewrite insert_insert_eq. apply insert_id. rewrite Hb. f_equal.
    by destruct blk. }
  exists σ1. unfold SharedPtr_copy, SharedPtr_alias, SharedPtr_dtor, Reset.
  cbn [base_block_ observed_ptr_].
  rewrite (UseCount_ok σ1 (mkShared (Some b) hq) b _ eq_refl Hb1).
  repeat split; try (mstep E1); try (mstep E2); done.
Qed.

Lemma strong_copy_round_trip_witness :
  ∃ σ1,
    SharedPtr_copy false (mkShared (Some 0) (Some 0)) σ_demo
      = Ok (mkShared (Some 0) (Some 0)) σ1 ∧
    UseCount (mkShared (Some 0) (Some 0)) σ1 = Ok 2%Z σ1 ∧
    SharedPtr_dtor (mkShared (Some 0) (Some 0)) σ1 = Ok tt σ_demo.
Proof.
  destruct (strong_copy_round_trip σ_demo (mkShared (Some 0) (Some 0)) 0
              (mkBlock PtrControlBlock 1 1 (Some 0)) None)
    as (σ1 & E1 & _ & Hu & E2 & _); [reflexivity|reflexivity|done|done|].
  exists σ1. split; [exact E1|]. split; [exact Hu|exact E2].
Defined.

Lemma DecreaseStrongCounter_last_plain σ b cls s w p v :
  blocks σ !! b = Some (mkBlock cls s w (Some p)) →
  decr s = 0%Z →
  objects σ !! p = Some (mkObject v None) →
  DecreaseStrongCounter b σ
  = Ok tt (if (w =? 0)%Z
           then mkHeap (delete b (blocks σ)) (delete p (objects σ))
                  (EvFreeBlock b :: destroy_event cls p :: trace σ) (allocations σ)
           else mkHeap (<[b := mkBlock cls 0 w None]> (blocks σ))
                  (delete p (objects σ))
                  (destroy_event cls p :: trace σ) (allocations σ)).
Proof.
  intros Hb Hs Ho. unfold DecreaseStrongCounter.
  mstep (load_block_ok _ _ _ Hb). cbn [strong_counter_ with_strong dynamic_type weak_counter_ stored_ptr_].
  rewrite Hs. mstep (store_block_ok b (mkBlock cls 0 w (Some p)) σ).
  change (0 =? 0)%Z with true. cbv iota.
  set (σ1 := set_blocks _ σ).
  assert (Hd : match cls with
               | PtrControlBlock => delete_object (Some p)
               | ObjectControlBlock => destroy_in_place (Some p)
               end σ1 = Ok tt (emit (destroy_event cls p) (set_objects (delete p) σ1))).
  { destruct cls; unfold delete_object, destroy_in_place, run_destructor, load_object,
      end_lifetime; unfold_monad; subst σ1; cbn; by rewrite Ho. }
  mstep Hd. set (σ2 := emit _ _).
  assert (Hb2 : blocks σ2 !! b = Some (mkBlock cls 0 w (Some p))).
  { subst σ2 σ1. cbn. by rewrite lookup_insert_eq. }
  mstep (load_block_ok _ _ _ Hb2). cbn [with_stored dynamic_type strong_counter_ weak_counter_].
  mstep (store_block_ok b (mkBlock cls 0 w None) σ2).
  destruct (w =? 0)%Z.
  - unfold delete_this. cbn. rewrite lookup_insert_eq. f_equal. apply heap_eq; cbn; try done.
    by rewrite !delete_insert_eq.
  - cbn. f_equal. apply heap_eq; cbn; try done. by rewrite !insert_insert_eq.
Qed.

(** X4. [Reset(ptr)] on the only owner of a plain object that weak
    handles still observe: the object is destroyed once, the old block
    stays allocated with strong count 0, the handle gets a new
    [PtrControlBlock] at another address with count 1, and a weak handle
    on the old block is expired and locks to an empty handle. *)
Theorem Reset_ptr_expires_weak_observers σ b cls w p v q p' :
  blocks σ !! b = Some (mkBlock cls 1 w (Some p)) →
  objects σ !! p = Some (mkObject v None) →
  w ≠ 0%Z →
  ∃ σ',
    let b' := fresh (dom (blocks σ)) in
    let wk := mkWeak (Some b) q in
    Reset_ptr (mkShared (Some b) q) p' σ = Ok (mkShared (Some b') p') σ' ∧
    b' ≠ b ∧
    blocks σ' !! b' = Some (mkBlock PtrControlBlock 1 0 p') ∧
    blocks σ' !! b = Some (mkBlock cls 0 w None) ∧
    objects σ' = delete p (objects σ) ∧
    destructor_runs p (trace σ') = S (destructor_runs p (trace σ)) ∧
    UseCount (mkShared (Some b') p') σ' = Ok 1%Z σ' ∧
    WeakPtr_Expired wk σ' = Ok true σ' ∧
    ∀ sot, WeakPtr_Lock sot wk σ' = Ok (mkShared None None) σ'.
Proof.
  intros Hb Ho Hw.
  pose proof (DecreaseStrongCounter_last_plain _ _ _ _ _ _ _ Hb eq_refl Ho) as E1.
  destruct (Z.eqb_spec w 0) as [|_]; [done|].
  set (σ1 := mkHeap _ _ _ _) in E1.
  assert (Hdom : dom (blocks σ1) = dom (blocks σ)).
  { subst σ1. cbn. apply dom_insert_lookup_L. by eexists. }
  assert (Hne : fresh (dom (blocks σ)) ≠ b).
  { intros E. pose proof (fresh_block_lookup σ) as Hf. rewrite E in Hf. congruence. }
  pose proof (new_block_ok (mkBlock PtrControlBlock 1 0 p') σ1) as E2.
  rewrite Hdom in E2. set (σ2 := count_allocation _) in E2.
  exists σ2. cbn zeta. unfold Reset_ptr. cbn [base_block_].
  mstep E1. mstep E2.
  assert (Hb' : blocks σ2 !! fresh (dom (blocks σ)) = Some (mkBlock PtrControlBlock 1 0 p')).
  { subst σ2. cbn. by rewrite lookup_insert_eq. }
  assert (Hb2 : blocks σ2 !! b = Some (mkBlock cls 0 w None)).
  { subst σ2 σ1. cbn. rewrite lookup_insert_ne by done. by rewrite lookup_insert_eq. }
  assert (Ex : WeakPtr_Expired (mkWeak (Some b) q) σ2 = Ok true σ2).
  { unfold WeakPtr_Expired, WeakPtr_UseCount. cbn [w_base_block_].
    by mstep (GetStrongCounter_ok _ _ _ Hb2). }
  split; [done|]. split; [done|]. split; [done|]. split; [done|]. split; [done|].
  split. { subst σ2 σ1. unfold count_allocation, set_blocks. cbn [trace].
           by rewrite destructor_runs_cons, is_destruction_of_destroy_event. }
  split. { by rewrite (UseCount_ok σ2 (mkShared (Some (fresh (dom (blocks σ)))) p') _ _ eq_refl Hb'). }
  split; [exact Ex|]. intros sot. by apply WeakPtr_Lock_expired.
Qed.

Lemma Reset_ptr_expires_weak_observers_witness :
  ∃ σ',
    Reset_ptr (mkShared (Some 0) (Some 0)) (Some 5) σ_demo
      = Ok (mkShared (Some 1) (Some 5)) σ' ∧
    blocks σ' !! 0 = Some (mkBlock PtrControlBlock 0 1 None) ∧
    objects σ' !! 0 = None ∧
    WeakPtr_Expired (mkWeak (Some 0) (Some 0)) σ' = Ok true σ'.
Proof.
  destruct (Reset_ptr_expires_weak_observers σ_demo 0 PtrControlBlock 1 0 7
              (Some 0) (Some 5))
    as (σ' & E & _ & _ & Hb & Ho & _ & _ & Ex & _); [reflexivity|reflexivity|lia|].
  exists σ'. split; [exact E|]. split; [exact Hb|]. split; [by rewrite Ho|exact Ex].
Defined.

(** X5. Assignment between handles of one block.  When the block has at
    least two strong owners, assigning one of its strong handles to
    another (either overload) and assigning one of its strong or weak
    handles to a weak handle of the same block leave the heap exactly as
    it was; only the observed pointer of the target changes. *)
Theorem assignment_within_a_block_is_neutral σ b blk q q' :
  blocks σ !! b = Some blk →
  (2 <= strong_counter_ blk < SIZE_MODULUS)%Z →
  in_size_t (weak_counter_ blk) →
  SharedPtr_copy_assign false (mkShared (Some b) q) (mkShared (Some b) q') σ
    = Ok (mkShared (Some b) q') σ ∧
  SharedPtr_copy_assign_conv (mkShared (Some b) q) (mkShared (Some b) q') σ
    = Ok (mkShared (Some b) q') σ ∧
  WeakPtr_copy_assign false (mkWeak (Some b) q) (mkWeak (Some b) q') σ
    = Ok (mkWeak (Some b) q') σ ∧
  WeakPtr_assign_shared (mkWeak (Some b) q) (mkShared (Some b) q') σ
    = Ok (mkWeak (Some b) q') σ.
Proof.
  intros Hb Hs Hw.
  assert (Hd : decr (strong_counter_ blk) = (strong_counter_ blk - 1)%Z)
    by (rewrite decr_small; lia).
  assert (E1 : DecreaseStrongCounter b σ
               = Ok tt (set_blocks (insert b (with_strong (strong_counter_ blk - 1) blk)) σ)).
  { rewrite (DecreaseStrongCounter_nonzero _ _ _ Hb); rewrite Hd; [done|lia]. }
  set (σ1 := set_blocks _ σ) in E1.
  assert (Hb1 : blocks σ1 !! b = Some (with_strong (strong_counter_ blk - 1) blk)).
  { subst σ1. simpl. by rewrite lookup_insert_eq. }
  assert (E2 : IncreaseStrongCounter b σ1 = Ok tt σ).
  { rewrite (IncreaseStrongCounter_ok _ _ _ Hb1). cbn [with_strong strong_counter_].
    rewrite incr_small by lia. f_equal. apply heap_eq; simpl; try done.
    rewrite insert_insert_eq. apply insert_id. rewrite Hb. f_equal.
    destruct blk; unfold with_strong; cbn. f_equal. lia. }
  assert (E3 : DecreaseWeakCounter b σ
               = Ok tt (set_blocks (insert b (with_weak (decr (weak_counter_ blk)) blk)) σ)).
  { rewrite (DecreaseWeakCounter_ok _ _ _ Hb).
    destruct (Z.eqb_spec (strong_counter_ blk) 0) as [|_]; [lia|].
    by rewrite andb_false_r. }
  set (σ2 := set_blocks _ σ) in E3.
  assert (Hb2 : blocks σ2 !! b = Some (with_weak (decr (weak_counter_ blk)) blk)).
  { subst σ2. simpl. by rewrite lookup_insert_eq. }
  assert (E4 : IncreaseWeakCounter b σ2 = Ok tt σ).
  { rewrite (IncreaseWeakCounter_ok _ _ _ Hb2). cbn [with_weak weak_counter_].
    rewrite incr_decr by done. f_equal. apply heap_eq; simpl; try done.
    rewrite insert_insert_eq. apply insert_id. rewrite Hb. f_equal.
    by destruct blk. }
  unfold SharedPtr_copy_assign, SharedPtr_copy_assign_conv, WeakPtr_copy_assign,
    WeakPtr_assign_shared. cbn [base_block_ observed_ptr_ w_base_block_ w_observed_ptr_].
  repeat split; try (mstep E1; mstep E2); try (mstep E3; mstep E4); done.
Qed.

Lemma assignment_within_a_block_is_neutral_witness :
  SharedPtr_copy_assign false (mkShared (Some 0) (Some 0)) (mkShared (Some 0) None)
      σ_pair
    = Ok (mkShared (Some 0) None) σ_pair ∧
  WeakPtr_assign_shared (mkWeak (Some 0) None) (mkShared (Some 0) (Some 0)) σ_pair
    = Ok (mkWeak (Some 0) (Some 0)) σ_pair.
Proof.
  destruct (assignment_within_a_block_is_neutral σ_pair 0
              (mkBlock PtrControlBlock 2 1 (Some 0)) (Some 0) None)
    as (E1 & _ & _ & _); [reflexivity|done|done|].
  destruct (assignment_within_a_block_is_neutral σ_pair 0
              (mkBlock PtrControlBlock 2 1 (Some 0)) None (Some 0))
    as (_ & _ & _ & E4); [reflexivity|done|done|].
  split; [exact E1|exact E4].
Defined.

(** ** Intrusive handles *)

Section IntrusiveCounts.
Import Intrusive.

Lemma holders_insert p k x (hs : gmap nat IntrusivePtr) :
  holders p (<[k := x]> hs) = holders p (delete k hs) + iweight p x.
Proof.
  unfold holders, iweight. rewrite map_filter_insert. cbn.
  destruct (points_to p x) eqn:Hr.
  - rewrite decide_True by done.
    rewrite <- insert_delete_eq, map_size_insert_None by apply lookup_delete_eq.
    rewrite map_filter_delete. lia.
  - rewrite decide_False by done. lia.
Qed.

Lemma holders_delete p k x (hs : gmap nat IntrusivePtr) :
  hs !! k = Some x → holders p hs = holders p (delete k hs) + iweight p x.
Proof.
  intros Hk. rewrite <- (insert_id hs k x Hk) at 1. apply holders_insert.
Qed.

Lemma holders_fresh p k x (hs : gmap nat IntrusivePtr) :
  hs !! k = None → holders p (<[k := x]> hs) = holders p hs + iweight p x.
Proof. intros Hk. by rewrite holders_insert, delete_id. Qed.

Lemma holders_le_size p (hs : gmap nat IntrusivePtr) : holders p hs ≤ size hs.
Proof. unfold holders. apply map_subseteq_size, map_filter_subseteq. Qed.

Lemma iweight_empty p : iweight p (mkIntrusive None) = 0.
Proof. reflexivity. Qed.

Lemma iweight_same p : iweight p (mkIntrusive (Some p)) = 1.
Proof. unfold iweight, points_to. by rewrite bool_decide_true. Qed.

Lemma iweight_other p q : p ≠ q → iweight p (mkIntrusive (Some q)) = 0.
Proof.
  intros. unfold iweight, points_to. rewrite bool_decide_false; [done|].
  cbn. congruence.
Qed.

(** Handle maps with the same holders have the same exact heaps. *)
Lemma counts_exact_holders hs hs' h :
  (∀ p, holders p hs' = holders p hs) → counts_exact hs h → counts_exact hs' h.
Proof. intros E H p. rewrite E. apply H. Qed.

Lemma counts_exact_insert_empty k hs h :
  counts_exact (delete k hs) h → counts_exact (<[k := mkIntrusive None]> hs) h.
Proof.
  apply counts_exact_holders. intros p.
  rewrite holders_insert, iweight_empty. lia.
Qed.

Lemma destroyed_last : destroyed [CounterDecRef; Destroy] = true.
Proof. reflexivity. Qed.

Lemma destroyed_not_last : destroyed [CounterDecRef] = false.
Proof. reflexivity. Qed.

(** Giving up the reference held by variable [k]. *)
Lemma release_reference k x hs h :
  counts_exact hs h → hs !! k = Some x →
  (Z.of_nat (size hs) < SIZE_MODULUS)%Z →
  ∃ h', IntrusivePtr_dtor x h = Some h' ∧ counts_exact (delete k hs) h'.
Proof.
  intros Hex Hk Hmax. destruct x as [[a|]]; unfold IntrusivePtr_dtor; cbn.
  - pose proof (holders_delete a k _ hs Hk) as Ha. rewrite iweight_same in Ha.
    pose proof (Hex a) as Hh. rewrite Ha in Hh.
    replace (holders a (delete k hs) + 1) with (S (holders a (delete k hs))) in Hh by lia.
    cbn [counted] in Hh.
    pose proof (holders_le_size a hs).
    unfold object_DecRef. rewrite Hh. cbn.
    unfold DecRef, SimpleCounter_RefCount, SimpleCounter_DecRef. cbn [counter_ count_ fst].
    destruct (Z.eqb_spec (Z.of_nat (S (holders a (delete k hs)))) 0) as [|_]; [lia|].
    rewrite decr_small by lia.
    replace (Z.of_nat (S (holders a (delete k hs))) - 1)%Z
      with (Z.of_nat (holders a (delete k hs))) by lia.
    destruct (holders a (delete k hs)) as [|m] eqn:Hm.
    + change (Z.of_nat 0 =? 0)%Z with true. cbv iota beta.
      rewrite destroyed_last. eexists. split; [reflexivity|]. intros p.
      destruct (decide (p = a)) as [->|Hne].
      * by rewrite lookup_delete_eq, Hm.
      * rewrite lookup_delete_ne by done. rewrite Hex.
        by rewrite (holders_delete p k _ hs Hk), iweight_other, Nat.add_0_r.
    + destruct (Z.eqb_spec (Z.of_nat (S m)) 0) as [|_]; [lia|].
      cbv iota beta. rewrite destroyed_not_last. eexists. split; [reflexivity|]. intros p.
      destruct (decide (p = a)) as [->|Hne].
      * by rewrite lookup_insert_eq, Hm.
      * rewrite lookup_insert_ne by done. rewrite Hex.
        by rewrite (holders_delete p k _ hs Hk), iweight_other, Nat.add_0_r.
  - exists h. split; [done|]. revert Hex. apply counts_exact_holders. intros p.
    by rewrite (holders_delete p k _ hs Hk), iweight_empty, Nat.add_0_r.
Qed.

(** Taking a reference to an object that some other variable holds. *)
Lemma acquire_reference k a hs h :
  counts_exact (delete k hs) h → 0 < holders a (delete k hs) →
  (Z.of_nat (S (size (delete k hs))) < SIZE_MODULUS)%Z →
  ∃ h', object_IncRef a h = Some h' ∧
        counts_exact (<[k := mkIntrusive (Some a)]> hs) h'.
Proof.
  intros Hex Hpos Hmax. pose proof (Hex a) as Hh.
  pose proof (holders_le_size a (delete k hs)).
  destruct (holders a (delete k hs)) as [|m] eqn:Hm; [lia|]. cbn [counted] in Hh.
  unfold object_IncRef. rewrite Hh. cbn.
  unfold IncRef, SimpleCounter_IncRef. cbn [counter_ count_ fst].
  rewrite incr_small by lia.
  eexists. split; [reflexivity|]. intros p. rewrite holders_insert.
  destruct (decide (p = a)) as [->|Hne].
  - rewrite lookup_insert_eq, iweight_same, Hm.
    replace (S m + 1) with (S (S m)) by lia. cbn [counted]. do 3 f_equal. lia.
  - rewrite lookup_insert_ne by done. by rewrite iweight_other, Nat.add_0_r.
Qed.

Lemma holders_pos p k x (hs : gmap nat IntrusivePtr) :
  hs !! k = Some x → ptr_object_ x = Some p → 0 < holders p hs.
Proof.
  intros Hk Hx. rewrite (holders_delete p k x hs Hk).
  destruct x as [q]. cbn in Hx. subst q. rewrite iweight_same. lia.
Qed.

Lemma size_delete_le k (hs : gmap nat IntrusivePtr) : size (delete k hs) ≤ size hs.
Proof. apply map_subseteq_size, delete_subseteq. Qed.

Lemma size_insert_le k x (hs : gmap nat IntrusivePtr) :
  size (<[k := x]> hs) ≤ S (size hs).
Proof.
  rewrite <- insert_delete_eq, map_size_insert_None by apply lookup_delete_eq.
  pose proof (size_delete_le k hs). lia.
Qed.

Lemma size_insert_present k x y (hs : gmap nat IntrusivePtr) :
  hs !! k = Some y → size (<[k := x]> hs) = size hs.
Proof. intros Hk. apply map_size_insert_Some. by eexists. Qed.


Lemma IntrusivePtr_eqb_eq x y : IntrusivePtr_eqb x y = true → x = y.
Proof.
  unfold IntrusivePtr_eqb. intros H%bool_decide_eq_true.
  destruct x, y. cbn in H. by subst.
Qed.

Lemma holders_move p src dst s (hs : gmap nat IntrusivePtr) :
  hs !! src = Some s → src ≠ dst →
  holders p (<[dst := s]> (<[src := mkIntrusive None]> hs))
  = holders p (delete dst hs).
Proof.
  intros Hs Hne.
  rewrite holders_insert, delete_insert_ne by done.
  rewrite holders_insert, iweight_empty, Nat.add_0_r.
  rewrite (holders_delete p src s (delete dst hs)); [|by rewrite lookup_delete_ne].
  by rewrite (delete_delete _ src dst).
Qed.

Lemma holders_swap p a b x y (hs : gmap nat IntrusivePtr) :
  hs !! a = Some x → hs !! b = Some y →
  holders p (<[a := y]> (<[b := x]> hs)) = holders p hs.
Proof.
  intros Ha Hb. destruct (decide (a = b)) as [->|Hne].
  - assert (x = y) as -> by congruence.
    by rewrite insert_insert_eq, insert_id.
  - rewrite holders_insert, delete_insert_ne by done.
    rewrite holders_insert.
    rewrite (holders_delete p a x hs Ha).
    rewrite (holders_delete p b y (delete a hs)); [|by rewrite lookup_delete_ne].
    rewrite (delete_delete _ b a). lia.
Qed.

(** One statement in scope keeps the counters exact. *)
Lemma iexec_counts op hs h :
  counts_exact hs h → iop_ok hs op = true →
  (Z.of_nat (S (size hs)) < SIZE_MODULUS)%Z →
  ∃ h', iexec op (hs, h) = Some (ispec_step op hs, h') ∧
        counts_exact (ispec_step op hs) h'.
Proof.
  intros Hex Hok Hmax.
  destruct op as [src dst|src dst|src dst|dst src|dst src|k|a b|k]; cbn in Hok |- *.
  - (* IFromRaw *)
    destruct (hs !! src) as [s|] eqn:Hs; [|done].
    destruct (hs !! dst) eqn:Hd; [done|].
    destruct s as [[a|]]; [|done].
    destruct (acquire_reference dst a hs h) as (h' & E & Hex').
    { by rewrite delete_id. }
    { rewrite delete_id by done. by eapply holders_pos. }
    { rewrite delete_id by done. lia. }
    unfold IntrusivePtr_from_raw. cbn. rewrite E. cbn. eauto.
  - (* ICopy *)
    destruct (hs !! src) as [s|] eqn:Hs; [|done].
    destruct (hs !! dst) eqn:Hd; [done|].
    destruct s as [[a|]].
    + destruct (acquire_reference dst a hs h) as (h' & E & Hex').
      { by rewrite delete_id. }
      { rewrite delete_id by done. by eapply holders_pos. }
      { rewrite delete_id by done. lia. }
      unfold IntrusivePtr_copy. cbn. rewrite E. cbn. eauto.
    + exists h. split; [done|]. apply counts_exact_insert_empty.
      by rewrite delete_id.
  - (* IMove *)
    destruct (hs !! src) as [s|] eqn:Hs; [|done].
    destruct (hs !! dst) eqn:Hd; [done|].
    exists h. split; [by destruct s|]. revert Hex. apply counts_exact_holders.
    intros p. rewrite holders_move by (done || congruence).
    by rewrite delete_id.
  - (* ICopyAssign *)
    destruct (hs !! dst) as [d|] eqn:Hd; [|done].
    destruct (hs !! src) as [s|] eqn:Hs; [|done].
    unfold IntrusivePtr_copy_assign.
    destruct (IntrusivePtr_eqb d s) eqn:Heq; cbn.
    + apply IntrusivePtr_eqb_eq in Heq as ->.
      rewrite insert_id by done. eauto.
    + assert (src ≠ dst).
      { intros ->. assert (d = s) as -> by congruence.
        unfold IntrusivePtr_eqb in Heq. by rewrite bool_decide_true in Heq. }
      destruct (release_reference dst d hs h Hex Hd) as (h1 & E1 & Hex1); [lia|].
      unfold IntrusivePtr_dtor in E1. rewrite E1. cbn.
      pose proof (size_delete_le dst hs).
      destruct s as [[a|]]; cbn.
      * destruct (acquire_reference dst a hs h1 Hex1) as (h2 & E2 & Hex2).
        { apply (holders_pos a src (mkIntrusive (Some a))); [|done].
          by rewrite lookup_delete_ne. }
        { lia. }
        rewrite E2. cbn. eauto.
      * eexists. split; [done|]. by apply counts_exact_insert_empty.
  - (* IMoveAssign *)
    destruct (hs !! dst) as [d|] eqn:Hd; [|done].
    destruct (hs !! src) as [s|] eqn:Hs; [|done].
    unfold IntrusivePtr_move_assign.
    destruct (IntrusivePtr_eqb d s) eqn:Heq; cbn.
    + assert (<[dst:=d]> (<[src:=s]> hs) = hs) as ->.
      { rewrite (insert_id hs src) by done. by rewrite insert_id. }
      eauto.
    + assert (src ≠ dst).
      { intros ->. assert (d = s) as -> by congruence.
        unfold IntrusivePtr_eqb in Heq. by rewrite bool_decide_true in Heq. }
      destruct (release_reference dst d hs h Hex Hd) as (h1 & E1 & Hex1); [lia|].
      unfold IntrusivePtr_dtor in E1. rewrite E1. cbn.
      exists h1. split; [by destruct s|]. revert Hex1. apply counts_exact_holders.
      intros p. by apply holders_move.
  - (* IReset *)
    destruct (hs !! k) as [x|] eqn:Hk; [|done].
    destruct (release_reference k x hs h Hex Hk) as (h1 & E1 & Hex1); [lia|].
    unfold IntrusivePtr_Reset. unfold IntrusivePtr_dtor in E1. rewrite E1. cbn.
    exists h1. split; [done|]. by apply counts_exact_insert_empty.
  - (* ISwap *)
    destruct (hs !! a) as [x|] eqn:Ha; [|done].
    destruct (hs !! b) as [y|] eqn:Hb; [|done].
    exists h. split; [by destruct x, y|]. revert Hex. apply counts_exact_holders.
    intros p. by apply holders_swap.
  - (* IDestroy *)
    destruct (hs !! k) as [x|] eqn:Hk; [|done].
    destruct (release_reference k x hs h Hex Hk) as (h1 & E1 & Hex1); [lia|].
    rewrite E1. cbn. eauto.
Qed.

Lemma size_ispec_step op (hs : gmap nat IntrusivePtr) :
  size (ispec_step op hs) ≤ S (size hs).
Proof.
  destruct op as [src dst|src dst|src dst|dst src|dst src|k|a b|k]; cbn.
  1-2: destruct (hs !! src); [apply size_insert_le|lia].
  - destruct (hs !! src) eqn:Hs; [|lia].
    etrans; [apply size_insert_le|]. by rewrite (size_insert_present src _ _ hs Hs).
  - destruct (hs !! src); [|lia]. apply size_insert_le.
  - destruct (hs !! dst) eqn:Hd; [|lia]. destruct (hs !! src) eqn:Hs; [|lia].
    case_match; [lia|].
    etrans; [apply size_insert_le|]. by rewrite (size_insert_present src _ _ hs Hs).
  - apply size_insert_le.
  - destruct (hs !! a) eqn:Ha; [|lia]. destruct (hs !! b) eqn:Hb; [|lia].
    etrans; [apply size_insert_le|]. by rewrite (size_insert_present b _ _ hs Hb).
  - pose proof (size_delete_le k hs). lia.
Qed.

Lemma irun_counts ops : ∀ hs h,
  counts_exact hs h → iops_ok hs ops = true →
  (Z.of_nat (size hs + length ops) < SIZE_MODULUS)%Z →
  ∃ h', irun ops (hs, h) = Some (ispec_run ops hs, h') ∧
        counts_exact (ispec_run ops hs) h'.
Proof.
  induction ops as [|op ops IH]; intros hs h Hex Hok Hmax.
  - by exists h.
  - cbn in Hok. apply andb_true_iff in Hok as [Hop Hops]. cbn [length] in Hmax.
    destruct (iexec_counts op hs h Hex Hop) as (h1 & E1 & Hex1); [lia|].
    destruct (IH (ispec_step op hs) h1 Hex1 Hops) as (h' & E' & Hex').
    { pose proof (size_ispec_step op hs). lia. }
    exists h'. cbn [irun]. rewrite E1. cbn. done.
Qed.

Lemma counts_exact_UseCount hs h k x :
  counts_exact hs h → hs !! k = Some x →
  IntrusivePtr_UseCount x h
  = Some (match ptr_object_ x with
          | Some p => Z.of_nat (holders p hs)
          | None => 0%Z
          end).
Proof.
  intros Hex Hk. unfold IntrusivePtr_UseCount. destruct x as [[a|]]; cbn; [|done].
  pose proof (holders_pos a k _ hs Hk eq_refl) as Hpos.
  unfold object_RefCount. rewrite Hex.
  destruct (holders a hs); [lia|]. done.
Qed.

Lemma counts_exact_no_handles h : counts_exact ∅ h → h = ∅.
Proof.
  intros Hex. apply map_eq. intros p. rewrite Hex, lookup_empty.
  unfold holders. by rewrite map_filter_empty.
Qed.


Lemma holders_empty p : holders p ∅ = 0.
Proof. unfold holders. by rewrite map_filter_empty. Qed.

Lemma counts_exact_empty : counts_exact ∅ ∅.
Proof. intros p. by rewrite holders_empty. Qed.

(** A new object gets its first handle. *)
Lemma MakeIntrusive_counts k hs h :
  counts_exact hs h → hs !! k = None →
  h !! fresh (dom h) = None ∧
  MakeIntrusive h
  = Some (mkIntrusive (Some (fresh (dom h))),
          <[fresh (dom h) := mkRefCounted (mkCounter 1)]> h) ∧
  counts_exact (<[k := mkIntrusive (Some (fresh (dom h)))]> hs)
    (<[fresh (dom h) := mkRefCounted (mkCounter 1)]> h).
Proof.
  intros Hex Hk. set (p := fresh (dom h)).
  assert (Hp : h !! p = None) by apply not_elem_of_dom, is_fresh.
  split; [done|]. split.
  - unfold MakeIntrusive, new_RefCounted, IntrusivePtr_from_raw, object_IncRef.
    fold p. cbn. rewrite lookup_insert_eq. cbn. by rewrite insert_insert_eq.
  - assert (H0 : holders p hs = 0).
    { pose proof (Hex p) as E. rewrite Hp in E. by destruct (holders p hs). }
    intros q. rewrite holders_fresh by done.
    destruct (decide (q = p)) as [->|Hne].
    + by rewrite lookup_insert_eq, H0, iweight_same.
    + rewrite lookup_insert_ne by done.
      by rewrite iweight_other, Nat.add_0_r.
Qed.

(** X6. Intrusive counters stay exact.  Start from handles and objects in
    which every object is allocated exactly while some handle points to
    it and counts those handles.  Every program of raw-pointer
    construction from [Get()] of a non-empty handle, copy and move
    construction, copy and move assignment, [Reset()], [Swap] and
    destruction, on variables in scope and short enough for the counters
    not to wrap, runs to the end; afterwards the counters are exact
    again, [UseCount()] of every live handle is the number of handles on
    its object (0 for an empty handle), and once no handle is left no
    object is left. *)
Theorem intrusive_counters_stay_exact ops hs h :
  counts_exact hs h → iops_ok hs ops = true →
  (Z.of_nat (size hs + length ops) < SIZE_MODULUS)%Z →
  ∃ h', irun ops (hs, h) = Some (ispec_run ops hs, h') ∧
    counts_exact (ispec_run ops hs) h' ∧
    (∀ k x, ispec_run ops hs !! k = Some x →
       IntrusivePtr_UseCount x h'
       = Some (match ptr_object_ x with
               | Some p => Z.of_nat (holders p (ispec_run ops hs))
               | None => 0%Z
               end)) ∧
    (ispec_run ops hs = ∅ → h' = ∅).
Proof.
  intros Hex Hok Hmax.
  destruct (irun_counts ops hs h Hex Hok Hmax) as (h' & E & Hex').
  exists h'. split; [done|]. split; [done|]. split.
  - intros k x Hk. by eapply counts_exact_UseCount.
  - intros Hemp. rewrite Hemp in Hex'. by apply counts_exact_no_handles.
Qed.

Lemma intrusive_counters_stay_exact_witness :
  ∃ h', irun intrusive_demo_ops (intrusive_demo_handles, intrusive_demo_heap)
        = Some (∅, h') ∧ h' = ∅.
Proof.
  destruct (intrusive_counters_stay_exact intrusive_demo_ops
              intrusive_demo_handles intrusive_demo_heap)
    as (h' & E & _ & _ & Hemp).
  - pose proof (MakeIntrusive_counts 0 ∅ ∅ counts_exact_empty eq_refl) as (_ & _ & H).
    exact H.
  - reflexivity.
  - reflexivity.
  - exists h'. split; [exact E|]. apply Hemp. reflexivity.
Defined.

(** X7. [MakeIntrusive] builds an object at a new address with counter 1
    and returns the one handle on it; beside exact counters the counters
    stay exact. *)
Theorem MakeIntrusive_gives_the_only_handle k hs h :
  counts_exact hs h → hs !! k = None →
  ∃ p h', MakeIntrusive h = Some (mkIntrusive (Some p), h') ∧
    h !! p = None ∧
    IntrusivePtr_UseCount (mkIntrusive (Some p)) h' = Some 1%Z ∧
    holders p (<[k := mkIntrusive (Some p)]> hs) = 1 ∧
    counts_exact (<[k := mkIntrusive (Some p)]> hs) h'.
Proof.
  intros Hex Hk.
  destruct (MakeIntrusive_counts k hs h Hex Hk) as (Hp & E & Hex').
  eexists _, _. split; [exact E|]. split; [done|].
  assert (H1 : holders (fresh (dom h)) (<[k := mkIntrusive (Some (fresh (dom h)))]> hs) = 1).
  { pose proof (Hex' (fresh (dom h))) as Hq. rewrite lookup_insert_eq in Hq.
    destruct (holders _ _) as [|[|n]]; [done|done|]. cbn in Hq. simplify_eq. lia. }
  split; [|done].
  unfold IntrusivePtr_UseCount, object_RefCount. cbn. by rewrite lookup_insert_eq.
Qed.

Lemma MakeIntrusive_gives_the_only_handle_witness :
  ∃ p h', MakeIntrusive ∅ = Some (mkIntrusive (Some p), h') ∧
    IntrusivePtr_UseCount (mkIntrusive (Some p)) h' = Some 1%Z.
Proof.
  destruct (MakeIntrusive_gives_the_only_handle 0 ∅ ∅ counts_exact_empty eq_refl)
    as (p & h' & E & _ & Hu & _).
  exists p, h'. split; [exact E|exact Hu].
Defined.

(** X8. The raw-pointer constructor shares, [Reset(T* ptr)] adopts.  For
    an object that counts [n >= 1] references: [IntrusivePtr(T* ptr)]
    raises the counter to [n + 1], and destroying that handle restores
    the heap exactly; [Reset(T* ptr)] on an empty handle stores the
    pointer and leaves the counter at [n], so destroying that handle
    takes one of the [n] references away, and at [n = 1] it deletes the
    object, after which a handle that still points to it has no defined
    [UseCount()].  The constructor calls [IncRef] through a null pointer;
    [Reset(T* ptr)] accepts one. *)
Theorem raw_pointer_constructor_shares_Reset_adopts h p n :
  h !! p = Some (mkRefCounted (mkCounter n)) →
  (1 <= n)%Z → (n + 1 < SIZE_MODULUS)%Z →
  let this := mkIntrusive (Some p) in
  (∃ h1, IntrusivePtr_from_raw (Some p) h = Some (this, h1) ∧
         IntrusivePtr_UseCount this h1 = Some (n + 1)%Z ∧
         IntrusivePtr_dtor this h1 = Some h) ∧
  IntrusivePtr_Reset_ptr (mkIntrusive None) (Some p) h = Some (this, h) ∧
  IntrusivePtr_UseCount this h = Some n ∧
  IntrusivePtr_dtor this h
  = Some (if decide (n = 1%Z) then delete p h
          else <[p := mkRefCounted (mkCounter (n - 1))]> h) ∧
  IntrusivePtr_UseCount this (delete p h) = None ∧
  IntrusivePtr_from_raw None h = None ∧
  IntrusivePtr_Reset_ptr (mkIntrusive None) None h = Some (mkIntrusive None, h).
Proof.
  intros Hp Hn1 Hn2 this.
  assert (Hdec : ∀ c h0, h0 !! p = Some (mkRefCounted (mkCounter c)) →
            (1 <= c < SIZE_MODULUS)%Z →
            object_DecRef p h0
            = Some (if decide (c = 1%Z) then delete p h0
                    else <[p := mkRefCounted (mkCounter (c - 1))]> h0)).
  { intros c h0 Hc Hr. unfold object_DecRef. rewrite Hc. cbn.
    unfold DecRef, SimpleCounter_RefCount, SimpleCounter_DecRef.
    cbn [counter_ count_ fst].
    destruct (Z.eqb_spec c 0) as [|_]; [lia|]. rewrite decr_small by lia.
    destruct (Z.eqb_spec (c - 1) 0) as [E|E].
    - rewrite decide_True by lia. by rewrite destroyed_last.
    - rewrite decide_False by lia. by rewrite destroyed_not_last. }
  split; [|split; [|split; [|split; [|split; [|split]]]]].
  - exists (<[p := mkRefCounted (mkCounter (n + 1))]> h).
    unfold IntrusivePtr_from_raw, IntrusivePtr_UseCount, IntrusivePtr_dtor,
      object_IncRef, object_RefCount. cbn. rewrite Hp. cbn.
    unfold IncRef, SimpleCounter_IncRef. cbn [counter_ count_ fst].
    rewrite incr_small by lia. split; [done|].
    rewrite lookup_insert_eq. split; [done|].
    rewrite (Hdec (n + 1)%Z) by (by rewrite ?lookup_insert_eq || lia).
    rewrite decide_False by lia. rewrite insert_insert_eq.
    replace (n + 1 - 1)%Z with n by lia. by rewrite insert_id.
  - done.
  - unfold IntrusivePtr_UseCount, object_RefCount. cbn. by rewrite Hp.
  - unfold IntrusivePtr_dtor. cbn. apply Hdec; [done|lia].
  - unfold IntrusivePtr_UseCount, object_RefCount. cbn. by rewrite lookup_delete_eq.
  - done.
  - done.
Qed.

Lemma raw_pointer_constructor_shares_Reset_adopts_witness :
  IntrusivePtr_Reset_ptr (mkIntrusive None) (Some 0) intrusive_demo_heap
    = Some (mkIntrusive (Some 0), intrusive_demo_heap) ∧
  IntrusivePtr_dtor (mkIntrusive (Some 0)) intrusive_demo_heap = Some ∅.
Proof.
  destruct (raw_pointer_constructor_shares_Reset_adopts intrusive_demo_heap 0 1)
    as (_ & E1 & _ & E2 & _); [reflexivity|lia|reflexivity|].
  split; [exact E1|]. rewrite E2. reflexivity.
Defined.

End IntrusiveCounts.

(** ** Unique handles *)

Section UniqueOwnership.
Import Unique.
Context {D : Type} `{!Deleter D}.

Implicit Types (hs : gmap nat (UniquePtr D)) (u : UniquePtr D) (st : UState D).

Lemma pairs_insert_fresh k u hs :
  hs !! k = None →
  pairs (<[k := u]> hs) ≡ₚ option_list (pair_of u) ++ pairs hs.
Proof.
  intros Hk. unfold pairs. rewrite (map_to_list_insert hs k u Hk). cbn.
  by destruct (pair_of u).
Qed.

Lemma pairs_delete k u hs :
  hs !! k = Some u →
  pairs hs ≡ₚ option_list (pair_of u) ++ pairs (delete k hs).
Proof.
  intros Hk. unfold pairs. rewrite <- (map_to_list_delete hs k u Hk). cbn.
  by destruct (pair_of u).
Qed.

Lemma pairs_insert k u hs :
  pairs (<[k := u]> hs) ≡ₚ option_list (pair_of u) ++ pairs (delete k hs).
Proof.
  rewrite <- insert_delete_eq. apply pairs_insert_fresh, lookup_delete_eq.
Qed.

Lemma pairs_insert_empty k d hs :
  pairs (<[k := mkUnique (mkPair None d)]> hs) ≡ₚ pairs (delete k hs).
Proof. by rewrite pairs_insert. Qed.


Lemma aged_refl d : aged d d.
Proof. by exists 0. Qed.

Lemma aged_trans d1 d2 d3 : aged d1 d2 → aged d2 d3 → aged d1 d3.
Proof.
  intros [n ->] [m ->]. exists (m + n). by rewrite Nat.iter_add.
Qed.

Lemma aged_self_moved d : aged d (self_moved d).
Proof. by exists 1. Qed.

(** Ownership is conserved in particular when the pairs are. *)
Lemma conserved_of_pairs st st' (rel : list (nat * D)) (cs : list (Call D)) :
  raw st' = rel.*1 ++ raw st →
  calls st' = cs ++ calls st →
  pairs (vars st) ≡ₚ pairs (vars st') ++ rel ++ (prod_swap <$> cs) →
  conserved st st'.
Proof.
  intros Hr Hc Hp. exists rel.*1, cs. split; [done|]. split; [done|]. split.
  - unfold owned, deleted. rewrite Hp, !fmap_app, <- list_fmap_compose.
    by replace (fst ∘ prod_swap) with (snd : Call D → nat) by done.
  - intros p d Hin. exists d. split; [|apply aged_refl].
    rewrite Hp. rewrite elem_of_app in Hin. rewrite !elem_of_app.
    destruct Hin; auto.
Qed.

Lemma conserved_refl st : conserved st st.
Proof. apply (conserved_of_pairs st st [] []); cbn; by rewrite ?app_nil_r. Qed.

Lemma conserved_trans st1 st2 st3 :
  conserved st1 st2 → conserved st2 st3 → conserved st1 st3.
Proof.
  intros (rel1 & cs1 & Hr1 & Hc1 & Hp1 & Hd1) (rel2 & cs2 & Hr2 & Hc2 & Hp2 & Hd2).
  exists (rel2 ++ rel1), (cs2 ++ cs1). split; [|split; [|split]].
  - rewrite Hr2, Hr1. by rewrite app_assoc.
  - rewrite Hc2, Hc1. by rewrite app_assoc.
  - unfold deleted in *. rewrite Hp1, Hp2, fmap_app. solve_Permutation.
  - intros p d. rewrite fmap_app, !elem_of_app. intros [Hin|[Hin|Hin]].
    + destruct (Hd2 p d) as (d1 & Hin1 & Ha1); [rewrite elem_of_app; by left|].
      destruct (Hd1 p d1) as (d0 & Hin0 & Ha0); [rewrite elem_of_app; by left|].
      exists d0. split; [done|]. by eapply aged_trans.
    + destruct (Hd2 p d) as (d1 & Hin1 & Ha1); [rewrite elem_of_app; by right|].
      destruct (Hd1 p d1) as (d0 & Hin0 & Ha0); [rewrite elem_of_app; by left|].
      exists d0. split; [done|]. by eapply aged_trans.
    + apply Hd1. rewrite elem_of_app. by right.
Qed.

(** Move assignment of a variable to itself keeps the pointer and leaves
    the deleter as its self-assignment leaves it. *)
Lemma move_assign_self k u st :
  vars st !! k = Some u →
  move_assign k k st
  = Some (set_vars
            (insert k (mkUnique (mkPair (Get u) (self_moved (GetDeleter u)))))
            st).
Proof.
  intros Hk. destruct st as [hs r cs]. destruct u as [[p d]]. cbn in Hk.
  unfold move_assign, Release, Reset, set_vars, make_calls. cbn.
  rewrite Hk. cbn. rewrite lookup_insert_eq. cbn.
  rewrite bool_decide_true by done. rewrite lookup_insert_eq. cbn.
  by rewrite !insert_insert_eq.
Qed.

Lemma conserved_self_moved k u st :
  vars st !! k = Some u →
  conserved st
    (set_vars (insert k (mkUnique (mkPair (Get u) (self_moved (GetDeleter u))))) st).
Proof.
  intros Hk. destruct st as [hs r cs]. cbn in Hk.
  exists [], []. cbn. split; [done|]. split; [done|]. split.
  - rewrite app_nil_r. unfold owned.
    rewrite pairs_insert, (pairs_delete k u hs Hk), !fmap_app.
    by destruct u as [[[a|] d]].
  - intros p d. rewrite app_nil_r, pairs_insert, elem_of_app.
    intros [Hin|Hin].
    + destruct u as [[[a|] d0]]; cbn in Hin; [|by apply elem_of_nil in Hin].
      apply list_elem_of_singleton in Hin. injection Hin as -> ->.
      exists d0. split; [|apply aged_self_moved].
      rewrite (pairs_delete k _ hs Hk), elem_of_app. left. cbn.
      by apply list_elem_of_singleton.
    + exists d. split; [|apply aged_refl].
      rewrite (pairs_delete k u hs Hk), elem_of_app. by right.
Qed.

Lemma move_assign_other dst src this other st :
  dst ≠ src → vars st !! dst = Some this → vars st !! src = Some other →
  move_assign dst src st
  = Some (mkUState
            (<[dst := mkUnique (mkPair (Get other) (GetDeleter other))]>
               (<[src := mkUnique (mkPair None (moved_from (GetDeleter other)))]>
                  (vars st)))
            (raw st)
            (rev (UniquePtr_dtor this) ++ calls st)).
Proof.
  intros Hne Hd Hs. destruct st as [hs r cs].
  destruct this as [[pd dd]], other as [[ps ds]]. cbn in Hd, Hs.
  unfold move_assign, Release, Reset, UniquePtr_dtor, set_vars, make_calls. cbn.
  rewrite Hs. cbn. rewrite lookup_insert_ne, Hd by done. cbn.
  destruct pd as [a|]; cbn.
  all: rewrite bool_decide_false by done.
  all: rewrite lookup_insert_ne, lookup_insert_eq by done; cbn.
  all: rewrite lookup_insert_ne, lookup_insert_eq by done; cbn.
  all: do 2 f_equal; apply map_eq; intros i;
    rewrite !lookup_insert; repeat case_decide; congruence.
Qed.

Lemma calls_of_dtor u :
  prod_swap <$> rev (UniquePtr_dtor u) = option_list (pair_of u).
Proof. destruct u as [[[a|] d]]; reflexivity. Qed.

Lemma calls_of_Reset u : (Reset u None).2 = UniquePtr_dtor u.
Proof. reflexivity. Qed.

Lemma handle_of_Reset u p : (Reset u p).1 = mkUnique (mkPair p (GetDeleter u)).
Proof. by destruct u as [[[a|] d]]. Qed.

Lemma pairs_transfer src dst other d' hs :
  hs !! src = Some other → src ≠ dst →
  pairs (<[dst := mkUnique (mkPair (Get other) (GetDeleter other))]>
           (<[src := mkUnique (mkPair None d')]> hs))
  ≡ₚ option_list (pair_of other) ++ pairs (delete dst (delete src hs)).
Proof.
  intros Hs Hne. rewrite pairs_insert, delete_insert_ne by done.
  rewrite pairs_insert_empty. rewrite (delete_delete _ src dst).
  by destruct other as [[p d]].
Qed.

Lemma dom_present k u u' hs : hs !! k = Some u → dom (<[k := u']> hs) = dom hs.
Proof. intros Hk. apply dom_insert_lookup_L. by eexists. Qed.

(** One statement in scope runs, and conserves ownership. *)
Lemma uexec_conserved op st :
  uop_ok (dom (vars st)) op = true →
  ∃ st', uexec op st = Some st' ∧
    dom (vars st') = uscope_step op (dom (vars st)) ∧
    conserved st st'.
Proof.
  intros Hok. destruct st as [hs r cs].
  destruct op as [src dst|dst src|k|k|a b|k|k]; cbn in Hok |- *.
  - (* UMove *)
    apply andb_true_iff in Hok as [Hs%bool_decide_eq_true Hd%bool_decide_eq_true].
    apply elem_of_dom in Hs as [other Hs]. apply not_elem_of_dom in Hd.
    rewrite Hs, Hd. assert (src ≠ dst) by congruence.
    eexists. split; [reflexivity|]. cbn. split.
    + rewrite dom_insert_L, (dom_present src other) by done. done.
    + apply (conserved_of_pairs _ _ [] []); cbn; [done|done|].
      rewrite app_nil_r, (pairs_transfer src dst other) by done.
      rewrite (delete_id (delete src hs) dst) by (by rewrite lookup_delete_ne).
      by apply pairs_delete.
  - (* UMoveAssign *)
    apply andb_true_iff in Hok as [Hd%bool_decide_eq_true Hs%bool_decide_eq_true].
    apply elem_of_dom in Hs as [other Hs]. apply elem_of_dom in Hd as [this Hd].
    rewrite Hs, Hd. destruct (decide (dst = src)) as [->|Hne].
    + rewrite (move_assign_self src this) by done.
      eexists. split; [reflexivity|]. split.
      * cbn. by rewrite (dom_present src this).
      * by apply (conserved_self_moved src this (mkUState hs r cs)).
    + rewrite (move_assign_other dst src this other) by done.
      eexists. split; [reflexivity|]. cbn. split.
      * rewrite (dom_present dst this), (dom_present src other); try done.
        by rewrite lookup_insert_ne.
      * apply (conserved_of_pairs _ _ [] (rev (UniquePtr_dtor this))); cbn; [done|done|].
        rewrite calls_of_dtor, (pairs_transfer src dst other) by done.
        rewrite (pairs_delete dst this hs Hd).
        rewrite (pairs_delete src other (delete dst hs)) by (by rewrite lookup_delete_ne).
        rewrite (delete_delete _ src dst). solve_Permutation.
  - (* UAssignNull *)
    apply bool_decide_eq_true in Hok. apply elem_of_dom in Hok as [this Hk].
    rewrite Hk. cbn. unfold UniquePtr_assign_null. destruct (Reset this None) as [this' cs'] eqn:ER.
    eexists. split; [reflexivity|]. cbn.
    assert (cs' = UniquePtr_dtor this) as -> by (by rewrite <- calls_of_Reset, ER).
    assert (this' = mkUnique (mkPair None (GetDeleter this))) as ->
      by (by rewrite <- handle_of_Reset, ER).
    split; [by rewrite (dom_present k this)|].
    apply (conserved_of_pairs _ _ [] (rev (UniquePtr_dtor this))); cbn; [done|done|].
    rewrite calls_of_dtor, pairs_insert_empty, (pairs_delete k this hs Hk).
    solve_Permutation.
  - (* UReset *)
    apply bool_decide_eq_true in Hok. apply elem_of_dom in Hok as [this Hk].
    rewrite Hk. cbn. destruct (Reset this None) as [this' cs'] eqn:ER.
    eexists. split; [reflexivity|]. cbn.
    assert (cs' = UniquePtr_dtor this) as -> by (by rewrite <- calls_of_Reset, ER).
    assert (this' = mkUnique (mkPair None (GetDeleter this))) as ->
      by (by rewrite <- handle_of_Reset, ER).
    split; [by rewrite (dom_present k this)|].
    apply (conserved_of_pairs _ _ [] (rev (UniquePtr_dtor this))); cbn; [done|done|].
    rewrite calls_of_dtor, pairs_insert_empty, (pairs_delete k this hs Hk).
    solve_Permutation.
  - (* USwap *)
    apply andb_true_iff in Hok as [Ha%bool_decide_eq_true Hb%bool_decide_eq_true].
    apply elem_of_dom in Ha as [this Ha]. apply elem_of_dom in Hb as [other Hb].
    rewrite Ha, Hb. eexists. split; [reflexivity|]. cbn.
    assert (E1 : mkUnique (compressed_pair_ other) = other) by (by destruct other).
    assert (E2 : mkUnique (compressed_pair_ this) = this) by (by destruct this).
    rewrite E1, E2. split.
    + rewrite (dom_present a this), (dom_present b other); try done.
      destruct (decide (a = b)) as [->|?];
        [by rewrite lookup_insert_eq|by rewrite lookup_insert_ne].
    + apply (conserved_of_pairs _ _ [] []); cbn; [done|done|]. rewrite app_nil_r.
      destruct (decide (a = b)) as [->|Hne].
      * assert (this = other) as -> by congruence.
        by rewrite insert_insert_eq, insert_id.
      * rewrite pairs_insert, delete_insert_ne, pairs_insert by done.
        rewrite (pairs_delete a this hs Ha).
        rewrite (pairs_delete b other (delete a hs)) by (by rewrite lookup_delete_ne).
        rewrite (delete_delete _ b a). solve_Permutation.
  - (* URelease *)
    apply bool_decide_eq_true in Hok. apply elem_of_dom in Hok as [this Hk].
    rewrite Hk. cbn. eexists. split; [reflexivity|]. cbn.
    split; [by rewrite (dom_present k this)|].
    apply (conserved_of_pairs _ _ (option_list (pair_of this)) []); cbn; [|done|].
    + by destruct this as [[[a|] d]].
    + rewrite app_nil_r, pairs_insert_empty, (pairs_delete k this hs Hk).
      solve_Permutation.
  - (* UDestroy *)
    apply bool_decide_eq_true in Hok. apply elem_of_dom in Hok as [this Hk].
    rewrite Hk. cbn. eexists. split; [reflexivity|]. cbn.
    split; [by rewrite dom_delete_L|].
    apply (conserved_of_pairs _ _ [] (rev (UniquePtr_dtor this))); cbn; [done|done|].
    rewrite calls_of_dtor, (pairs_delete k this hs Hk). solve_Permutation.
Qed.

Lemma urun_conserved ops : ∀ st,
  uops_ok (dom (vars st)) ops = true →
  ∃ st', urun ops st = Some st' ∧ conserved st st'.
Proof.
  induction ops as [|op ops IH]; intros st Hok.
  - exists st. split; [done|]. apply conserved_refl.
  - cbn in Hok. apply andb_true_iff in Hok as [Hop Hops].
    destruct (uexec_conserved op st Hop) as (st1 & E1 & Hdom & Hc1).
    rewrite <- Hdom in Hops.
    destruct (IH st1 Hops) as (st' & E' & Hc').
    exists st'. cbn [urun]. rewrite E1. cbn. split; [done|].
    by eapply conserved_trans.
Qed.


(** X9. Unique ownership is conserved.  Every program of move
    construction, move assignment (also of a variable to itself),
    assignment of [nullptr], [Reset()], [Swap], [Release()] and
    destruction on variables in scope runs to the end, and every pointer
    owned at the start is accounted for exactly once at the end: it is
    owned by one handle, or it was given back by [Release()], or it was
    passed to a deleter.  A deleter call is made on a pointer with the
    deleter that pointer was paired with at the start, and a pair still
    held is a pair held at the start, in both cases up to what the move
    assignments of the handle to itself have made of the deleter. *)
Theorem unique_ownership_is_conserved ops st :
  uops_ok (dom (vars st)) ops = true →
  ∃ st', urun ops st = Some st' ∧
    owned (vars st) ++ raw st ++ deleted (calls st)
      ≡ₚ owned (vars st') ++ raw st' ++ deleted (calls st') ∧
    (∀ d p, (d, p) ∈ calls st' →
       (d, p) ∈ calls st ∨ ∃ d0, (p, d0) ∈ pairs (vars st) ∧ aged d0 d) ∧
    (∀ p d, (p, d) ∈ pairs (vars st') →
       ∃ d0, (p, d0) ∈ pairs (vars st) ∧ aged d0 d).
Proof.
  intros Hok.
  destruct (urun_conserved ops st Hok) as (st' & E & rel & cs & Hr & Hc & Hp & Hd).
  exists st'. split; [done|]. split; [|split].
  - unfold deleted in *. rewrite Hp, Hr, Hc, !fmap_app. solve_Permutation.
  - intros d p. rewrite Hc, elem_of_app. intros [Hin|Hin]; [|by left].
    right. apply Hd. rewrite elem_of_app. right.
    apply list_elem_of_fmap. by exists (d, p).
  - intros p d Hin. apply Hd. rewrite elem_of_app. by left.
Qed.

(** X10. Move assignment of a handle to itself, [k = std::move(k)],
    keeps the pointer, calls no deleter and leaves every other variable
    alone; so does [k.Reset(k.Release())]. *)
Theorem self_move_assignment_keeps_the_pointer st k u :
  vars st !! k = Some u →
  (∃ st' u', uexec (UMoveAssign k k) st = Some st' ∧
     raw st' = raw st ∧ calls st' = calls st ∧
     (∀ j, j ≠ k → vars st' !! j = vars st !! j) ∧
     vars st' !! k = Some u' ∧ Get u' = Get u) ∧
  (let '(temp, this) := Release u in Reset this temp = (u, [])).
Proof.
  intros Hk. split.
  - eexists _, _. cbn [uexec]. rewrite Hk.
    rewrite (move_assign_self k u st Hk).
    split; [reflexivity|]. destruct st as [hs r cs]. cbn.
    split; [done|]. split; [done|]. split.
    + intros j Hj. by rewrite lookup_insert_ne.
    + by rewrite lookup_insert_eq.
  - by destruct u as [[p d]].
Qed.

End UniqueOwnership.

Section UniqueDefault.
Import Unique.

Lemma unique_ownership_is_conserved_witness :
  ∃ st', urun unique_demo_ops unique_demo = Some st' ∧
    owned (vars unique_demo) ++ raw unique_demo ++ deleted (calls unique_demo)
      ≡ₚ owned (vars st') ++ raw st' ++ deleted (calls st').
Proof.
  destruct (unique_ownership_is_conserved unique_demo_ops unique_demo)
    as (st' & E & Hp & _); [reflexivity|].
  exists st'. split; [exact E|exact Hp].
Defined.

Lemma DefaultDeleter_call_allocated p h :
  is_Some (h !! p) → DefaultDeleter_call p h = Some (delete p h).
Proof. intros [v Hv]. unfold DefaultDeleter_call. by rewrite Hv. Qed.

(** Calls on distinct allocated pointers delete each of them. *)
Lemma apply_calls_distinct (cs : list (Call DefaultDeleter)) h :
  NoDup (deleted cs) → (∀ p, p ∈ deleted cs → is_Some (h !! p)) →
  ∃ h', apply_calls cs h = Some h' ∧
        ∀ p, h' !! p = if decide (p ∈ deleted cs) then None else h !! p.
Proof.
  unfold deleted. induction cs as [|[d a] cs IH]; intros Hnd Hall.
  - exists h. split; [done|]. intros p. rewrite decide_False; [done|].
    apply not_elem_of_nil.
  - cbn in Hnd. apply NoDup_cons in Hnd as [Hnin Hnd].
    destruct (IH Hnd) as (h1 & E1 & Hh1).
    { intros p Hp. apply Hall. cbn. by right. }
    assert (Ha : is_Some (h1 !! a)).
    { rewrite Hh1, decide_False by done. apply Hall. cbn. by left. }
    exists (delete a h1). split.
    + unfold apply_calls in *. cbn [foldr]. rewrite E1. cbn.
      by apply DefaultDeleter_call_allocated.
    + intros p. cbn. destruct (decide (p = a)) as [->|Hne].
      * rewrite lookup_delete_eq, decide_True; [done|]. by left.
      * rewrite lookup_delete_ne, Hh1 by done.
        destruct (decide (p ∈ cs.*2)).
        -- rewrite decide_True; [done|]. by right.
        -- rewrite decide_False; [done|]. cbn. rewrite elem_of_cons.
           by intros [?|?].
Qed.

(** X11. With default deleters nothing is deleted twice and nothing is
    lost.  From handles that own distinct allocated objects, every
    program in scope runs to the end, and the deleter calls it makes are
    all defined: each deleted object was allocated and is deleted once.
    Afterwards exactly the objects passed to a deleter are gone, every
    pointer still owned or given back by [Release()] points to an
    allocated object, and when no handle is left and nothing was
    released every object owned at the start is gone. *)
Theorem default_deleter_deletes_once ops (st : UState DefaultDeleter) h :
  uops_ok (dom (vars st)) ops = true →
  NoDup (owned (vars st)) →
  (∀ p, p ∈ owned (vars st) → is_Some (h !! p)) →
  raw st = [] → calls st = [] →
  ∃ st' h', urun ops st = Some st' ∧
    apply_calls (calls st') h = Some h' ∧
    NoDup (deleted (calls st')) ∧
    (∀ p, h' !! p = if decide (p ∈ deleted (calls st')) then None else h !! p) ∧
    (∀ p, p ∈ owned (vars st') ++ raw st' → is_Some (h' !! p)) ∧
    (vars st' = ∅ → raw st' = [] → ∀ p, p ∈ owned (vars st) → h' !! p = None).
Proof.
  intros Hok Hnd Hall Hraw Hcalls.
  destruct (urun_conserved ops st Hok) as (st' & E & rel & cs & Hr & Hc & Hp & _).
  assert (Hperm : owned (vars st)
                  ≡ₚ owned (vars st') ++ raw st' ++ deleted (calls st')).
  { by rewrite Hp, Hr, Hc, Hraw, Hcalls, !app_nil_r. }
  rewrite Hperm in Hnd.
  apply NoDup_app in Hnd as (Hnd1 & Hdisj1 & Hnd2).
  apply NoDup_app in Hnd2 as (Hnd2 & Hdisj2 & Hnd3).
  destruct (apply_calls_distinct (calls st') h Hnd3) as (h' & E' & Hh').
  { intros p Hin. apply Hall. rewrite Hperm, !elem_of_app. auto. }
  exists st', h'. split; [done|]. split; [done|]. split; [done|]. split; [done|].
  split.
  - intros p Hin. rewrite Hh'. rewrite decide_False.
    + apply Hall. rewrite Hperm, app_assoc, elem_of_app. by left.
    + apply elem_of_app in Hin as [Hin|Hin].
      * intros Hd. apply (Hdisj1 p Hin). apply elem_of_app. by right.
      * by apply Hdisj2.
  - intros Hv Hr' p Hin. rewrite Hh'. rewrite decide_True; [done|].
    rewrite Hperm, Hv, Hr' in Hin. unfold owned, pairs in Hin.
    rewrite map_to_list_empty in Hin. exact Hin.
Qed.

Lemma default_deleter_deletes_once_witness :
  ∃ st' h', urun unique_demo_ops unique_demo = Some st' ∧
    apply_calls (calls st') unique_demo_heap = Some h' ∧
    NoDup (deleted (calls st')).
Proof.
  destruct (default_deleter_deletes_once unique_demo_ops unique_demo unique_demo_heap)
    as (st' & h' & E & E' & Hnd & _).
  - reflexivity.
  - apply (bool_decide_unpack _). vm_compute. exact I.
  - intros p Hp. vm_compute in Hp.
    apply elem_of_cons in Hp as [->|Hp]; [by eexists|].
    apply elem_of_cons in Hp as [->|Hp]; [by eexists|].
    apply elem_of_cons in Hp as [->|Hp]; [by eexists|].
    by apply elem_of_nil in Hp.
  - reflexivity.
  - reflexivity.
  - exists st', h'. split; [exact E|]. split; [exact E'|exact Hnd].
Defined.

Lemma self_move_assignment_keeps_the_pointer_witness :
  ∃ st' u', uexec (UMoveAssign 0 0) unique_demo = Some st' ∧
    calls st' = [] ∧ vars st' !! 0 = Some u' ∧ Get u' = Some 10.
Proof.
  destruct (self_move_assignment_keeps_the_pointer unique_demo 0
              (UniquePtr_from_raw (Some 10)))
    as [(st' & u' & E & _ & Hc & _ & Hu & Hg) _]; [reflexivity|].
  exists st', u'. split; [exact E|]. split; [exact Hc|]. split; [exact Hu|exact Hg].
Defined.

(** X12. Resetting a handle to its own pointer, [u.Reset(u.Get())],
    passes the pointer to the deleter and still holds it: the handle is
    unchanged.  Its destruction then passes the same pointer to the
    deleter again, which for a default deleter deletes twice and is
    undefined on every heap. *)
Theorem reset_to_own_pointer_deletes_twice (u : UniquePtr DefaultDeleter) a :
  Get u = Some a →
  Reset u (Get u) = (u, [(GetDeleter u, a)]) ∧
  UniquePtr_dtor u = [(GetDeleter u, a)] ∧
  ∀ h, apply_calls (rev (UniquePtr_dtor u) ++ rev (Reset u (Get u)).2) h = None.
Proof.
  intros Hu. destruct u as [[p d]]. cbn in Hu. subst p.
  split; [done|]. split; [done|]. intros h.
  unfold apply_calls, DefaultDeleter_call. cbn.
  destruct (h !! a); cbn; [|done]. by rewrite lookup_delete_eq.
Qed.

Lemma reset_to_own_pointer_deletes_twice_witness :
  Reset (UniquePtr_from_raw (Some 10)) (Some 10)
    = (UniquePtr_from_raw (Some 10), [(mkDefaultDeleter, 10)]) ∧
  apply_calls [(mkDefaultDeleter, 10); (mkDefaultDeleter, 10)] unique_demo_heap
    = None.
Proof.
  destruct (reset_to_own_pointer_deletes_twice (UniquePtr_from_raw (Some 10)) 10)
    as (E & _ & H); [reflexivity|].
  split; [exact E|exact (H unique_demo_heap)].
Defined.

End UniqueDefault.

(** ** The variant without weak references *)

Lemma plain_heap_eq (π1 π2 : Plain.Heap) :
  Plain.blocks π1 = Plain.blocks π2 → Plain.objects π1 = Plain.objects π2 →
  Plain.trace π1 = Plain.trace π2 → Plain.allocations π1 = Plain.allocations π2 →
  π1 = π2.
Proof. destruct π1, π2. simpl. by intros -> -> -> ->. Qed.

Lemma erase_block_with_strong c blk :
  erase_block (with_strong c blk) = Plain.with_counter c (erase_block blk).
Proof. by destruct blk as [[] ? ? ?]. Qed.

Lemma counter_erase_block blk : Plain.counter (erase_block blk) = strong_counter_ blk.
Proof. by destruct blk as [[] ? ? ?]. Qed.

Lemma erase_insert_block b blk σ :
  erase (set_blocks (insert b blk) σ)
  = Plain.set_blocks (insert b (erase_block blk)) (erase σ).
Proof. unfold erase, Plain.set_blocks. cbn. by rewrite fmap_insert. Qed.

Lemma erase_lookup_block b σ :
  Plain.blocks (erase σ) !! b = erase_block <$> blocks σ !! b.
Proof. cbn. by rewrite lookup_fmap. Qed.

Lemma erase_lookup_object p σ :
  Plain.objects (erase σ) !! p = value <$> objects σ !! p.
Proof. cbn. by rewrite lookup_fmap. Qed.

Lemma plain_like_insert_block b blk σ :
  plain_like σ → weak_counter_ blk = 0%Z →
  (dynamic_type blk = ObjectControlBlock → is_Some (stored_ptr_ blk)) →
  plain_like (set_blocks (insert b blk) σ).
Proof.
  intros [Hb Ho] Hw Hs. split; [|done]. intros b' blk'. cbn.
  rewrite lookup_insert. case_decide; [|by apply Hb]. by intros [= <-].
Qed.

Lemma plain_like_delete b p es σ :
  plain_like σ →
  plain_like (mkHeap (delete b (blocks σ)) (delete p (objects σ)) es (allocations σ)).
Proof.
  intros [Hb Ho]. split; cbn.
  - intros b' blk'. rewrite lookup_delete. case_decide; [done|]. apply Hb.
  - intros p' o'. rewrite lookup_delete. case_decide; [done|]. apply Ho.
Qed.

Lemma simulates_ret {A} (a : A) : simulates (mret a) (mret a).
Proof. intros σ Hσ. done. Qed.

Lemma simulates_undefined {A} : simulates (@undefined A) (@Plain.undefined A).
Proof. intros σ Hσ. done. Qed.

Lemma simulates_bind {A B} (m : M A) (k : A → M B) pm pk :
  simulates m pm → (∀ a, simulates (k a) (pk a)) →
  simulates (m ≫= k) (pm ≫= pk).
Proof.
  intros Hm Hk σ Hσ. destruct (Hm σ Hσ) as [E Hl].
  unfold mbind, M_bind, bind, Plain.M_bind, Plain.bind. rewrite E.
  destruct (m σ) as [a σ1|e σ1|]; cbn; [|done..].
  apply Hk, Hl.
Qed.

Lemma simulates_IncreaseStrongCounter b :
  simulates (IncreaseStrongCounter b) (Plain.IncreaseCounter b).
Proof.
  intros σ Hσ. unfold Plain.IncreaseCounter, Plain.load_block, Plain.store_block.
  unfold mbind, Plain.M_bind, Plain.bind. rewrite erase_lookup_block.
  destruct (blocks σ !! b) as [blk|] eqn:Hb; cbn.
  - rewrite (IncreaseStrongCounter_ok _ _ _ Hb). cbn -[erase]. split.
    + by rewrite erase_insert_block, erase_block_with_strong, counter_erase_block.
    + destruct (proj1 Hσ _ _ Hb). by apply plain_like_insert_block.
  - unfold IncreaseStrongCounter, load_block. unfold_monad. by rewrite Hb.
Qed.

Lemma simulates_GetStrongCounter b :
  simulates (GetStrongCounter b) (Plain.GetCounter b).
Proof.
  intros σ Hσ. unfold Plain.GetCounter, Plain.load_block.
  unfold mbind, Plain.M_bind, Plain.bind. rewrite erase_lookup_block.
  destruct (blocks σ !! b) as [blk|] eqn:Hb; cbn.
  - rewrite (GetStrongCounter_ok _ _ _ Hb). cbn -[erase].
    by rewrite counter_erase_block.
  - unfold GetStrongCounter, load_block. unfold_monad. by rewrite Hb.
Qed.

Lemma DecreaseStrongCounter_last_null σ b s :
  blocks σ !! b = Some (mkBlock PtrControlBlock s 0 None) →
  decr s = 0%Z →
  DecreaseStrongCounter b σ
  = Ok tt (mkHeap (delete b (blocks σ)) (objects σ)
             (EvFreeBlock b :: trace σ) (allocations σ)).
Proof.
  intros Hb Hs. unfold DecreaseStrongCounter.
  mstep (load_block_ok _ _ _ Hb).
  cbn [strong_counter_ with_strong dynamic_type weak_counter_ stored_ptr_].
  rewrite Hs. mstep (store_block_ok b (mkBlock PtrControlBlock 0 0 None) σ).
  change (0 =? 0)%Z with true. cbv iota. unfold delete_object.
  rewrite (bind_Ok _ _ _ _ _ (mret_Ok tt _)).
  set (σ1 := set_blocks _ σ).
  assert (Hb1 : blocks σ1 !! b = Some (mkBlock PtrControlBlock 0 0 None)).
  { subst σ1. cbn. by rewrite lookup_insert_eq. }
  mstep (load_block_ok _ _ _ Hb1). cbn [with_stored dynamic_type strong_counter_ weak_counter_].
  mstep (store_block_ok b (mkBlock PtrControlBlock 0 0 None) σ1).
  change (0 =? 0)%Z with true. cbv iota.
  unfold delete_this. cbn. rewrite lookup_insert_eq. f_equal.
  apply heap_eq; cbn; try done. by rewrite !delete_insert_eq.
Qed.

Lemma DecreaseStrongCounter_dangling σ b cls s w p :
  blocks σ !! b = Some (mkBlock cls s w (Some p)) →
  decr s = 0%Z →
  objects σ !! p = None →
  DecreaseStrongCounter b σ = UB.
Proof.
  intros Hb Hs Ho. unfold DecreaseStrongCounter.
  mstep (load_block_ok _ _ _ Hb).
  cbn [strong_counter_ with_strong dynamic_type weak_counter_ stored_ptr_].
  rewrite Hs. mstep (store_block_ok b (mkBlock cls 0 w (Some p)) σ).
  change (0 =? 0)%Z with true. cbv iota.
  destruct cls; unfold delete_object, destroy_in_place, run_destructor, load_object;
    unfold_monad; cbn; by rewrite Ho.
Qed.

Lemma simulates_DecreaseStrongCounter b :
  simulates (DecreaseStrongCounter b) (Plain.DecreaseCounter b).
Proof.
  intros σ Hσ.
  unfold Plain.DecreaseCounter, Plain.load_block, Plain.store_block.
  unfold mbind, Plain.M_bind, Plain.bind. rewrite erase_lookup_block.
  destruct (blocks σ !! b) as [blk|] eqn:Hb; cbn -[erase].
  2: { unfold DecreaseStrongCounter, load_block. unfold_monad. by rewrite Hb. }
  destruct (proj1 Hσ _ _ Hb) as [Hw Hst].
  rewrite counter_erase_block.
  destruct (Z.eqb_spec (decr (strong_counter_ blk)) 0) as [Hz|Hz].
  - destruct blk as [cls s w st]. cbn in Hw, Hst, Hz. subst w.
    destruct st as [p|].
    + destruct (objects σ !! p) as [[v wt]|] eqn:Ho.
      * assert (wt = None) as -> by apply (proj2 Hσ _ _ Ho).
        rewrite (DecreaseStrongCounter_last_plain _ _ _ _ _ _ _ Hb Hz Ho).
        change (0 =? 0)%Z with true. cbv iota. split.
        -- destruct cls; cbn; unfold Plain.delete_object, Plain.delete_this,
             Plain.end_lifetime, Plain.free_block, Plain.ret, erase,
             Plain.set_blocks, Plain.set_objects, Plain.emit, mbind,
             Plain.M_bind, Plain.bind; cbn;
             rewrite lookup_fmap, Ho; cbn; rewrite lookup_insert_eq; cbn;
             do 2 f_equal; apply plain_heap_eq; cbn; try done;
             by rewrite ?fmap_delete, ?delete_insert_eq.
        -- by apply plain_like_delete.
      * rewrite (DecreaseStrongCounter_dangling _ _ _ _ _ _ Hb Hz Ho). split; [|done].
        destruct cls; cbn; unfold Plain.delete_object, Plain.delete_this,
          Plain.end_lifetime, erase, Plain.set_blocks, mbind, Plain.M_bind,
          Plain.bind; cbn; by rewrite lookup_fmap, Ho.
    + destruct cls; [|by destruct Hst].
      rewrite (DecreaseStrongCounter_last_null _ _ _ Hb Hz). split.
      * cbn. unfold Plain.free_block, erase, Plain.set_blocks, Plain.emit. cbn.
        rewrite lookup_insert_eq. cbn. do 2 f_equal. apply plain_heap_eq; cbn; try done.
        by rewrite ?fmap_delete, ?delete_insert_eq.
      * pose proof (plain_like_delete b 0 (EvFreeBlock b :: trace σ) σ Hσ) as H.
        destruct H as [H1 _]. split; [exact H1|]. exact (proj2 Hσ).
  - rewrite (DecreaseStrongCounter_nonzero _ _ _ Hb Hz). cbn -[erase]. split.
    + by rewrite erase_insert_block, erase_block_with_strong.
    + by apply plain_like_insert_block.
Qed.

Lemma simulates_new_block p :
  simulates (new_block (mkBlock PtrControlBlock 1 0 p))
            (Plain.new_block (Plain.PtrControlBlock 1 p)).
Proof.
  intros σ Hσ. unfold new_block, Plain.new_block. cbn -[erase]. split.
  - unfold erase at 1. cbn. rewrite dom_fmap_L. do 2 f_equal.
    apply plain_heap_eq; cbn; try done. by rewrite fmap_insert.
  - destruct Hσ as [Hb Ho]. split; [|done]. intros b' blk'. cbn.
    rewrite lookup_insert. case_decide; [|by apply Hb]. by intros [= <-].
Qed.

Lemma simulates_ret_bind_l {A B} (a : A) (k : A → M B) pm :
  simulates (k a) pm → simulates (mret a ≫= k) pm.
Proof. intros Hk σ Hσ. apply Hk, Hσ. Qed.

Lemma simulates_ret_bind_r {A B} (a : A) (m : M B) (pk : A → Plain.M B) :
  simulates m (pk a) → simulates m (mret a ≫= pk).
Proof. intros Hk σ Hσ. apply Hk, Hσ. Qed.

Ltac simulate :=
  cbv beta iota zeta;
  repeat lazymatch goal with
    | |- simulates (mret _ ≫= _) _ => apply simulates_ret_bind_l
    | |- simulates _ (mret _ ≫= _) => apply simulates_ret_bind_r
    | |- simulates (match ?x with _ => _ end ≫= _) _ => destruct x
    | |- simulates (match ?x with _ => _ end) _ => destruct x
    | |- simulates (_ ≫= _) (_ ≫= _) => apply simulates_bind; [|intros ?]
    | |- simulates (mret _) (mret _) => apply simulates_ret
    | |- simulates undefined _ => apply simulates_undefined
    | |- simulates (IncreaseStrongCounter _) _ => apply simulates_IncreaseStrongCounter
    | |- simulates (DecreaseStrongCounter _) _ => apply simulates_DecreaseStrongCounter
    | |- simulates (GetStrongCounter _) _ => apply simulates_GetStrongCounter
    | |- simulates (new_block _) _ => apply simulates_new_block
    end.

Lemma simulates_copy other :
  simulates (SharedPtr_copy false other) (Plain.SharedPtr_copy other).
Proof. unfold SharedPtr_copy, Plain.SharedPtr_copy. cbv zeta. simulate. Qed.

Lemma simulates_alias other p :
  simulates (SharedPtr_alias false other p) (Plain.SharedPtr_alias other p).
Proof. unfold SharedPtr_alias, Plain.SharedPtr_alias. cbv zeta. simulate. Qed.

Lemma simulates_copy_assign same this other :
  simulates (SharedPtr_copy_assign same this other)
            (Plain.SharedPtr_copy_assign same this other).
Proof. unfold SharedPtr_copy_assign, Plain.SharedPtr_copy_assign. simulate. Qed.

Lemma simulates_move_assign same this other :
  simulates (SharedPtr_move_assign same this other)
            (Plain.SharedPtr_move_assign same this other).
Proof. unfold SharedPtr_move_assign, Plain.SharedPtr_move_assign. simulate. Qed.

Lemma simulates_copy_assign_conv this other :
  simulates (SharedPtr_copy_assign_conv this other)
            (Plain.SharedPtr_copy_assign_conv this other).
Proof.
  unfold SharedPtr_copy_assign_conv, Plain.SharedPtr_copy_assign_conv. simulate.
Qed.

Lemma simulates_move_assign_conv this other :
  simulates (SharedPtr_move_assign_conv this other)
            (Plain.SharedPtr_move_assign_conv this other).
Proof.
  unfold SharedPtr_move_assign_conv, Plain.SharedPtr_move_assign_conv. simulate.
Qed.

Lemma simulates_dtor this :
  simulates (SharedPtr_dtor this) (Plain.SharedPtr_dtor this).
Proof. unfold SharedPtr_dtor, Plain.SharedPtr_dtor. simulate. Qed.

Lemma simulates_Reset this : simulates (Reset this) (Plain.Reset this).
Proof. unfold Reset, Plain.Reset. simulate. Qed.

Lemma simulates_Reset_ptr this p :
  simulates (Reset_ptr this p) (Plain.Reset_ptr this p).
Proof. unfold Reset_ptr, Plain.Reset_ptr. simulate. Qed.

Lemma simulates_from_raw p :
  simulates (SharedPtr_from_raw false p) (Plain.SharedPtr_from_raw p).
Proof. unfold SharedPtr_from_raw, Plain.SharedPtr_from_raw. simulate. Qed.

Lemma simulates_UseCount this : simulates (UseCount this) (Plain.UseCount this).
Proof. unfold UseCount, Plain.UseCount. simulate. Qed.

Lemma simulates_deref this : simulates (deref this) (Plain.deref this).
Proof.
  unfold deref, Plain.deref. destruct (observed_ptr_ this) as [a|]; [|simulate].
  intros σ Hσ. unfold Plain.load_object, load_object. unfold_monad.
  rewrite erase_lookup_object. by destruct (objects σ !! a).
Qed.

Lemma simulates_new_T v : simulates (new_T false v) (Plain.new_object v).
Proof.
  intros σ Hσ. unfold new_T, new_object, Plain.new_object. cbn -[erase]. split.
  - unfold erase at 1. cbn. rewrite dom_fmap_L. do 2 f_equal.
    apply plain_heap_eq; cbn; try done. by rewrite fmap_insert.
  - destruct Hσ as [Hb Ho]. split; [done|]. intros p' o'. cbn.
    rewrite lookup_insert. case_decide; [|by apply Ho]. by intros [= <-].
Qed.

Lemma simulates_SharedPtr_new v :
  simulates (SharedPtr_new false v) (Plain.SharedPtr_new v).
Proof.
  unfold SharedPtr_new, Plain.SharedPtr_new.
  apply simulates_bind; [apply simulates_new_T|]. intros p. apply simulates_from_raw.
Qed.

Lemma simulates_MakeShared v :
  simulates (MakeShared false v) (Plain.MakeShared v).
Proof.
  intros σ Hσ. unfold MakeShared, Plain.MakeShared, new_block, construct_in_place,
    load_block, store_block, Plain.construct_member, Plain.new_block.
  unfold_monad. unfold mbind, mret, Plain.M_bind, Plain.bind, Plain.M_ret, Plain.ret.
  cbn. rewrite lookup_insert_eq. cbn. rewrite !dom_fmap_L. split.
  - do 2 f_equal. unfold erase. cbn. apply plain_heap_eq; cbn; try done.
    + by rewrite insert_insert_eq, fmap_insert.
    + by rewrite fmap_insert.
  - destruct Hσ as [Hb Ho]. split.
    + intros b' blk'. cbn. rewrite insert_insert_eq, lookup_insert.
      case_decide; [|by apply Hb]. intros [= <-]. cbn. split; [done|]. by eexists.
    + intros p' o'. cbn. rewrite lookup_insert.
      case_decide; [|by apply Ho]. by intros [= <-].
Qed.

Lemma simulates_exec op hs :
  flag_off op = true → simulates (exec op hs) (Plain.exec op hs).
Proof.
  intros Hf.
  destruct op as [t src dst|t src dst|t src dst p|dst src|dst src|h|h]; cbn in Hf;
    unfold exec, Plain.exec; try (destruct t; [done|]).
  - destruct (hs !! src), (hs !! dst); try apply simulates_undefined.
    apply simulates_bind; [apply simulates_copy|]. intros ?. apply simulates_ret.
  - destruct (hs !! src), (hs !! dst); try apply simulates_undefined.
    intros σ Hσ. done.
  - destruct (hs !! src), (hs !! dst); try apply simulates_undefined.
    apply simulates_bind; [apply simulates_alias|]. intros ?. apply simulates_ret.
  - destruct (hs !! dst), (hs !! src); try apply simulates_undefined.
    apply simulates_bind; [apply simulates_copy_assign|]. intros ?. apply simulates_ret.
  - destruct (hs !! dst), (hs !! src); try apply simulates_undefined.
    apply simulates_bind; [apply simulates_move_assign|]. intros [? ?].
    apply simulates_ret.
  - destruct (hs !! h); try apply simulates_undefined.
    apply simulates_bind; [apply simulates_Reset|]. intros ?. apply simulates_ret.
  - destruct (hs !! h); try apply simulates_undefined.
    apply simulates_bind; [apply simulates_dtor|]. intros ?. apply simulates_ret.
Qed.

Lemma simulates_run ops : ∀ hs,
  forallb flag_off ops = true → simulates (run ops hs) (Plain.run ops hs).
Proof.
  induction ops as [|op ops IH]; intros hs Hf; cbn [run Plain.run].
  - apply simulates_ret.
  - cbn in Hf. apply andb_true_iff in Hf as [Hop Hops].
    apply simulates_bind; [by apply simulates_exec|]. intros hs'. by apply IH.
Qed.

Lemma lift_block_erase blk : erase_block (lift_block blk) = blk.
Proof. by destruct blk. Qed.

Lemma erase_lift π : erase (lift π) = π.
Proof.
  destruct π as [bs os t n]. unfold erase, lift. cbn. f_equal.
  - rewrite <- map_fmap_compose. rewrite <- (map_fmap_id bs) at 2.
    apply map_fmap_ext. intros ? blk _. apply lift_block_erase.
  - rewrite <- map_fmap_compose. rewrite <- (map_fmap_id os) at 2.
    by apply map_fmap_ext.
Qed.

Lemma plain_like_lift π : plain_like (lift π).
Proof.
  split; cbn.
  - intros b blk. rewrite lookup_fmap. intros Hb.
    apply fmap_Some in Hb as (pb & _ & ->). destruct pb; cbn; [done|].
    split; [done|]. by eexists.
  - intros p o. rewrite lookup_fmap. intros Ho.
    by apply fmap_Some in Ho as (v & _ & ->).
Qed.

(** What [simulates] says on the heap of a plain run. *)
Lemma simulates_lift {A} (m : M A) pm π :
  simulates m pm → pm π = erase_res (m (lift π)).
Proof.
  intros H. destruct (H (lift π) (plain_like_lift π)) as [E _].
  by rewrite erase_lift in E.
Qed.

(** X13. The variant without weak references is the weak-aware variant
    with the weak counter and [weak_this_] erased.  On every heap of
    the plain variant, every program (also one that is undefined), both
    construction paths, the raw-pointer constructor, [Reset(ptr)], the
    converting assignments, [UseCount] and dereferencing give what the
    weak-aware code, instantiated at a class that is not self-observing,
    gives on the same heap read with weak counts 0: the same values, the
    same heap after erasure, and undefined behaviour in the same
    cases. *)
Theorem plain_variant_is_the_erasure π :
  (∀ ops hs, forallb flag_off ops = true →
     Plain.run ops hs π = erase_res (run ops hs (lift π))) ∧
  (∀ v, Plain.MakeShared v π = erase_res (MakeShared false v (lift π))) ∧
  (∀ v, Plain.SharedPtr_new v π = erase_res (SharedPtr_new false v (lift π))) ∧
  (∀ p, Plain.SharedPtr_from_raw p π
        = erase_res (SharedPtr_from_raw false p (lift π))) ∧
  (∀ this p, Plain.Reset_ptr this p π = erase_res (Reset_ptr this p (lift π))) ∧
  (∀ this other, Plain.SharedPtr_copy_assign_conv this other π
                 = erase_res (SharedPtr_copy_assign_conv this other (lift π))) ∧
  (∀ this other, Plain.SharedPtr_move_assign_conv this other π
                 = erase_res (SharedPtr_move_assign_conv this other (lift π))) ∧
  (∀ this, Plain.UseCount this π = erase_res (UseCount this (lift π))) ∧
  (∀ this, Plain.deref this π = erase_res (deref this (lift π))).
Proof.
  repeat match goal with |- _ ∧ _ => split end; intros.
  - by apply simulates_lift, simulates_run.
  - apply simulates_lift, simulates_MakeShared.
  - apply simulates_lift, simulates_SharedPtr_new.
  - apply simulates_lift, simulates_from_raw.
  - apply simulates_lift, simulates_Reset_ptr.
  - apply simulates_lift, simulates_copy_assign_conv.
  - apply simulates_lift, simulates_move_assign_conv.
  - apply simulates_lift, simulates_UseCount.
  - apply simulates_lift, simulates_deref.
Qed.

Lemma ops_ok_flag_off b o ops : ∀ hs,
  ops_ok false b o hs ops = true → forallb flag_off ops = true.
Proof.
  induction ops as [|op ops IH]; intros hs Hok; [done|].
  cbn in Hok |- *. apply andb_true_iff in Hok as [Hop Hops].
  apply andb_true_iff. split; [|by eapply IH].
  destruct op as [t src dst|t src dst|t src dst p| | | |]; cbn in Hop |- *; try done;
    destruct (hs !! src), (hs !! dst); try done; by destruct t.
Qed.

(** The outcome of a simulated action that returns. *)
Lemma simulates_Ok {A} (m : M A) pm σ a σ' :
  simulates m pm → plain_like σ → m σ = Ok a σ' →
  pm (erase σ) = Some (a, erase σ') ∧ plain_like σ'.
Proof.
  intros H Hσ E. destruct (H σ Hσ) as [E1 Hl]. rewrite E in E1, Hl. done.
Qed.

(** X14. Strong counting and single-stage release without weak
    references.  Build handle [0] by either construction path of the
    plain variant and run a program of copy, move, aliasing, assignment,
    reset and destroy statements on variables in scope, short enough for
    the counter not to wrap.  The program runs to the end;
    [UseCount()] of every live handle is the number of live handles on
    the block (0 for an empty handle); while that number is not 0 the
    block is allocated with that count and the object is alive and was
    never destroyed; when it is 0 the object was destroyed once and the
    block was freed with it. *)
Theorem plain_use_count_and_single_stage_release
    (co : bool) (v : Z) (π0 : Plain.Heap) (ops : list Op) :
  let b := fresh (dom (Plain.blocks π0)) in
  let o := fresh (dom (Plain.objects π0)) in
  let h0 := mkShared (Some b) (Some o) in
  ops_ok false b o {[0 := h0]} ops = true →
  (Z.of_nat (1 + length ops) < SIZE_MODULUS)%Z →
  ∃ π1 π',
    (if co then Plain.MakeShared v else Plain.SharedPtr_new v) π0 = Some (h0, π1) ∧
    let hs := spec_run ops {[0 := h0]} in
    let n := live_count b hs in
    Plain.run ops {[0 := h0]} π1 = Some (hs, π') ∧
    (∀ i h, hs !! i = Some h →
       Plain.UseCount h π'
       = Some (if refers_to b h then Z.of_nat n else 0%Z, π')) ∧
    destructor_runs o (Plain.trace π')
    = destructor_runs o (Plain.trace π0) + match n with 0 => 1 | S _ => 0 end ∧
    match n with
    | 0 => Plain.blocks π' !! b = None ∧ Plain.objects π' !! o = None
    | S _ =>
        (∃ blk, Plain.blocks π' !! b = Some blk ∧ Plain.counter blk = Z.of_nat n) ∧
        Plain.objects π' !! o = Some v
    end.
Proof.
  intros b o h0 Hok Hmax.
  set (σ0 := lift π0).
  assert (Hb : first_block σ0 = b).
  { unfold first_block, σ0, lift. cbn. by rewrite dom_fmap_L. }
  assert (Ho : first_object σ0 = o).
  { unfold first_object, σ0, lift. cbn. by rewrite dom_fmap_L. }
  assert (Hh : first_handle σ0 = h0) by (unfold first_handle; by rewrite Hb, Ho).
  destruct (construct_group false co v σ0) as (σ1 & E1 & Hinv1).
  rewrite Hb, Ho, Hh in Hinv1. rewrite Hh in E1.
  assert (Hsim : simulates (if co then MakeShared false v else SharedPtr_new false v)
                           (if co then Plain.MakeShared v else Plain.SharedPtr_new v)).
  { destruct co; [apply simulates_MakeShared|apply simulates_SharedPtr_new]. }
  destruct (simulates_Ok _ _ σ0 _ _ Hsim (plain_like_lift π0) E1) as [P1 Hl1].
  unfold σ0 in P1. rewrite erase_lift in P1.
  destruct (run_group b o v false _ _ ops _ σ1 Hinv1 Hok) as (σ' & E & Hinv').
  { rewrite live_count_singleton, weight_refers by done. lia. }
  destruct (simulates_Ok _ _ σ1 _ _
              (simulates_run ops {[0 := h0]} (ops_ok_flag_off _ _ _ _ Hok)) Hl1 E)
    as [P Hl'].
  exists (erase σ1), (erase σ'). split; [done|]. cbn zeta. split; [done|].
  split; [|split].
  - intros i h Hi.
    pose proof (UseCount_group b o v false _ _ _ σ' i h Hinv' Hi) as EU.
    by destruct (simulates_Ok _ _ σ' _ _ (simulates_UseCount h) Hl' EU).
  - destruct Hinv' as [_ Hinv'].
    apply (destructor_runs_group b o v false _ _ _ σ') in Hinv'. exact Hinv'.
  - destruct Hinv' as [_ [_ Hinv']]. rewrite erase_lookup_block, erase_lookup_object.
    destruct (live_count b _) as [|m].
    + destruct Hinv' as (-> & -> & _). done.
    + destruct Hinv' as (_ & [cls ->] & -> & _). cbn. split; [|done].
      eexists. split; [done|]. by destruct cls.
Qed.

Lemma plain_use_count_and_single_stage_release_witness :
  ∃ π1 π',
    Plain.MakeShared 5 plain_empty = Some (mkShared (Some 0) (Some 0), π1) ∧
    Plain.run plain_demo_ops {[0 := mkShared (Some 0) (Some 0)]} π1
    = Some ({[1 := mkShared None None]}, π') ∧
    destructor_runs 0 (Plain.trace π') = 1.
Proof.
  destruct (plain_use_count_and_single_stage_release true 5 plain_empty plain_demo_ops)
    as (π1 & π' & E1 & E & _ & Hr & _).
  - vm_compute. reflexivity.
  - vm_compute. reflexivity.
  - exists π1, π'. split; [exact E1|]. split; [exact E|exact Hr].
Defined.

(** ** The life of a block under strong and weak handles *)

Lemma lifetime_inv_block b p cls v n m σ :
  lifetime_inv b p cls v n m σ → 0 < n + m →
  ∃ blk, blocks σ !! b = Some blk ∧
         strong_counter_ blk = Z.of_nat n ∧ weak_counter_ blk = Z.of_nat m ∧
         dynamic_type blk = cls.
Proof.
  intros H Hpos. destruct n as [|n]; [destruct m as [|m]; [lia|]|];
    destruct H as [H _]; eexists; (split; [exact H|done]).
Qed.

(** X15. The two counters govern the life of a block.  Block [b] manages
    a plain object, with [n] strong and [m] weak handles on it, both
    counts short of wrapping.  While a strong handle exists ([n > 0]): a
    copy gives [n + 1]; destroying a strong handle gives [n - 1], and
    the destructor of the object runs exactly when that was the last
    one; demoting gives [m + 1].  While a weak handle exists ([m > 0]):
    a copy gives [m + 1]; destroying a weak handle gives [m - 1],
    touches no object, and frees the block exactly when no strong handle
    exists and that was the last weak one; the handle is expired exactly
    when [n = 0]; [Lock] and promotion then give an empty handle and
    [BadWeakPtr], and otherwise a strong handle, with [n + 1]. *)
Theorem counts_govern_the_life_of_a_block b p cls v n m σ q :
  lifetime_inv b p cls v n m σ →
  (Z.of_nat n + 1 < SIZE_MODULUS)%Z → (Z.of_nat m + 1 < SIZE_MODULUS)%Z →
  let s := mkShared (Some b) q in
  let w := mkWeak (Some b) q in
  (0 < n →
     (∃ σ', SharedPtr_copy false s σ = Ok s σ' ∧
            lifetime_inv b p cls v (S n) m σ') ∧
     (∃ σ', SharedPtr_dtor s σ = Ok tt σ' ∧
            lifetime_inv b p cls v (n - 1) m σ' ∧
            destructor_runs p (trace σ')
            = destructor_runs p (trace σ) + (if decide (n = 1) then 1 else 0)) ∧
     (∃ σ', WeakPtr_from_shared s σ = Ok w σ' ∧
            lifetime_inv b p cls v n (S m) σ')) ∧
  (0 < m →
     (∃ σ', WeakPtr_copy w σ = Ok w σ' ∧ lifetime_inv b p cls v n (S m) σ') ∧
     (∃ σ', WeakPtr_dtor w σ = Ok tt σ' ∧
            lifetime_inv b p cls v n (m - 1) σ' ∧
            objects σ' = objects σ ∧ trace σ' = if decide (n = 0 ∧ m = 1)
                                                then EvFreeBlock b :: trace σ
                                                else trace σ) ∧
     WeakPtr_Expired w σ = Ok (bool_decide (n = 0)) σ ∧
     match n with
     | 0 => WeakPtr_Lock false w σ = Ok (mkShared None None) σ ∧
            SharedPtr_from_weak w σ = Throw BadWeakPtr σ
     | S _ => ∃ σ', WeakPtr_Lock false w σ = Ok s σ' ∧
                    SharedPtr_from_weak w σ = Ok s σ' ∧
                    lifetime_inv b p cls v (S n) m σ'
     end).
Proof.
  intros Hinv Hn Hm s w. split.
  - (* a strong handle exists *)
    intros Hpos. destruct n as [|n]; [lia|]. destruct Hinv as [Hb Ho].
    split; [|split].
    + pose proof (IncreaseStrongCounter_ok _ _ _ Hb) as E.
      cbn [with_strong strong_counter_ dynamic_type weak_counter_ stored_ptr_] in E.
      rewrite incr_small in E by lia.
      replace (Z.of_nat (S n) + 1)%Z with (Z.of_nat (S (S n))) in E by lia.
      eexists. unfold SharedPtr_copy. cbn [base_block_ observed_ptr_ s].
      mstep E. split; [reflexivity|]. split; [|done]. cbn.
      by rewrite lookup_insert_eq.
    + destruct n as [|n].
      * pose proof (DecreaseStrongCounter_last_plain _ _ _ _ _ _ _ Hb eq_refl Ho) as E.
        eexists. unfold SharedPtr_dtor. cbn [base_block_ s]. split; [exact E|].
        cbn [Nat.sub]. rewrite decide_True by done.
        destruct m as [|m].
        -- change (Z.of_nat 0 =? 0)%Z with true.
           cbn [lifetime_inv blocks objects trace].
           rewrite !lookup_delete_eq, destructor_runs_cons.
           rewrite (destructor_runs_cons p (destroy_event cls p)).
           rewrite is_destruction_of_destroy_event. cbn. split; [done|lia].
        -- destruct (Z.eqb_spec (Z.of_nat (S m)) 0) as [|_]; [lia|].
           cbn [lifetime_inv blocks objects trace].
           rewrite lookup_insert_eq, lookup_delete_eq, destructor_runs_cons.
           rewrite is_destruction_of_destroy_event. split; [done|lia].
      * assert (Hd : decr (Z.of_nat (S (S n))) = Z.of_nat (S n))
          by (rewrite decr_small; lia).
        pose proof (DecreaseStrongCounter_nonzero _ _ _ Hb) as E.
        cbn [with_strong strong_counter_ dynamic_type weak_counter_ stored_ptr_] in E.
        rewrite Hd in E. specialize (E ltac:(lia)).
        eexists. unfold SharedPtr_dtor. cbn [base_block_ s]. split; [exact E|].
        rewrite decide_False by lia. cbn. rewrite lookup_insert_eq.
        split; [done|]. unfold destructor_runs. lia.
    + pose proof (IncreaseWeakCounter_ok _ _ _ Hb) as E.
      cbn [with_weak strong_counter_ dynamic_type weak_counter_ stored_ptr_] in E.
      rewrite incr_small in E by lia.
      replace (Z.of_nat m + 1)%Z with (Z.of_nat (S m)) in E by lia.
      eexists. unfold WeakPtr_from_shared.
      cbn [base_block_ observed_ptr_ w_base_block_ s]. mstep E.
      split; [reflexivity|]. split; [|done]. cbn.
      by rewrite lookup_insert_eq.
  - (* a weak handle exists *)
    intros Hpos. destruct m as [|m]; [lia|].
    destruct (lifetime_inv_block _ _ _ _ _ _ _ Hinv ltac:(lia))
      as (blk & Hb & Hs & Hw & Hc).
    split; [|split; [|split]].
    + pose proof (IncreaseWeakCounter_ok _ _ _ Hb) as E.
      rewrite Hw, incr_small in E by lia.
      replace (Z.of_nat (S m) + 1)%Z with (Z.of_nat (S (S m))) in E by lia.
      eexists. unfold WeakPtr_copy. cbn [w_base_block_ w_observed_ptr_ w].
      mstep E. split; [reflexivity|].
      destruct n as [|n]; destruct Hinv as [Hb' Ho]; rewrite Hb in Hb';
        injection Hb' as ->; (split; [|done]); cbn;
        by rewrite lookup_insert_eq.
    + pose proof (DecreaseWeakCounter_ok _ _ _ Hb) as E.
      rewrite Hw, Hs, decr_small in E by lia.
      replace (Z.of_nat (S m) - 1)%Z with (Z.of_nat m) in E by lia.
      eexists. unfold WeakPtr_dtor. cbn [w_base_block_ w]. split; [exact E|].
      cbn [Nat.sub]. rewrite Nat.sub_0_r.
      destruct n as [|n]; destruct Hinv as [Hb' Ho]; rewrite Hb in Hb';
        injection Hb' as ->.
      * destruct m as [|m].
        -- change (Z.of_nat 0 =? 0)%Z with true. cbn.
           rewrite lookup_delete_eq, decide_True by done. done.
        -- destruct (Z.eqb_spec (Z.of_nat (S m)) 0) as [|_]; [lia|]. cbn.
           rewrite lookup_insert_eq, decide_False by lia. done.
      * destruct (Z.eqb_spec (Z.of_nat (S n)) 0) as [|_]; [lia|].
        rewrite andb_false_r. cbn. rewrite lookup_insert_eq, decide_False by lia.
        done.
    + unfold WeakPtr_Expired, WeakPtr_UseCount. cbn [w_base_block_ w].
      mstep (GetStrongCounter_ok _ _ _ Hb). rewrite Hs.
      destruct n as [|n]; [done|].
      destruct (Z.eqb_spec (Z.of_nat (S n)) 0) as [|_]; [lia|]. done.
    + assert (Ex : WeakPtr_Expired w σ = Ok (bool_decide (n = 0)) σ).
      { unfold WeakPtr_Expired, WeakPtr_UseCount. cbn [w_base_block_ w].
        mstep (GetStrongCounter_ok _ _ _ Hb). rewrite Hs.
        destruct n as [|n]; [done|].
        destruct (Z.eqb_spec (Z.of_nat (S n)) 0) as [|_]; [lia|]. done. }
      destruct n as [|n].
      * unfold WeakPtr_Lock, SharedPtr_from_weak. split; by mstep Ex.
      * pose proof (IncreaseStrongCounter_ok _ _ _ Hb) as E.
        rewrite Hs, incr_small in E by lia.
        replace (Z.of_nat (S n) + 1)%Z with (Z.of_nat (S (S n))) in E by lia.
        eexists. unfold WeakPtr_Lock, SharedPtr_from_weak.
        rewrite !(bind_Ok _ _ _ _ _ Ex).
        rewrite bool_decide_false by lia.
        cbn [w_base_block_ w_observed_ptr_ base_block_ observed_ptr_ w].
        split; [by mstep E|]. split; [by mstep E|].
        destruct Hinv as [Hb' Ho]. rewrite Hb in Hb'. injection Hb' as ->.
        split; [|done]. cbn. by rewrite lookup_insert_eq.
Qed.

Lemma counts_govern_the_life_of_a_block_witness :
  (∃ σ', SharedPtr_dtor (mkShared (Some 0) (Some 0)) σ_demo = Ok tt σ' ∧
         lifetime_inv 0 0 PtrControlBlock 7 0 1 σ' ∧
         destructor_runs 0 (trace σ') = 1) ∧
  (∃ σ', WeakPtr_dtor (mkWeak (Some 0) (Some 0)) σ_demo = Ok tt σ' ∧
         lifetime_inv 0 0 PtrControlBlock 7 1 0 σ') ∧
  WeakPtr_Expired (mkWeak (Some 0) (Some 0)) σ_demo = Ok false σ_demo.
Proof.
  destruct (counts_govern_the_life_of_a_block 0 0 PtrControlBlock 7 1 1 σ_demo (Some 0))
    as [Hs Hw]; [by split|done|done|].
  destruct (Hs ltac:(lia)) as (_ & (σ1 & E1 & H1 & R1) & _).
  destruct (Hw ltac:(lia)) as (_ & (σ2 & E2 & H2 & _) & Ex & _).
  split; [|split].
  - exists σ1. split; [exact E1|]. split; [exact H1|exact R1].
  - exists σ2. split; [exact E2|exact H2].
  - exact Ex.
Defined.

(** ** Construction binds a self-observing object *)

(** X16. Both construction paths bind a self-observing object to its
    block: afterwards [weak_this_] points to the new block and the
    object, the weak count is the one reference the object holds on
    itself, [SharedFromThis()] returns a handle equal to the first one
    and the count is 2, and [WeakFromThis()] returns a weak handle on
    the block whose destruction restores the heap.  [Reset(ptr)] does not
    bind: an object handed to it stays unbound, and [SharedFromThis()]
    on it returns an empty handle although a handle owns the object. *)
Theorem construction_binds_self_observation (co : bool) (v : Z) (σ0 : Heap) :
  let b := first_block σ0 in
  let o := first_object σ0 in
  let h0 := first_handle σ0 in
  let w0 := mkWeak (Some b) (Some o) in
  (∃ σ1 σ2 σ3 cls,
     (if co then MakeShared true v else SharedPtr_new true v) σ0 = Ok h0 σ1 ∧
     objects σ1 !! o = Some (mkObject v (Some w0)) ∧
     blocks σ1 !! b = Some (mkBlock cls 1 1 (Some o)) ∧
     SharedFromThis o σ1 = Ok h0 σ2 ∧
     UseCount h0 σ2 = Ok 2%Z σ2 ∧
     WeakFromThis o σ1 = Ok w0 σ3 ∧
     blocks σ3 !! b = Some (mkBlock cls 1 2 (Some o)) ∧
     WeakPtr_dtor w0 σ3 = Ok tt σ1) ∧
  (∃ σ1,
     (p ← new_T true v; Reset_ptr SharedPtr_default (Some p)) σ0 = Ok h0 σ1 ∧
     objects σ1 !! o = Some (mkObject v (Some WeakPtr_default)) ∧
     UseCount h0 σ1 = Ok 1%Z σ1 ∧
     SharedFromThis o σ1 = Ok (mkShared None None) σ1).
Proof.
  intros b o h0 w0. split.
  - destruct (construct_group true co v σ0) as (σ1 & E1 & _ & Hinv).
    rewrite live_count_singleton, weight_refers in Hinv by done.
    destruct Hinv as (_ & _ & [cls Hb] & Ho & _).
    fold b o in Hb, Ho. unfold managed_object in Ho.
    change (Z.of_nat 1) with 1%Z in Hb.
    pose proof (IncreaseStrongCounter_ok _ _ _ Hb) as ES.
    unfold with_strong in ES.
    cbn [strong_counter_ dynamic_type weak_counter_ stored_ptr_] in ES.
    change (incr 1) with 2%Z in ES.
    pose proof (IncreaseWeakCounter_ok _ _ _ Hb) as EW.
    unfold with_weak in EW.
    cbn [strong_counter_ dynamic_type weak_counter_ stored_ptr_] in EW.
    change (incr 1) with 2%Z in EW.
    set (σ2 := set_blocks _ σ1) in ES. set (σ3 := set_blocks _ σ1) in EW.
    assert (Hb3 : blocks σ3 !! b = Some (mkBlock cls 1 2 (Some o))).
    { subst σ3. cbn. by rewrite lookup_insert_eq. }
    assert (Ex : WeakPtr_Expired w0 σ1 = Ok false σ1).
    { unfold WeakPtr_Expired, WeakPtr_UseCount. cbn [w_base_block_ w0].
      by mstep (GetStrongCounter_ok _ _ _ Hb). }
    exists σ1, σ2, σ3, cls. split; [exact E1|]. split; [exact Ho|]. split; [exact Hb|].
    split; [|split; [|split; [|split]]].
    + rewrite (SharedFromThis_bound σ1 o _ b _ Ho eq_refl Hb); [done|done|done|].
      unfold in_size_t, SIZE_MODULUS. cbn. lia.
    + unfold UseCount, h0, first_handle. cbn [base_block_]. fold b.
      rewrite (GetStrongCounter_ok σ2 b (mkBlock cls 2 1 (Some o))); [done|].
      subst σ2. cbn. by rewrite lookup_insert_eq.
    + unfold WeakFromThis. mstep (load_object_ok _ _ _ Ho). cbn [weak_this_].
      unfold WeakPtr_copy. cbn [w_base_block_ w_observed_ptr_ w0]. by mstep EW.
    + exact Hb3.
    + unfold WeakPtr_dtor. cbn [w_base_block_ w0].
      rewrite (DecreaseWeakCounter_ok _ _ _ Hb3).
      cbn [with_weak strong_counter_ dynamic_type weak_counter_ stored_ptr_].
      change (decr 2) with 1%Z. cbn. f_equal. subst σ3.
      apply heap_eq; cbn; try done. rewrite insert_insert_eq. by apply insert_id.
  - eexists. unfold new_T.
    rewrite (bind_Ok _ _ _ _ _ (new_object_ok _ σ0)). fold (first_object σ0). fold o.
    unfold Reset_ptr. cbn [base_block_ SharedPtr_default].
    rewrite (bind_Ok _ _ _ _ _ (mret_Ok tt _)).
    rewrite (bind_Ok _ _ _ _ _ (new_block_ok _ _)).
    cbn [blocks count_allocation set_objects]. fold (first_block σ0). fold b.
    split; [reflexivity|]. split; [|split].
    + cbn. by rewrite lookup_insert_eq.
    + unfold UseCount, h0, first_handle. cbn [base_block_]. fold b.
      erewrite (GetStrongCounter_ok _ b (mkBlock PtrControlBlock 1 0 (Some o)));
        [done|]. cbn. by rewrite lookup_insert_eq.
    + unfold SharedFromThis.
      erewrite bind_Ok; [|apply load_object_ok; cbn; by rewrite lookup_insert_eq].
      reflexivity.
Qed.

(** ** Programs over strong and weak handles *)

Section SharedWeak.
Variables (b p : nat) (cls : BlockClass) (v : Z) (r0 : nat).

#[local] Abbreviation life := (life b p cls v r0).

Lemma weak_count_insert k w (ws : gmap nat WeakPtr) :
  weak_count b (<[k := w]> ws) = weak_count b (delete k ws) + wweight b w.
Proof.
  unfold weak_count, wweight. rewrite map_filter_insert. cbn.
  destruct (wrefers_to b w) eqn:Hr.
  - rewrite decide_True by done.
    rewrite <- insert_delete_eq, map_size_insert_None by apply lookup_delete_eq.
    rewrite map_filter_delete. lia.
  - rewrite decide_False by done. lia.
Qed.

Lemma weak_count_delete k w (ws : gmap nat WeakPtr) :
  ws !! k = Some w → weak_count b ws = weak_count b (delete k ws) + wweight b w.
Proof.
  intros Hk. rewrite <- (insert_id ws k w Hk) at 1. apply weak_count_insert.
Qed.

Lemma weak_count_fresh k w (ws : gmap nat WeakPtr) :
  ws !! k = None → weak_count b (<[k := w]> ws) = weak_count b ws + wweight b w.
Proof. intros Hk. by rewrite weak_count_insert, delete_id. Qed.

Lemma wweight_refers w : w_base_block_ w = Some b → wweight b w = 1.
Proof. intros H. unfold wweight, wrefers_to. by rewrite bool_decide_true. Qed.

Lemma wweight_other w : w_base_block_ w ≠ Some b → wweight b w = 0.
Proof. intros H. unfold wweight, wrefers_to. by rewrite bool_decide_false. Qed.

Lemma wweight_empty q : wweight b (mkWeak None q) = 0.
Proof. by apply wweight_other. Qed.

Lemma weak_count_pos k w (ws : gmap nat WeakPtr) :
  ws !! k = Some w → w_base_block_ w = Some b → 1 ≤ weak_count b ws.
Proof.
  intros Hk Hw. rewrite (weak_count_delete k w ws Hk), wweight_refers by done. lia.
Qed.

Lemma weak_handles_inv_insert k w ws :
  weak_handles_inv b ws → w_base_block_ w = None ∨ w_base_block_ w = Some b →
  weak_handles_inv b (<[k := w]> ws).
Proof.
  intros Hws Hw k' w'. rewrite lookup_insert. case_decide; [|by apply Hws].
  by intros [= <-].
Qed.

Lemma weak_handles_inv_delete k ws :
  weak_handles_inv b ws → weak_handles_inv b (delete k ws).
Proof.
  intros Hws k' w'. rewrite lookup_delete. case_decide; [done|by apply Hws].
Qed.

(** *** The four counter moves *)

Lemma life_block n m σ :
  life n m σ → 0 < n + m →
  ∃ st, blocks σ !! b = Some (mkBlock cls (Z.of_nat n) (Z.of_nat m) st).
Proof.
  intros [H _] Hpos. destruct n as [|n]; [destruct m as [|m]; [lia|]|];
    destruct H as [H _]; by eexists.
Qed.

Lemma life_strong_acquire n m σ :
  life (S n) m σ → (Z.of_nat (S n) + 1 < SIZE_MODULUS)%Z →
  ∃ σ', IncreaseStrongCounter b σ = Ok tt σ' ∧ life (S (S n)) m σ'.
Proof.
  intros [[Hb Ho] Hr] Hmax.
  pose proof (IncreaseStrongCounter_ok _ _ _ Hb) as E. unfold with_strong in E.
  cbn [strong_counter_ dynamic_type weak_counter_ stored_ptr_] in E.
  rewrite incr_small in E by lia.
  replace (Z.of_nat (S n) + 1)%Z with (Z.of_nat (S (S n))) in E by lia.
  eexists. split; [exact E|]. split; [|done]. split; [|done].
  cbn. by rewrite lookup_insert_eq.
Qed.

Lemma life_strong_release n m σ :
  life (S n) m σ → (Z.of_nat (S n) < SIZE_MODULUS)%Z →
  ∃ σ', DecreaseStrongCounter b σ = Ok tt σ' ∧ life n m σ'.
Proof.
  intros [[Hb Ho] Hr] Hmax. destruct n as [|n].
  - pose proof (DecreaseStrongCounter_last_plain _ _ _ _ _ _ _ Hb eq_refl Ho) as E.
    eexists. split; [exact E|]. destruct m as [|m].
    + change (Z.of_nat 0 =? 0)%Z with true. split.
      * cbn. by rewrite !lookup_delete_eq.
      * cbn [trace]. rewrite destructor_runs_cons.
        rewrite (destructor_runs_cons p (destroy_event cls p)).
        rewrite is_destruction_of_destroy_event. cbn. lia.
    + destruct (Z.eqb_spec (Z.of_nat (S m)) 0) as [|_]; [lia|]. split.
      * cbn. by rewrite lookup_insert_eq, lookup_delete_eq.
      * cbn [trace]. rewrite destructor_runs_cons.
        rewrite is_destruction_of_destroy_event. lia.
  - assert (Hd : decr (Z.of_nat (S (S n))) = Z.of_nat (S n))
      by (rewrite decr_small; lia).
    pose proof (DecreaseStrongCounter_nonzero _ _ _ Hb) as E.
    unfold with_strong in E.
    cbn [strong_counter_ dynamic_type weak_counter_ stored_ptr_] in E.
    rewrite Hd in E. specialize (E ltac:(lia)).
    eexists. split; [exact E|]. split; [|done]. split; [|done].
    cbn. by rewrite lookup_insert_eq.
Qed.

Lemma life_weak_acquire n m σ :
  life n m σ → 0 < n + m → (Z.of_nat m + 1 < SIZE_MODULUS)%Z →
  ∃ σ', IncreaseWeakCounter b σ = Ok tt σ' ∧ life n (S m) σ'.
Proof.
  intros Hl Hpos Hmax. destruct (life_block n m σ Hl Hpos) as [st Hb].
  pose proof (IncreaseWeakCounter_ok _ _ _ Hb) as E. unfold with_weak in E.
  cbn [strong_counter_ dynamic_type weak_counter_ stored_ptr_] in E.
  rewrite incr_small in E by lia.
  replace (Z.of_nat m + 1)%Z with (Z.of_nat (S m)) in E by lia.
  eexists. split; [exact E|]. destruct Hl as [Hl Hr]. split; [|done].
  destruct n as [|n]; [destruct m as [|m]; [lia|]|];
    destruct Hl as [Hb' Ho]; rewrite Hb in Hb'; injection Hb' as ->;
    (split; [|done]); cbn; by rewrite lookup_insert_eq.
Qed.

Lemma life_weak_release n m σ :
  life n (S m) σ → (Z.of_nat (S m) < SIZE_MODULUS)%Z →
  ∃ σ', DecreaseWeakCounter b σ = Ok tt σ' ∧ life n m σ'.
Proof.
  intros Hl Hmax. destruct (life_block n (S m) σ Hl ltac:(lia)) as [st Hb].
  pose proof (DecreaseWeakCounter_ok _ _ _ Hb) as E. unfold with_weak in E.
  cbn [strong_counter_ dynamic_type weak_counter_ stored_ptr_] in E.
  rewrite decr_small in E by lia.
  replace (Z.of_nat (S m) - 1)%Z with (Z.of_nat m) in E by lia.
  eexists. split; [exact E|]. destruct Hl as [Hl Hr].
  destruct n as [|n]; destruct Hl as [Hb' Ho]; rewrite Hb in Hb';
    injection Hb' as ->.
  - destruct m as [|m].
    + change (Z.of_nat 0 =? 0)%Z with true. cbn [andb]. split.
      * cbn. by rewrite lookup_delete_eq.
      * cbn [trace emit set_blocks]. by rewrite destructor_runs_cons.
    + destruct (Z.eqb_spec (Z.of_nat (S m)) 0) as [|_]; [lia|]. cbn [andb].
      split; [|done]. cbn. by rewrite lookup_insert_eq.
  - destruct (Z.eqb_spec (Z.of_nat (S n)) 0) as [|_]; [lia|].
    rewrite andb_false_r. split; [|done]. cbn. by rewrite lookup_insert_eq.
Qed.

Lemma life_use_count n m σ :
  life n m σ → 0 < n + m → GetStrongCounter b σ = Ok (Z.of_nat n) σ.
Proof.
  intros Hl Hpos. destruct (life_block n m σ Hl Hpos) as [st Hb].
  by rewrite (GetStrongCounter_ok _ _ _ Hb).
Qed.

(** *** Handles taking and giving up references *)

Lemma strong_release_life k h hs m σ :
  handles_inv b hs → hs !! k = Some h → life (live_count b hs) m σ →
  (Z.of_nat (live_count b hs) < SIZE_MODULUS)%Z →
  ∃ σ', SharedPtr_dtor h σ = Ok tt σ' ∧ life (live_count b (delete k hs)) m σ'.
Proof.
  intros Hhs Hk Hl Hmax. rewrite (live_count_delete b k h hs Hk) in Hl, Hmax.
  unfold SharedPtr_dtor. destruct (Hhs _ _ Hk) as [Hh|Hh]; rewrite Hh.
  - rewrite weight_other, Nat.add_0_r in Hl by congruence. by exists σ.
  - rewrite weight_refers in Hl, Hmax by done.
    replace (live_count b (delete k hs) + 1) with (S (live_count b (delete k hs)))
      in Hl, Hmax by lia.
    by apply life_strong_release.
Qed.

Lemma strong_acquire_life h n m σ :
  base_block_ h = None ∨ base_block_ h = Some b →
  life n m σ → (base_block_ h = Some b → 0 < n) →
  (Z.of_nat n + 1 < SIZE_MODULUS)%Z →
  ∃ σ', match base_block_ h with
        | Some b' => IncreaseStrongCounter b'
        | None => mret tt
        end σ = Ok tt σ' ∧ life (n + weight b h) m σ'.
Proof.
  intros [Hh|Hh] Hl Hpos Hmax; rewrite Hh.
  - rewrite weight_other, Nat.add_0_r by congruence. by exists σ.
  - rewrite weight_refers by done. specialize (Hpos Hh).
    destruct n as [|n]; [lia|]. replace (S n + 1) with (S (S n)) by lia.
    by apply life_strong_acquire.
Qed.

Lemma weak_release_life k w ws n σ :
  weak_handles_inv b ws → ws !! k = Some w → life n (weak_count b ws) σ →
  (Z.of_nat (weak_count b ws) < SIZE_MODULUS)%Z →
  ∃ σ', WeakPtr_dtor w σ = Ok tt σ' ∧ life n (weak_count b (delete k ws)) σ'.
Proof.
  intros Hws Hk Hl Hmax. rewrite (weak_count_delete k w ws Hk) in Hl, Hmax.
  unfold WeakPtr_dtor. destruct (Hws _ _ Hk) as [Hw|Hw]; rewrite Hw.
  - rewrite wweight_other, Nat.add_0_r in Hl by congruence. by exists σ.
  - rewrite wweight_refers in Hl, Hmax by done.
    replace (weak_count b (delete k ws) + 1) with (S (weak_count b (delete k ws)))
      in Hl, Hmax by lia.
    by apply life_weak_release.
Qed.

Lemma weak_acquire_life (bb : ptr) n m σ :
  bb = None ∨ bb = Some b →
  life n m σ → (bb = Some b → 0 < n + m) →
  (Z.of_nat m + 1 < SIZE_MODULUS)%Z →
  ∃ σ', match bb with
        | Some b' => IncreaseWeakCounter b'
        | None => mret tt
        end σ = Ok tt σ' ∧ life n (m + wweight b (mkWeak bb None)) σ'.
Proof.
  intros [Hw|Hw] Hl Hpos Hmax; rewrite Hw.
  - rewrite wweight_other, Nat.add_0_r by done. by exists σ.
  - rewrite wweight_refers by done. specialize (Hpos Hw).
    replace (m + 1) with (S m) by lia. by apply life_weak_acquire.
Qed.

Lemma wweight_ptr bb q q' : wweight b (mkWeak bb q) = wweight b (mkWeak bb q').
Proof. done. Qed.

Lemma weight_ptr bb q q' : weight b (mkShared bb q) = weight b (mkShared bb q').
Proof. done. Qed.

Lemma weight_wweight bb q q' : weight b (mkShared bb q) = wweight b (mkWeak bb q').
Proof. done. Qed.

(** *** Statements on strong handles *)

Lemma exec_life (o : nat) op hs m σ :
  handles_inv b hs → life (live_count b hs) m σ →
  op_ok false b o hs op = true →
  (Z.of_nat (live_count b hs) + 1 < SIZE_MODULUS)%Z →
  ∃ σ', exec op hs σ = Ok (spec_step op hs) σ' ∧
    handles_inv b (spec_step op hs) ∧
    life (live_count b (spec_step op hs)) m σ' ∧
    live_count b (spec_step op hs) ≤ live_count b hs + 1.
Proof.
  intros Hhs Hl Hok Hmax.
  destruct op as [t src dst|t src dst|t src dst q|dst src|dst src|k|k];
    cbn in Hok; unfold exec, spec_step.
  - (* OpCopy *)
    destruct (hs !! src) as [s|] eqn:Hs; [|done].
    destruct (hs !! dst) eqn:Hd; [done|]. destruct t; [done|].
    destruct (strong_acquire_life s _ m σ (Hhs _ _ Hs) Hl) as (σ' & E & Hl');
      [by apply (live_count_pos b src s hs)|lia|].
    exists σ'. destruct s as [sb sq].
    assert (Ec : SharedPtr_copy false (mkShared sb sq) σ = Ok (mkShared sb sq) σ').
    { unfold SharedPtr_copy. cbn [base_block_ observed_ptr_] in *. by mstep E. }
    mstep Ec.
    split; [done|]. rewrite live_count_fresh by done.
    split; [apply handles_inv_insert; [done|exact (Hhs _ _ Hs)]|].
    split; [done|]. pose proof (weight_le b (mkShared sb sq)). lia.
  - (* OpMove *)
    destruct (hs !! src) as [s|] eqn:Hs; [|done].
    destruct (hs !! dst) eqn:Hd; [done|]. destruct t; [done|].
    assert (src ≠ dst) by congruence.
    exists σ. destruct s as [sb sq]. split; [done|].
    assert (Hc : live_count b (<[dst:=mkShared sb sq]> (<[src:=mkShared None None]> hs))
                 = live_count b hs).
    { rewrite live_count_fresh by (by rewrite lookup_insert_ne).
      rewrite live_count_insert, weight_empty, Nat.add_0_r.
      by rewrite (live_count_delete b src _ hs Hs). }
    rewrite Hc. split; [|split; [done|lia]].
    apply handles_inv_insert; [|exact (Hhs _ _ Hs)].
    apply handles_inv_insert; [done|by left].
  - (* OpAlias *)
    destruct (hs !! src) as [s|] eqn:Hs; [|done].
    destruct (hs !! dst) eqn:Hd; [done|]. destruct t; [done|].
    destruct (strong_acquire_life s _ m σ (Hhs _ _ Hs) Hl) as (σ' & E & Hl');
      [by apply (live_count_pos b src s hs)|lia|].
    exists σ'. destruct s as [sb sq].
    assert (Ec : SharedPtr_alias false (mkShared sb sq) q σ = Ok (mkShared sb q) σ').
    { unfold SharedPtr_alias. cbn [base_block_ observed_ptr_] in *. by mstep E. }
    mstep Ec. cbn [base_block_].
    split; [done|]. rewrite live_count_fresh by done.
    rewrite (weight_ptr sb q sq).
    split; [apply handles_inv_insert; [done|exact (Hhs _ _ Hs)]|].
    split; [done|]. pose proof (weight_le b (mkShared sb sq)). lia.
  - (* OpCopyAssign *)
    destruct (hs !! dst) as [d|] eqn:Hd; [|done].
    destruct (hs !! src) as [s|] eqn:Hs; [|done].
    unfold SharedPtr_copy_assign. case_bool_decide as Heq.
    + subst dst. assert (d = s) as -> by congruence.
      exists σ. split; [done|]. rewrite insert_id by done. split; [done|].
      split; [done|lia].
    + destruct (strong_release_life dst d hs m σ Hhs Hd Hl) as (σ1 & E1 & Hl1);
        [lia|].
      unfold SharedPtr_dtor in E1.
      pose proof (live_count_delete_le b dst hs) as Hle.
      destruct (strong_acquire_life s _ m σ1 (Hhs _ _ Hs) Hl1) as (σ' & E & Hl');
        [|lia|].
      { intros Hb. apply (live_count_pos b src s); [|done].
        by rewrite lookup_delete_ne. }
      exists σ'. destruct s as [sb sq]. cbn [base_block_ observed_ptr_] in *.
      erewrite bind_Ok; [|by mstep E1; mstep E].
      split; [done|]. rewrite live_count_insert.
      split; [apply handles_inv_insert; [done|exact (Hhs _ _ Hs)]|].
      split; [done|]. pose proof (weight_le b (mkShared sb sq)). lia.
  - (* OpMoveAssign *)
    destruct (hs !! dst) as [d|] eqn:Hd; [|done].
    destruct (hs !! src) as [s|] eqn:Hs; [|done].
    unfold SharedPtr_move_assign. case_bool_decide as Heq.
    + subst dst. assert (d = s) as -> by congruence.
      exists σ. split; [|split; [done|]; split; [done|lia]].
      rewrite (bind_Ok _ _ _ _ _ (mret_Ok (s, s) σ)). cbn beta iota.
      rewrite mret_Ok, insert_insert_eq. by rewrite insert_id.
    + destruct (strong_release_life dst d hs m σ Hhs Hd Hl) as (σ1 & E1 & Hl1);
        [lia|].
      unfold SharedPtr_dtor in E1.
      exists σ1. destruct s as [sb sq]. cbn [base_block_ observed_ptr_].
      erewrite bind_Ok; [|by mstep E1]. cbn beta iota.
      split; [done|].
      assert (Hc : live_count b (<[dst:=mkShared sb sq]> (<[src:=mkShared None None]> hs))
                   = live_count b (delete dst hs)).
      { rewrite live_count_insert, delete_insert_ne by done.
        rewrite live_count_insert, weight_empty, Nat.add_0_r.
        rewrite (live_count_delete b src (mkShared sb sq) (delete dst hs))
          by (by rewrite lookup_delete_ne).
        by rewrite (delete_delete _ src dst). }
      rewrite Hc. pose proof (live_count_delete_le b dst hs).
      split; [|split; [done|lia]].
      apply handles_inv_insert; [|exact (Hhs _ _ Hs)].
      apply handles_inv_insert; [done|by left].
  - (* OpReset *)
    destruct (hs !! k) as [h|] eqn:Hk; [|done].
    destruct (strong_release_life k h hs m σ Hhs Hk Hl) as (σ1 & E1 & Hl1); [lia|].
    unfold Reset. unfold SharedPtr_dtor in E1. exists σ1.
    erewrite bind_Ok; [|by mstep E1].
    split; [done|]. rewrite live_count_insert, weight_empty, Nat.add_0_r.
    pose proof (live_count_delete_le b k hs).
    split; [|split; [done|lia]]. apply handles_inv_insert; [done|by left].
  - (* OpDestroy *)
    destruct (hs !! k) as [h|] eqn:Hk; [|done].
    destruct (strong_release_life k h hs m σ Hhs Hk Hl) as (σ1 & E1 & Hl1); [lia|].
    mstep E1. exists σ1. split; [done|].
    pose proof (live_count_delete_le b k hs).
    split; [|split; [done|lia]]. by apply handles_inv_delete.
Qed.

(** *** Statements on weak handles *)

Lemma weak_count_delete_le k (ws : gmap nat WeakPtr) :
  weak_count b (delete k ws) ≤ weak_count b ws.
Proof.
  destruct (ws !! k) as [w|] eqn:Hk.
  - rewrite (weak_count_delete k w ws Hk). lia.
  - by rewrite delete_id.
Qed.

Lemma wweight_le w : wweight b w ≤ 1.
Proof. unfold wweight. destruct (wrefers_to b w); lia. Qed.

Lemma weak_count_move src dst w (ws : gmap nat WeakPtr) :
  ws !! src = Some w → src ≠ dst →
  weak_count b (<[dst := w]> (<[src := mkWeak None None]> ws))
  = weak_count b (delete dst ws).
Proof.
  intros Hs Hne. rewrite weak_count_insert, delete_insert_ne by done.
  rewrite weak_count_insert, wweight_empty, Nat.add_0_r.
  rewrite (weak_count_delete src w (delete dst ws)) by (by rewrite lookup_delete_ne).
  by rewrite (delete_delete _ src dst).
Qed.

Lemma weak_count_swap x y wx wy (ws : gmap nat WeakPtr) :
  ws !! x = Some wx → ws !! y = Some wy →
  weak_count b (<[x := wy]> (<[y := wx]> ws)) = weak_count b ws.
Proof.
  intros Hx Hy. destruct (decide (x = y)) as [->|Hne].
  - assert (wx = wy) as -> by congruence. by rewrite insert_insert_eq, insert_id.
  - rewrite weak_count_insert, delete_insert_ne by done.
    rewrite weak_count_insert. rewrite (weak_count_delete x wx ws Hx).
    rewrite (weak_count_delete y wy (delete x ws)) by (by rewrite lookup_delete_ne).
    rewrite (delete_delete _ y x). lia.
Qed.

Lemma wexec_inv (o : nat) op vs σ :
  shared_weak_inv b p cls v r0 vs σ → wop_ok b o vs op = true →
  (Z.of_nat (live_count b vs.1 + weak_count b vs.2) + 1 < SIZE_MODULUS)%Z →
  ∃ σ', wexec op vs σ = Ok (wspec_step b op vs) σ' ∧
    shared_weak_inv b p cls v r0 (wspec_step b op vs) σ' ∧
    live_count b (wspec_step b op vs).1 + weak_count b (wspec_step b op vs).2
    ≤ live_count b vs.1 + weak_count b vs.2 + 1.
Proof.
  destruct vs as [hs ws]. unfold shared_weak_inv.
  intros (Hhs & Hws & Hl) Hok Hmax. cbn [fst snd] in *.
  destruct op as [op|src dst|src dst|src dst|dst src|dst src|dst src|k|x y|k|src dst];
    cbn in Hok; unfold wexec, wspec_step.
  - (* WStrong *)
    destruct (exec_life o op hs _ σ Hhs Hl Hok) as (σ' & E & Hhs' & Hl' & Hle); [lia|].
    exists σ'. mstep E. split; [done|]. split; [done|]. cbn [fst snd]. lia.
  - (* WDemote *)
    destruct (hs !! src) as [s|] eqn:Hs; [|done].
    destruct (ws !! dst) eqn:Hd; [done|].
    destruct (weak_acquire_life (base_block_ s) _ _ σ (Hhs _ _ Hs) Hl)
      as (σ' & E & Hl'); [|lia|].
    { intros Hb. pose proof (live_count_pos b src s hs Hs Hb). lia. }
    exists σ'.
    assert (Ec : WeakPtr_from_shared s σ
                 = Ok (mkWeak (base_block_ s) (observed_ptr_ s)) σ').
    { unfold WeakPtr_from_shared. cbn [w_base_block_]. by mstep E. }
    mstep Ec. split; [done|]. cbn [fst snd].
    rewrite weak_count_fresh by done.
    rewrite (wweight_ptr (base_block_ s) (observed_ptr_ s) None).
    split; [split; [done|split; [|done]]|].
    + apply weak_handles_inv_insert; [done|exact (Hhs _ _ Hs)].
    + pose proof (wweight_le (mkWeak (base_block_ s) None)). lia.
  - (* WCopy *)
    destruct (ws !! src) as [w|] eqn:Hs; [|done].
    destruct (ws !! dst) eqn:Hd; [done|].
    destruct (weak_acquire_life (w_base_block_ w) _ _ σ (Hws _ _ Hs) Hl)
      as (σ' & E & Hl'); [|lia|].
    { intros Hb. pose proof (weak_count_pos src w ws Hs Hb). lia. }
    exists σ'. destruct w as [wb wq]. cbn [w_base_block_ w_observed_ptr_] in *.
    assert (Ec : WeakPtr_copy (mkWeak wb wq) σ = Ok (mkWeak wb wq) σ').
    { unfold WeakPtr_copy. cbn [w_base_block_ w_observed_ptr_]. by mstep E. }
    mstep Ec. split; [done|]. cbn [fst snd].
    rewrite weak_count_fresh by done. rewrite (wweight_ptr wb wq None).
    split; [split; [done|split; [|done]]|].
    + apply weak_handles_inv_insert; [done|exact (Hws _ _ Hs)].
    + pose proof (wweight_le (mkWeak wb None)). lia.
  - (* WMove *)
    destruct (ws !! src) as [w|] eqn:Hs; [|done].
    destruct (ws !! dst) eqn:Hd; [done|].
    assert (src ≠ dst) by congruence.
    exists σ. destruct w as [wb wq]. split; [done|]. cbn [fst snd].
    rewrite weak_count_move, delete_id by done.
    split; [split; [done|split; [|done]]|lia].
    apply weak_handles_inv_insert; [|exact (Hws _ _ Hs)].
    apply weak_handles_inv_insert; [done|by left].
  - (* WAssignShared *)
    destruct (ws !! dst) as [d|] eqn:Hd; [|done].
    destruct (hs !! src) as [s|] eqn:Hs; [|done].
    destruct (weak_release_life dst d ws _ σ Hws Hd Hl) as (σ1 & E1 & Hl1); [lia|].
    pose proof (weak_count_delete_le dst ws).
    destruct (weak_acquire_life (base_block_ s) _ _ σ1 (Hhs _ _ Hs) Hl1)
      as (σ' & E & Hl'); [|lia|].
    { intros Hb. pose proof (live_count_pos b src s hs Hs Hb). lia. }
    exists σ'.
    assert (Ec : WeakPtr_assign_shared d s σ
                 = Ok (mkWeak (base_block_ s) (observed_ptr_ s)) σ').
    { unfold WeakPtr_assign_shared. unfold WeakPtr_dtor in E1. mstep E1.
      cbn [w_base_block_]. by mstep E. }
    mstep Ec. split; [done|]. cbn [fst snd]. rewrite weak_count_insert.
    rewrite (wweight_ptr (base_block_ s) (observed_ptr_ s) None).
    split; [split; [done|split; [|done]]|].
    + apply weak_handles_inv_insert; [done|exact (Hhs _ _ Hs)].
    + pose proof (wweight_le (mkWeak (base_block_ s) None)). lia.
  - (* WCopyAssign *)
    destruct (ws !! dst) as [d|] eqn:Hd; [|done].
    destruct (ws !! src) as [w|] eqn:Hs; [|done].
    unfold WeakPtr_copy_assign. case_bool_decide as Heq.
    + subst dst. assert (d = w) as -> by congruence.
      exists σ. split; [done|]. cbn [fst snd]. rewrite insert_id by done.
      split; [done|lia].
    + destruct (weak_release_life dst d ws _ σ Hws Hd Hl) as (σ1 & E1 & Hl1); [lia|].
      pose proof (weak_count_delete_le dst ws).
      destruct (weak_acquire_life (w_base_block_ w) _ _ σ1 (Hws _ _ Hs) Hl1)
        as (σ' & E & Hl'); [|lia|].
      { intros Hb.
        pose proof (weak_count_pos src w (delete dst ws)) as Hp.
        rewrite lookup_delete_ne in Hp by done. specialize (Hp Hs Hb). lia. }
      exists σ'. destruct w as [wb wq]. cbn [w_base_block_ w_observed_ptr_] in *.
      unfold WeakPtr_dtor in E1.
      erewrite bind_Ok; [|by mstep E1; mstep E].
      split; [done|]. cbn [fst snd]. rewrite weak_count_insert.
      rewrite (wweight_ptr wb wq None).
      split; [split; [done|split; [|done]]|].
      * apply weak_handles_inv_insert; [done|exact (Hws _ _ Hs)].
      * pose proof (wweight_le (mkWeak wb None)). lia.
  - (* WMoveAssign *)
    destruct (ws !! dst) as [d|] eqn:Hd; [|done].
    destruct (ws !! src) as [w|] eqn:Hs; [|done].
    unfold WeakPtr_move_assign. case_bool_decide as Heq.
    + subst dst. assert (d = w) as -> by congruence.
      exists σ. cbn [fst snd]. split; [|split; [done|lia]].
      rewrite (bind_Ok _ _ _ _ _ (mret_Ok (w, w) σ)). cbn beta iota.
      rewrite mret_Ok, insert_insert_eq. by rewrite insert_id.
    + destruct (weak_release_life dst d ws _ σ Hws Hd Hl) as (σ1 & E1 & Hl1); [lia|].
      pose proof (weak_count_delete_le dst ws).
      exists σ1. destruct w as [wb wq]. cbn [w_base_block_ w_observed_ptr_].
      unfold WeakPtr_dtor in E1.
      erewrite bind_Ok; [|by mstep E1]. cbn beta iota.
      split; [done|]. cbn [fst snd]. rewrite weak_count_move by done.
      split; [split; [done|split; [|done]]|lia].
      apply weak_handles_inv_insert; [|exact (Hws _ _ Hs)].
      apply weak_handles_inv_insert; [done|by left].
  - (* WReset *)
    destruct (ws !! k) as [w|] eqn:Hk; [|done].
    destruct (weak_release_life k w ws _ σ Hws Hk Hl) as (σ1 & E1 & Hl1); [lia|].
    pose proof (weak_count_delete_le k ws).
    exists σ1. unfold WeakPtr_Reset. unfold WeakPtr_dtor in E1.
    erewrite bind_Ok; [|by mstep E1].
    split; [done|]. cbn [fst snd].
    rewrite weak_count_insert, wweight_empty, Nat.add_0_r.
    split; [split; [done|split; [|done]]|lia].
    apply weak_handles_inv_insert; [done|by left].
  - (* WSwap *)
    destruct (ws !! x) as [wx|] eqn:Hx; [|done].
    destruct (ws !! y) as [wy|] eqn:Hy; [|done].
    exists σ. destruct wx as [xb xq], wy as [yb yq]. split; [done|]. cbn [fst snd].
    rewrite (weak_count_swap x y _ _ ws Hx Hy).
    split; [split; [done|split; [|done]]|lia].
    apply weak_handles_inv_insert; [|exact (Hws _ _ Hy)].
    apply weak_handles_inv_insert; [done|exact (Hws _ _ Hx)].
  - (* WDestroy *)
    destruct (ws !! k) as [w|] eqn:Hk; [|done].
    destruct (weak_release_life k w ws _ σ Hws Hk Hl) as (σ1 & E1 & Hl1); [lia|].
    pose proof (weak_count_delete_le k ws).
    exists σ1. mstep E1. split; [done|]. cbn [fst snd].
    split; [split; [done|split; [|done]]|lia].
    by apply weak_handles_inv_delete.
  - (* WLock *)
    destruct (ws !! src) as [w|] eqn:Hs; [|done].
    destruct (hs !! dst) eqn:Hd; [done|].
    destruct (Hws _ _ Hs) as [Hw|Hw].
    + (* an empty weak handle *)
      assert (Ec : WeakPtr_Lock false w σ = Ok (mkShared None None) σ).
      { unfold WeakPtr_Lock, WeakPtr_Expired, WeakPtr_UseCount. by rewrite Hw. }
      exists σ. mstep Ec. unfold wrefers_to. rewrite bool_decide_false by congruence.
      cbn [andb fst snd]. split; [done|].
      rewrite live_count_fresh, weight_empty, Nat.add_0_r by done.
      split; [split; [|done]|lia]. apply handles_inv_insert; [done|by left].
    + pose proof (weak_count_pos src w ws Hs Hw) as Hpos.
      pose proof (life_use_count _ _ σ Hl ltac:(lia)) as EU.
      unfold wrefers_to. rewrite bool_decide_true by done. cbn [andb].
      assert (Ex : WeakPtr_Expired w σ = Ok (Z.of_nat (live_count b hs) =? 0)%Z σ).
      { unfold WeakPtr_Expired, WeakPtr_UseCount. rewrite Hw. by mstep EU. }
      destruct (live_count b hs) as [|n] eqn:Hn.
      * assert (Ec : WeakPtr_Lock false w σ = Ok (mkShared None None) σ).
        { unfold WeakPtr_Lock. by mstep Ex. }
        exists σ. mstep Ec. cbn [Nat.eqb negb fst snd]. split; [done|].
        rewrite live_count_fresh, weight_empty, Nat.add_0_r, Hn by done.
        split; [split; [|done]|lia]. apply handles_inv_insert; [done|by left].
      * destruct (life_strong_acquire n _ σ Hl) as (σ' & E & Hl'); [lia|].
        assert (Ec : WeakPtr_Lock false w σ = Ok (mkShared (Some b) (w_observed_ptr_ w)) σ').
        { unfold WeakPtr_Lock. mstep Ex.
          destruct (Z.eqb_spec (Z.of_nat (S n)) 0) as [|_]; [lia|].
          rewrite Hw. by mstep E. }
        exists σ'. mstep Ec. cbn [Nat.eqb negb fst snd]. split; [done|].
        rewrite live_count_fresh, weight_refers, Hn by done.
        replace (S n + 1) with (S (S n)) by lia.
        split; [split; [|done]|lia]. apply handles_inv_insert; [done|by right].
Qed.

Lemma wrun_inv (o : nat) ops : ∀ vs σ,
  shared_weak_inv b p cls v r0 vs σ → wops_ok b o vs ops = true →
  (Z.of_nat (live_count b vs.1 + weak_count b vs.2 + length ops) < SIZE_MODULUS)%Z →
  ∃ σ', wrun ops vs σ = Ok (wspec_run b ops vs) σ' ∧
        shared_weak_inv b p cls v r0 (wspec_run b ops vs) σ'.
Proof.
  induction ops as [|op ops IH]; intros vs σ Hinv Hok Hmax.
  - by exists σ.
  - cbn in Hok. apply andb_true_iff in Hok as [Hop Hops]. cbn [length] in Hmax.
    destruct (wexec_inv o op vs σ Hinv Hop) as (σ1 & E1 & Hinv1 & Hle); [lia|].
    destruct (IH _ σ1 Hinv1 Hops) as (σ' & E & Hinv'); [lia|].
    exists σ'. split; [|done]. cbn [wrun]. by mstep E1.
Qed.

Lemma UseCount_life vs σ k h :
  shared_weak_inv b p cls v r0 vs σ → vs.1 !! k = Some h →
  UseCount h σ
  = Ok (if refers_to b h then Z.of_nat (live_count b vs.1) else 0%Z) σ.
Proof.
  intros (Hhs & _ & Hl) Hk. unfold refers_to, UseCount.
  destruct (Hhs _ _ Hk) as [Hh|Hh]; rewrite Hh.
  - by rewrite bool_decide_false.
  - rewrite bool_decide_true by done.
    pose proof (live_count_pos b k h _ Hk Hh).
    apply (life_use_count _ _ σ Hl). lia.
Qed.

Lemma WeakPtr_UseCount_life vs σ k w :
  shared_weak_inv b p cls v r0 vs σ → vs.2 !! k = Some w →
  WeakPtr_UseCount w σ
  = Ok (if wrefers_to b w then Z.of_nat (live_count b vs.1) else 0%Z) σ.
Proof.
  intros (_ & Hws & Hl) Hk. unfold wrefers_to, WeakPtr_UseCount.
  destruct (Hws _ _ Hk) as [Hw|Hw]; rewrite Hw.
  - by rewrite bool_decide_false.
  - rewrite bool_decide_true by done.
    pose proof (weak_count_pos k w _ Hk Hw).
    apply (life_use_count _ _ σ Hl). lia.
Qed.

Lemma life_allocated n m σ :
  life n m σ →
  (is_Some (objects σ !! p) ↔ n ≠ 0) ∧ (is_Some (blocks σ !! b) ↔ n + m ≠ 0).
Proof.
  intros [H _].
  assert (Hnone : ∀ A (x : option A), x = None → ¬ is_Some x)
    by (intros A x -> [? ?]; done).
  destruct n as [|n]; [destruct m as [|m]|]; destruct H as [Hb Ho];
    split; split; intros H; try done; try lia;
    try (by rewrite ?Hb, ?Ho); try (by eapply Hnone in H).
Qed.

End SharedWeak.

(** X17. Strong and weak handles together.  Build a strong handle on a
    plain object by either construction path and run a program that
    copies, moves, assigns, resets and destroys strong and weak handles,
    demotes strong handles and locks weak ones, on variables in scope
    and short enough for the counters not to wrap.  The program runs to
    the end.  Afterwards [UseCount()] of every handle of the block,
    strong or weak, is the number of live strong handles, and a weak
    handle is expired exactly when that number is 0 or the handle is
    empty; the destructor of the object has run exactly once if no
    strong handle is left and not at all otherwise; the object is alive
    exactly while a strong handle is; and the block is allocated exactly
    while a handle of either kind is. *)
Theorem strong_and_weak_handles_count
    (co : bool) (v : Z) (σ0 : Heap) (ops : list WOp) :
  let b := first_block σ0 in
  let o := first_object σ0 in
  let h0 := first_handle σ0 in
  wops_ok b o ({[0 := h0]}, ∅) ops = true →
  (Z.of_nat (1 + length ops) < SIZE_MODULUS)%Z →
  ∃ σ1 σ',
    (if co then MakeShared false v else SharedPtr_new false v) σ0 = Ok h0 σ1 ∧
    let vs := wspec_run b ops ({[0 := h0]}, ∅) in
    let n := live_count b vs.1 in
    let m := weak_count b vs.2 in
    wrun ops ({[0 := h0]}, ∅) σ1 = Ok vs σ' ∧
    (∀ i h, vs.1 !! i = Some h →
       UseCount h σ' = Ok (if refers_to b h then Z.of_nat n else 0%Z) σ') ∧
    (∀ i w, vs.2 !! i = Some w →
       WeakPtr_UseCount w σ' = Ok (if wrefers_to b w then Z.of_nat n else 0%Z) σ' ∧
       WeakPtr_Expired w σ'
       = Ok (if wrefers_to b w then bool_decide (n = 0) else true) σ') ∧
    destructor_runs o (trace σ')
    = destructor_runs o (trace σ0) + match n with 0 => 1 | S _ => 0 end ∧
    (is_Some (objects σ' !! o) ↔ n ≠ 0) ∧
    (is_Some (blocks σ' !! b) ↔ n + m ≠ 0).
Proof.
  intros b o h0 Hok Hmax.
  destruct (construct_group false co v σ0) as (σ1 & E1 & Hhs1 & Hinv1).
  rewrite live_count_singleton, weight_refers in Hinv1 by done.
  destruct Hinv1 as (_ & _ & [cls Hb] & Ho & Hr). fold b o in Hb, Ho, Hr.
  set (r0 := destructor_runs o (trace σ0)) in *.
  assert (Hinv : shared_weak_inv b o cls v r0 ({[0 := h0]}, ∅) σ1).
  { split; [exact Hhs1|]. split; [intros k w Hk; cbn [snd] in Hk; by rewrite lookup_empty in Hk|].
    cbn [fst snd]. rewrite live_count_singleton, weight_refers by done.
    unfold weak_count. rewrite map_filter_empty, map_size_empty.
    split; [split; [exact Hb|exact Ho]|]. rewrite Hr. lia. }
  destruct (wrun_inv b o cls v r0 o ops _ σ1 Hinv Hok) as (σ' & E & Hinv').
  { cbn [fst snd]. rewrite live_count_singleton, weight_refers by done.
    unfold weak_count. rewrite map_filter_empty, map_size_empty. lia. }
  exists σ1, σ'. split; [exact E1|]. cbn zeta. split; [exact E|].
  split; [|split; [|split]].
  - intros i h Hi. by eapply UseCount_life.
  - intros i w Hi.
    pose proof (WeakPtr_UseCount_life b o cls v r0 _ σ' i w Hinv' Hi) as EU.
    split; [exact EU|]. unfold WeakPtr_Expired. mstep EU.
    destruct (wrefers_to b w); [|done].
    destruct (live_count b _) as [|n]; [done|].
    destruct (Z.eqb_spec (Z.of_nat (S n)) 0) as [|_]; [lia|]. done.
  - destruct Hinv' as (_ & _ & _ & Hr'). exact Hr'.
  - destruct Hinv' as (_ & _ & Hl'). by apply (life_allocated b o cls v r0) in Hl'.
Qed.

Lemma strong_and_weak_handles_count_witness :
  ∃ σ1 σ',
    MakeShared false 5 σ_empty = Ok (mkShared (Some 0) (Some 0)) σ1 ∧
    wrun weak_demo_ops ({[0 := mkShared (Some 0) (Some 0)]}, ∅) σ1
    = Ok ({[2 := mkShared None None; 3 := mkShared None None]}, ∅) σ' ∧
    destructor_runs 0 (trace σ') = 1 ∧
    ¬ is_Some (blocks σ' !! 0).
Proof.
  destruct (strong_and_weak_handles_count true 5 σ_empty weak_demo_ops)
    as (σ1 & σ' & E1 & E & _ & _ & Hr & _ & Hb).
  - vm_compute. reflexivity.
  - vm_compute. reflexivity.
  - exists σ1, σ'. split; [exact E1|]. split; [exact E|]. split; [exact Hr|].
    intros Hs. apply Hb in Hs. apply Hs. reflexivity.
Defined.
